(** * conn.go: the connection adapter between a byte-stream transport and
      the in-memory TLS engine

    A shallow embedding of [src/conn.go] (package [openssl]).

    The engine ([C.SSL_*], [C.ERR_*]), the two memory BIOs ([readBio],
    [writeBio]) and the wrapped [net.Conn] are external collaborators: their
    joint state is an abstract type [X] and each call is a function on it,
    collected in the record [Externals].  Nothing is assumed about them.

    The Go code of [conn.go] itself is written in a small monad over the
    connection.  A computation returns, or blocks (it is at a held mutex or
    at a future nobody has set), or runs out of fuel: the [for] loops and
    the recursion through [Close] have no syntactic bound.  Every call to
    the outside and every mutex operation is recorded in the trace of the
    connection, so that "no engine step", "the transport is closed" and the
    like are statements about the trace.  [go c.flushOutputBuffer()] only
    records that the flush was started.  [runtime.LockOSThread] and
    [runtime.UnlockOSThread] do nothing to the connection and are left out.

    The closures [getErrorHandler] returns are values of the type [errcb],
    one constructor per closure, and [handleError] runs them.

    Several callers of one connection are a pool whose steps are the phases
    of the code above (section "Several callers on one connection"). *)

From Stdlib Require Import ZArith String List Lia Bool.
From stdpp Require Import base option list.
Import ListNotations.

Local Open Scope Z_scope.

(** ** Go values *)

(** Non-nil [error] values.  The first four are the package-level
    sentinels of [conn.go] (lines 45-50); [io_EOF] and
    [io_ErrUnexpectedEOF] are the sentinels of package [io].  The code only
    ever compares errors against [nil] and these sentinels. *)
#[warnings="-register-all"]
Inductive err : Type :=
| zeroReturn
| wantRead
| wantWrite
| tryAgain
| io_EOF
| io_ErrUnexpectedEOF
| errors_New (msg : string)      (* errors.New(msg) *)
| Errno (code : Z)               (* the errno cgo returns next to a C result *)
| combined (es : list err).      (* what ErrorGroup.Finalize builds from several *)

(** A Go [error]: [None] is [nil]. *)
Definition error : Type := option err.

Definition is_tryAgain (e : error) : bool :=
  match e with Some tryAgain => true | _ => false end.

Definition is_io_EOF (e : error) : bool :=
  match e with Some io_EOF => true | _ => false end.

Definition is_io_ErrUnexpectedEOF (e : error) : bool :=
  match e with Some io_ErrUnexpectedEOF => true | _ => false end.

Definition is_nil (e : error) : bool :=
  match e with None => true | Some _ => false end.

(** [C.int(len(b))]: conversion of a Go [int] to a 32-bit C [int]. *)
Definition C_int (z : Z) : Z := (z + 2 ^ 31) mod 2 ^ 32 - 2 ^ 31.

Definition len (b : list Byte.byte) : Z := Z.of_nat (length b).

(** The values of [SSL_get_error] the switch of [getErrorHandler] names, as
    [openssl/ssl.h] defines them. *)
Definition SSL_ERROR_WANT_READ : Z := 2.
Definition SSL_ERROR_WANT_WRITE : Z := 3.
Definition SSL_ERROR_SYSCALL : Z := 5.
Definition SSL_ERROR_ZERO_RETURN : Z := 6.

(** ** utils.ErrorGroup and utils.Future *)

Module ErrorGroup.

(** Modelled from the spec: [utils.ErrorGroup] (package [utils], not part of
    [conn.go]).  Close uses it for "aggregating both results into one
    combined error (if either step failed)", so that "the returned error
    reflects the shutdown failure, the transport-close failure, or both". *)
Definition t : Type := list err.

Definition empty : t := [].

Definition Add (g : t) (e : error) : t :=
  match e with
  | None => g
  | Some e => g ++ [e]
  end.

Definition Finalize (g : t) : error :=
  match g with
  | [] => None
  | [e] => Some e
  | _ => Some (combined g)
  end.

End ErrorGroup.

Module Future.

(** Modelled from the spec: [utils.Future] (package [utils], not part of
    [conn.go]), "a single-assignment, multi-waiter completion handle (a
    promise/future with exactly one producer and any number of consumers)".
    The futures of a connection live in a heap, a future is its index;
    a cell is [None] until [Set] gives it its error. *)
Abbreviation heap := (list (option error)).

Definition NewFuture (h : heap) : nat * heap := (length h, h ++ [None]).

(** [Get] has a result only once the future is set; until then the caller
    waits. *)
Definition Get (h : heap) (f : nat) : option error :=
  match h !! f with
  | Some (Some e) => Some e
  | _ => None
  end.

Definition Set_ (h : heap) (f : nat) (e : error) : heap :=
  match h !! f with
  | Some None => <[f := Some e]> h
  | _ => h
  end.

End Future.

(** ** The external collaborators *)

Inductive engine_op : Type :=
| OpHandshake      (* C.SSL_do_handshake *)
| OpRead           (* C.SSL_read *)
| OpWrite          (* C.SSL_write *)
| OpShutdown.      (* C.SSL_shutdown *)

(** What an execution does to the outside and to the mutex, in order. *)
Inductive event : Type :=
| EvLock                   (* c.mtx.Lock() *)
| EvUnlock                 (* c.mtx.Unlock() *)
| EvStep (op : engine_op)  (* one engine step *)
| EvGetError               (* C.SSL_get_error *)
| EvPeekError              (* C.ERR_peek_error *)
| EvErrorQueue             (* errorFromErrorQueue() *)
| EvReadFromOnce           (* c.into_ssl.ReadFromOnce(c.conn): one transport read *)
| EvMarkEOF                (* c.into_ssl.MarkEOF() *)
| EvWriteTo                (* c.from_ssl.WriteTo(c.conn): drain to the transport *)
| EvConnClose              (* c.conn.Close() *)
| EvGoFlush.               (* go c.flushOutputBuffer() *)

Definition is_step (ev : event) : bool :=
  match ev with EvStep _ => true | _ => false end.

Definition is_shutdown_step (ev : event) : bool :=
  match ev with EvStep OpShutdown => true | _ => false end.

Definition is_conn_close (ev : event) : bool :=
  match ev with EvConnClose => true | _ => false end.

Definition is_read_from_once (ev : event) : bool :=
  match ev with EvReadFromOnce => true | _ => false end.

Definition count (p : event -> bool) (tr : list event) : nat :=
  length (List.filter p tr).

(** The calls [conn.go] makes on the engine, the BIOs and the transport.
    An engine step gives the C return value and the errno cgo captured;
    [errorFromErrorQueue] (file [init.go]) drains the engine's error queue
    into one error. *)
Record Externals (X : Type) : Type := {
  SSL_do_handshake : X -> (Z * error) * X;
  SSL_read : Z -> X -> (Z * error) * X;
  SSL_write : list Byte.byte -> Z -> X -> (Z * error) * X;
  SSL_shutdown : X -> (Z * error) * X;
  SSL_get_error : Z -> X -> Z;
  ERR_peek_error : X -> Z;
  errorFromErrorQueue : X -> error * X;
  ReadFromOnce : X -> (Z * error) * X;
  MarkEOF : X -> X;
  WriteTo : X -> (Z * error) * X;
  conn_Close : X -> error * X
}.

Arguments SSL_do_handshake {X}.
Arguments SSL_read {X}.
Arguments SSL_write {X}.
Arguments SSL_shutdown {X}.
Arguments SSL_get_error {X}.
Arguments ERR_peek_error {X}.
Arguments errorFromErrorQueue {X}.
Arguments ReadFromOnce {X}.
Arguments MarkEOF {X}.
Arguments WriteTo {X}.
Arguments conn_Close {X}.

(** ** The connection *)

(** [type Conn struct]: [ext] stands for [conn], [ssl], [into_ssl] and
    [from_ssl]; [mtx] is true while the mutex is held; [futures] is the heap
    [want_read_future] points into; [trace] is the history. *)
Record Conn (X : Type) : Type := mkConn {
  ext : X;
  is_shutdown : bool;
  mtx : bool;
  want_read_future : option nat;
  futures : Future.heap;
  trace : list event
}.

Arguments mkConn {X}.
Arguments ext {X}.
Arguments is_shutdown {X}.
Arguments mtx {X}.
Arguments want_read_future {X}.
Arguments futures {X}.
Arguments trace {X}.

(** The handlers [getErrorHandler] and its callers return ([func() error]),
    one constructor per closure of the source. *)
Inductive errcb : Type :=
| cb_zero_return          (* c.Close(); return io.ErrUnexpectedEOF *)
| cb_wait (f : nat)       (* _, err := want_read_future.Get(); return err *)
| cb_fill (f : nat)       (* fill the input buffer, then resolve the future *)
| cb_flush                (* flush the output buffer, then tryAgain *)
| cb_const (e : error).   (* return err *)

(** ** The execution monad *)

Inductive res (X A : Type) : Type :=
| Ret (a : A) (c : Conn X)     (* returned [a] *)
| Blocked (c : Conn X)         (* waits for another caller: mutex or future *)
| OutOfFuel (c : Conn X).      (* still running when the fuel ran out *)

Arguments Ret {X A}.
Arguments Blocked {X A}.
Arguments OutOfFuel {X A}.

Definition state_of {X A} (r : res X A) : Conn X :=
  match r with Ret _ c | Blocked c | OutOfFuel c => c end.

Definition M (X A : Type) : Type := Conn X -> res X A.

Definition ret {X A} (a : A) : M X A := fun c => Ret a c.

Definition bind {X A B} (m : M X A) (k : A -> M X B) : M X B :=
  fun c =>
    match m c with
    | Ret a c' => k a c'
    | Blocked c' => Blocked c'
    | OutOfFuel c' => OutOfFuel c'
    end.

Definition out_of_fuel {X A} : M X A := fun c => OutOfFuel c.

Notation "x <- m ;; k" := (bind m (fun x => k))
  (at level 100, m at next level, right associativity).
Notation "m ;; k" := (bind m (fun _ => k))
  (at level 100, right associativity).

Section Adapter.

Context {X : Type} (E : Externals X).

Definition log (ev : event) (c : Conn X) : Conn X :=
  mkConn (ext c) (is_shutdown c) (mtx c) (want_read_future c) (futures c)
         (trace c ++ [ev]).

Definition with_ext (x : X) (c : Conn X) : Conn X :=
  mkConn x (is_shutdown c) (mtx c) (want_read_future c) (futures c) (trace c).

Definition with_is_shutdown (b : bool) (c : Conn X) : Conn X :=
  mkConn (ext c) b (mtx c) (want_read_future c) (futures c) (trace c).

Definition with_mtx (b : bool) (c : Conn X) : Conn X :=
  mkConn (ext c) (is_shutdown c) b (want_read_future c) (futures c) (trace c).

Definition with_want_read_future (f : option nat) (c : Conn X) : Conn X :=
  mkConn (ext c) (is_shutdown c) (mtx c) f (futures c) (trace c).

Definition with_futures (h : Future.heap) (c : Conn X) : Conn X :=
  mkConn (ext c) (is_shutdown c) (mtx c) (want_read_future c) h (trace c).

(** A call that changes the outside. *)
Definition call {A} (ev : event) (f : X -> A * X) : M X A :=
  fun c => Ret (f (ext c)).1 (log ev (with_ext (f (ext c)).2 c)).

(** A call that only looks at it. *)
Definition query {A} (ev : event) (f : X -> A) : M X A :=
  fun c => Ret (f (ext c)) (log ev c).

Definition gets {A} (f : Conn X -> A) : M X A := fun c => Ret (f c) c.

Definition modify (f : Conn X -> Conn X) : M X unit := fun c => Ret tt (f c).

(** [c.mtx.Lock()]: a caller that finds the mutex held waits. *)
Definition Lock : M X unit :=
  fun c => if mtx c then Blocked c else Ret tt (log EvLock (with_mtx true c)).

Definition Unlock : M X unit :=
  fun c => Ret tt (log EvUnlock (with_mtx false c)).

(** [go c.flushOutputBuffer()]: the flush runs in a goroutine of its own;
    the caller goes on at once, the trace records the start. *)
Definition go_flushOutputBuffer : M X unit := modify (log EvGoFlush).

(** conn.go 161-164 *)
Definition flushOutputBuffer : M X error :=
  r <- call EvWriteTo (WriteTo E) ;;
  ret r.2.

(** conn.go 166-225; [rv] is never positive here. *)
Definition getErrorHandler (rv : Z) (errno : error) : M X errcb :=
  errcode <- query EvGetError (SSL_get_error E rv) ;;
  if errcode =? SSL_ERROR_ZERO_RETURN then
    ret cb_zero_return
  else if errcode =? SSL_ERROR_WANT_READ then
    go_flushOutputBuffer ;;
    cur <- gets want_read_future ;;
    match cur with
    | Some f => ret (cb_wait f)
    | None =>
        h <- gets futures ;;
        modify (with_futures (Future.NewFuture h).2) ;;
        modify (with_want_read_future (Some (Future.NewFuture h).1)) ;;
        ret (cb_fill (Future.NewFuture h).1)
    end
  else if errcode =? SSL_ERROR_WANT_WRITE then
    ret cb_flush
  else if errcode =? SSL_ERROR_SYSCALL then
    q <- query EvPeekError (ERR_peek_error E) ;;
    if q =? 0 then
      if rv =? 0 then
        ret (cb_const (Some (errors_New "protocol-violating EOF"%string)))
      else if rv =? -1 then
        ret (cb_const errno)
      else
        e <- call EvErrorQueue (errorFromErrorQueue E) ;;
        ret (cb_const e)
    else
      e <- call EvErrorQueue (errorFromErrorQueue E) ;;
      ret (cb_const e)
  else
    e <- call EvErrorQueue (errorFromErrorQueue E) ;;
    ret (cb_const e).

(** conn.go 317-340 *)
Definition shutdown : M X (option errcb) :=
  Lock ;;
  r <- call (EvStep OpShutdown) (SSL_shutdown E) ;;
  if r.1 >? 0 then
    Unlock ;; ret None
  else if r.1 =? 0 then
    Unlock ;; ret None
  else
    cb <- getErrorHandler r.1 r.2 ;;
    Unlock ;; ret (Some cb).

(** The deferred function of the filling handler (conn.go 186-191). *)
Definition resolve (f : nat) (e : error) : M X unit :=
  Lock ;;
  modify (with_want_read_future None) ;;
  Unlock ;;
  h <- gets futures ;;
  modify (with_futures (Future.Set_ h f e)).

(** [Close], [shutdownLoop], [handleError] applied to a handler, and
    [fillInputBuffer] call each other; each call and each loop iteration
    takes one unit of fuel. *)
Fixpoint Close (fuel : nat) : M X error :=
  match fuel with
  | O => out_of_fuel
  | S n =>
      (* conn.go 363-375 *)
      Lock ;;
      sd <- gets is_shutdown ;;
      if sd then
        Unlock ;; ret None
      else
        modify (with_is_shutdown true) ;;
        Unlock ;;
        e1 <- shutdownLoop n 0 ;;
        e2 <- call EvConnClose (conn_Close E) ;;
        ret (ErrorGroup.Finalize
               (ErrorGroup.Add (ErrorGroup.Add ErrorGroup.empty e1) e2))
  end

(** conn.go 342-359: the loop, entered with [err == tryAgain] and
    [shutdown_tries] attempts made so far. *)
with shutdownLoop (fuel : nat) (shutdown_tries : Z) : M X error :=
  match fuel with
  | O => out_of_fuel
  | S n =>
      let shutdown_tries := shutdown_tries + 1 in
      cb <- shutdown ;;
      e <- handleError n cb ;;
      if is_nil e then
        flushOutputBuffer
      else if is_tryAgain e && (shutdown_tries >=? 2) then
        ret (Some (errors_New "shutdown requested a third time?"%string))
      else if is_tryAgain e then
        shutdownLoop n shutdown_tries
      else if is_io_ErrUnexpectedEOF e then
        ret None
      else
        ret e
  end

(** conn.go 227-232, with the bodies of the handlers (conn.go 170-223). *)
with handleError (fuel : nat) (errcb : option errcb) : M X error :=
  match fuel with
  | O => out_of_fuel
  | S n =>
      match errcb with
      | None => ret None
      | Some cb_zero_return =>
          Close n ;;
          ret (Some io_ErrUnexpectedEOF)
      | Some (cb_wait f) =>
          fun c =>
            match Future.Get (futures c) f with
            | Some e => Ret e c
            | None => Blocked c
            end
      | Some (cb_fill f) =>
          e <- fillInputBuffer n ;;
          let e := if is_nil e then Some tryAgain else e in
          resolve f e ;;
          ret e
      | Some cb_flush =>
          e <- flushOutputBuffer ;;
          if is_nil e then ret (Some tryAgain) else ret e
      | Some (cb_const e) => ret e
      end
  end

(** conn.go 147-159 *)
with fillInputBuffer (fuel : nat) : M X error :=
  match fuel with
  | O => out_of_fuel
  | S n =>
      r <- call EvReadFromOnce (ReadFromOnce E) ;;
      if (r.1 =? 0) && is_nil r.2 then
        fillInputBuffer n
      else if is_io_EOF r.2 then
        modify (fun c => log EvMarkEOF (with_ext (MarkEOF E (ext c)) c)) ;;
        Close n
      else
        ret r.2
  end.

(** conn.go 234-247 *)
Definition handshake : M X (option errcb) :=
  Lock ;;
  sd <- gets is_shutdown ;;
  if sd then
    Unlock ;; ret (Some (cb_const (Some io_ErrUnexpectedEOF)))
  else
    r <- call (EvStep OpHandshake) (SSL_do_handshake E) ;;
    if r.1 >? 0 then
      Unlock ;; ret None
    else
      cb <- getErrorHandler r.1 r.2 ;;
      Unlock ;; ret (Some cb).

(** conn.go 251-258: the loop, entered with [err == tryAgain]. *)
Fixpoint Handshake (fuel : nat) : M X error :=
  match fuel with
  | O => out_of_fuel
  | S n =>
      cb <- handshake ;;
      e <- handleError n cb ;;
      if is_tryAgain e then
        Handshake n
      else
        go_flushOutputBuffer ;;
        ret e
  end.

(** conn.go 377-393.  The plaintext the engine puts into [b] is not
    tracked, only how many bytes it reports. *)
Definition read (b : list Byte.byte) : M X (Z * option errcb) :=
  if len b =? 0 then
    ret (0, None)
  else
    Lock ;;
    sd <- gets is_shutdown ;;
    if sd then
      Unlock ;; ret (0, Some (cb_const (Some io_EOF)))
    else
      r <- call (EvStep OpRead) (SSL_read E (C_int (len b))) ;;
      if r.1 >? 0 then
        Unlock ;; ret (r.1, None)
      else
        cb <- getErrorHandler r.1 r.2 ;;
        Unlock ;; ret (0, Some cb).

(** conn.go 402-414: the loop of [Read], entered with [err == tryAgain]. *)
Fixpoint Read_loop (fuel : nat) (b : list Byte.byte) : M X (Z * error) :=
  match fuel with
  | O => out_of_fuel
  | S n =>
      r <- read b ;;
      e <- handleError n r.2 ;;
      if is_nil e then
        go_flushOutputBuffer ;;
        ret (r.1, None)
      else
        let e := if is_io_ErrUnexpectedEOF e then Some io_EOF else e in
        if is_tryAgain e then Read_loop n b else ret (0, e)
  end.

(** conn.go 398-415 *)
Definition Read (fuel : nat) (b : list Byte.byte) : M X (Z * error) :=
  if len b =? 0 then ret (0, None) else Read_loop fuel b.

(** conn.go 417-434 *)
Definition write (b : list Byte.byte) : M X (Z * option errcb) :=
  if len b =? 0 then
    ret (0, None)
  else
    Lock ;;
    sd <- gets is_shutdown ;;
    if sd then
      Unlock ;; ret (0, Some (cb_const (Some (errors_New "connection closed"%string))))
    else
      r <- call (EvStep OpWrite) (SSL_write E b (C_int (len b))) ;;
      if r.1 >? 0 then
        Unlock ;; ret (r.1, None)
      else
        cb <- getErrorHandler r.1 r.2 ;;
        Unlock ;; ret (0, Some cb).

(** conn.go 443-451: the loop of [Write], entered with [err == tryAgain]. *)
Fixpoint Write_loop (fuel : nat) (b : list Byte.byte) : M X (Z * error) :=
  match fuel with
  | O => out_of_fuel
  | S n =>
      r <- write b ;;
      e <- handleError n r.2 ;;
      if is_nil e then
        e' <- flushOutputBuffer ;;
        ret (r.1, e')
      else if is_tryAgain e then
        Write_loop n b
      else
        ret (0, e)
  end.

(** conn.go 439-452 *)
Definition Write (fuel : nat) (b : list Byte.byte) : M X (Z * error) :=
  if len b =? 0 then ret (0, None) else Write_loop fuel b.

End Adapter.

(** ** A scripted outside, to run the adapter on concrete inputs *)

Module Scripted.

(** What the engine answers to one step: the C return value, the errno, and
    what [SSL_get_error] and [ERR_peek_error] say afterwards. *)
Record answer : Type := mkAnswer {
  a_rv : Z;
  a_errno : error;
  a_code : Z;
  a_peek : Z
}.

(** The outside is a list of answers per collaborator, consumed in call
    order.  A transport read past the end of its script reports
    end-of-stream; every other call past the end succeeds. *)
Record world : Type := mkWorld {
  steps : list answer;
  last : answer;
  queue : error;
  reads : list (Z * error);
  writes : list error;
  closes : list error;
  eof_marked : bool
}.

Definition ok : answer := mkAnswer 1 None 0 0.

Definition step (x : world) : (Z * error) * world :=
  match steps x with
  | [] => ((1, None), mkWorld [] ok (queue x) (reads x) (writes x) (closes x) (eof_marked x))
  | a :: rest =>
      ((a_rv a, a_errno a),
       mkWorld rest a (queue x) (reads x) (writes x) (closes x) (eof_marked x))
  end.

Definition read_once (x : world) : (Z * error) * world :=
  match reads x with
  | [] => ((0, Some io_EOF), x)
  | r :: rest =>
      (r, mkWorld (steps x) (last x) (queue x) rest (writes x) (closes x) (eof_marked x))
  end.

Definition write_to (x : world) : (Z * error) * world :=
  match writes x with
  | [] => ((0, None), x)
  | e :: rest =>
      ((0, e), mkWorld (steps x) (last x) (queue x) (reads x) rest (closes x) (eof_marked x))
  end.

Definition close (x : world) : error * world :=
  match closes x with
  | [] => (None, x)
  | e :: rest =>
      (e, mkWorld (steps x) (last x) (queue x) (reads x) (writes x) rest (eof_marked x))
  end.

Definition mark_eof (x : world) : world :=
  mkWorld (steps x) (last x) (queue x) (reads x) (writes x) (closes x) true.

Definition externals : Externals world := {|
  SSL_do_handshake := step;
  SSL_read := fun _ => step;
  SSL_write := fun _ _ => step;
  SSL_shutdown := step;
  SSL_get_error := fun _ x => a_code (last x);
  ERR_peek_error := fun x => a_peek (last x);
  errorFromErrorQueue := fun x => (queue x, x);
  ReadFromOnce := read_once;
  MarkEOF := mark_eof;
  WriteTo := write_to;
  conn_Close := close
|}.

(** A freshly wrapped connection ([newConn]) on a scripted outside. *)
Definition fresh (x : world) : Conn world := mkConn x false false None [] [].

(** The same connection after a [Close]. *)
Definition closed (x : world) : Conn world := mkConn x true false None [] [].

Definition ssl_errors : error := Some (errors_New "SSL errors"%string).

Definition quiet_world : world := mkWorld [] ok ssl_errors [] [] [] false.

Definition one_byte : list Byte.byte := [Byte.x00].

(** The engine's next step reports that the peer closed cleanly. *)
Definition clean_close_world : world :=
  mkWorld [mkAnswer (-1) None SSL_ERROR_ZERO_RETURN 0]
          ok ssl_errors [] [] [] false.

(** The engine's last step failed in the SSL_ERROR_SYSCALL way, with an
    empty error queue and errno ECONNRESET. *)
Definition econnreset : error := Some (Errno 104).

Definition syscall_world (rv : Z) : world :=
  mkWorld [] (mkAnswer rv econnreset SSL_ERROR_SYSCALL 0)
          ssl_errors [] [] [] false.

(** The engine asks for more input at its next two steps, and the transport
    has input. *)
Definition stalling_world : world :=
  mkWorld [mkAnswer (-1) None SSL_ERROR_WANT_READ 0;
           mkAnswer (-1) None SSL_ERROR_WANT_READ 0]
          ok ssl_errors [(5, None); (5, None)] [] [] false.

(** The engine's next step fails for good and the transport cannot be
    closed properly either. *)
Definition close_failed : err := errors_New "close failed"%string.

Definition failing_world : world :=
  mkWorld [mkAnswer (-1) None 1 1] ok ssl_errors [] []
          [Some close_failed] false.

End Scripted.

(** ** Vocabulary of the statements *)

Section Vocabulary.

Context {X : Type} (E : Externals X).

(** [c'] is a later state of a shut-down connection [c]: still shut down,
    the transport not closed in between, at most [k] shutdown steps made. *)
Definition grows (k : nat) (c c' : Conn X) : Prop :=
  is_shutdown c' = true /\
  exists evs, trace c' = trace c ++ evs /\
              count is_conn_close evs = 0%nat /\
              (count is_shutdown_step evs <= k)%nat.

(** Whatever [m] does to a shut-down connection, however far it gets. *)
Definition keeps {A} (k : nat) (m : M X A) : Prop :=
  forall c, is_shutdown c = true -> grows k c (state_of (m c)).

(** The transport answers something other than [(0, nil)] within [k]
    reads. *)
Fixpoint productive_within (k : nat) (x : X) : bool :=
  match k with
  | O => false
  | S k' =>
      negb (((ReadFromOnce E x).1.1 =? 0) && is_nil (ReadFromOnce E x).1.2)
      || productive_within k' (ReadFromOnce E x).2
  end.

(** The state [Close] reaches on a connection that is not shut down, when it
    enters [shutdownLoop] (conn.go 364-370). *)
Definition marked_shutdown (c : Conn X) : Conn X :=
  log EvUnlock (with_mtx false
    (with_is_shutdown true (log EvLock (with_mtx true c)))).

(** The state after a critical section that only looks at the flag. *)
Definition peeked (c : Conn X) : Conn X :=
  log EvUnlock (with_mtx false (log EvLock (with_mtx true c))).

(** The state a critical section leaves when its engine step [op] did not
    succeed and [getErrorHandler] chose a handler that needs no future:
    the outside is [x], the engine was asked for its error code. *)
Definition after_step (op : engine_op) (x : X) (c : Conn X) : Conn X :=
  log EvUnlock (with_mtx false
    (log EvGetError (log (EvStep op) (with_ext x (log EvLock (with_mtx true c)))))).

(** The state [fillInputBuffer] hands to [Close] when a transport read that
    left the outside in [x] reported io.EOF (conn.go 153-155). *)
Definition at_EOF (x : X) (c : Conn X) : Conn X :=
  log EvMarkEOF (with_ext (MarkEOF E x) (log EvReadFromOnce (with_ext x c))).

(** A shut-down connection nobody is working on: the mutex is free and no
    fill is pending. *)
Definition idle (c : Conn X) : Prop :=
  is_shutdown c = true /\ mtx c = false /\ want_read_future c = None.

(** [m] gives the mutex back: entered with the mutex free, it returns with
    the mutex free. *)
Definition releases {A} (m : M X A) : Prop :=
  forall c a c', mtx c = false -> m c = Ret a c' -> mtx c' = false.

(** [m] returns with the mutex free, however it was entered. *)
Definition ends_free {A} (m : M X A) : Prop :=
  forall c a c', m c = Ret a c' -> mtx c' = false.

(** [m] does not touch the mutex. *)
Definition leaves_mtx {A} (m : M X A) : Prop :=
  forall c a c', m c = Ret a c' -> mtx c' = mtx c.

(** [h'] is a later heap of [h]: nothing was taken away, and every future
    of [h] other than [owned] is as it was. *)
Definition heap_kept (owned : option nat) (h h' : Future.heap) : Prop :=
  (length h <= length h')%nat /\
  forall i, (i < length h)%nat -> Some i <> owned -> h' !! i = h !! i.

(** [m] leaves the pending-fill slot and the futures there were alone. *)
Definition frames {A} (m : M X A) : Prop :=
  forall c a c', m c = Ret a c' ->
    want_read_future c' = want_read_future c /\
    heap_kept None (futures c) (futures c').

(** What a critical section that ends with handler [cb] did about the
    single flight: nothing, and if [cb] waits it waits on the pending fill;
    or no fill was pending, and it made a new future, put it in the slot and
    [cb] is the fill for it. *)
Definition attaches (c : Conn X) (cb : option errcb) (c' : Conn X) : Prop :=
  (want_read_future c' = want_read_future c /\
   futures c' = futures c /\
   (forall f, cb <> Some (cb_fill f)) /\
   (forall f, cb = Some (cb_wait f) -> want_read_future c = Some f))
  \/
  (want_read_future c = None /\
   cb = Some (cb_fill (length (futures c))) /\
   want_read_future c' = Some (length (futures c)) /\
   futures c' = futures c ++ [None]).

(** What running handler [cb] to its end did about the single flight: the
    fill for [f] cleared the slot and touched no future but [f]; any other
    handler is a frame. *)
Definition handled (n : nat) (cb : option errcb) : Prop :=
  forall c e c', handleError E n cb c = Ret e c' ->
    match cb with
    | Some (cb_fill f) =>
        want_read_future c' = None /\
        heap_kept (Some f) (futures c) (futures c')
    | _ =>
        want_read_future c' = want_read_future c /\
        heap_kept None (futures c) (futures c')
    end.

(** The state after the deferred function of the fill handler has cleared
    the slot (conn.go 187-189). *)
Definition cleared (c : Conn X) : Conn X :=
  log EvUnlock (with_mtx false
    (with_want_read_future None (log EvLock (with_mtx true c)))).

End Vocabulary.

(** ** Several callers on one connection *)

(** Where a caller of the connection is.  Callers overtake each other only
    between the phases named here: a critical section is atomic because the
    mutex serialises them, and so is the clearing of the slot; the transport
    read of a fill, the delivery to the future and the run of any other
    handler are taken as one step each. *)
Inductive caller : Type :=
| Running                           (* about to enter a critical section *)
| Handling (cb : errcb)             (* left it with handler [cb], not yet run *)
| Resolving (f : nat) (e : error)   (* fill for [f] done, slot not yet cleared *)
| Delivering (f : nat) (e : error)  (* slot cleared, [f] not yet set *)
| Filled (f : nat) (e : error)      (* the fill handler for [f] returned [e] *)
| Woken (f : nat) (e : error)       (* the handler waiting on [f] returned [e] *)
| Returned (e : error).             (* another handler, or the operation, returned *)

(** The future a caller is filling (it will do, or has just done, the
    transport read and has not cleared the slot). *)
Definition filling (t : caller) : option nat :=
  match t with
  | Handling (cb_fill f) | Resolving f _ => Some f
  | _ => None
  end.

(** The future a caller has still to set. *)
Definition owning (t : caller) : option nat :=
  match t with
  | Handling (cb_fill f) | Resolving f _ | Delivering f _ => Some f
  | _ => None
  end.

(** The future a caller waits on. *)
Definition waiting (t : caller) : option nat :=
  match t with
  | Handling (cb_wait f) => Some f
  | _ => None
  end.

(** What a caller got out of a future, as its filler or as a waiter. *)
Definition got (t : caller) : option (nat * error) :=
  match t with
  | Filled f e | Woken f e => Some (f, e)
  | _ => None
  end.

Definition finished (t : caller) : bool :=
  match t with
  | Filled _ _ | Woken _ _ | Returned _ => true
  | _ => false
  end.

Section Pool.

Context {X : Type} (E : Externals X).

Definition pool : Type := Conn X * list caller.

(** The critical sections of the four operations. *)
Inductive critical (c : Conn X) : option errcb -> Conn X -> Prop :=
| critical_handshake cb c' :
    handshake E c = Ret cb c' -> critical c cb c'
| critical_read b n cb c' :
    read E b c = Ret (n, cb) c' -> critical c cb c'
| critical_write b n cb c' :
    write E b c = Ret (n, cb) c' -> critical c cb c'
| critical_shutdown cb c' :
    shutdown E c = Ret cb c' -> critical c cb c'.

Inductive pstep : pool -> pool -> Prop :=
| p_arrive c ts :
    pstep (c, ts) (c, ts ++ [Running])
| p_stall c ts i cb c' :
    ts !! i = Some Running ->
    mtx c = false ->
    critical c (Some cb) c' ->
    pstep (c, ts) (c', <[i := Handling cb]> ts)
| p_pass c ts i c' :
    ts !! i = Some Running ->
    mtx c = false ->
    critical c None c' ->
    pstep (c, ts) (c', <[i := Returned None]> ts)
| p_close c ts i n e c' :
    ts !! i = Some Running ->
    mtx c = false ->
    Close E n c = Ret e c' ->
    pstep (c, ts) (c', <[i := Returned e]> ts)
| p_fill c ts i f n e c' :
    ts !! i = Some (Handling (cb_fill f)) ->
    fillInputBuffer E n c = Ret e c' ->
    pstep (c, ts)
          (c', <[i := Resolving f (if is_nil e then Some tryAgain else e)]> ts)
| p_clear c ts i f e :
    ts !! i = Some (Resolving f e) ->
    mtx c = false ->
    pstep (c, ts) (cleared c, <[i := Delivering f e]> ts)
| p_deliver c ts i f e :
    ts !! i = Some (Delivering f e) ->
    pstep (c, ts)
          (with_futures (Future.Set_ (futures c) f e) c, <[i := Filled f e]> ts)
| p_wake c ts i f e :
    ts !! i = Some (Handling (cb_wait f)) ->
    Future.Get (futures c) f = Some e ->
    pstep (c, ts) (c, <[i := Woken f e]> ts)
| p_handle c ts i cb n e c' :
    ts !! i = Some (Handling cb) ->
    filling (Handling cb) = None ->
    waiting (Handling cb) = None ->
    handleError E n (Some cb) c = Ret e c' ->
    pstep (c, ts) (c', <[i := Returned e]> ts)
| p_again c ts i t :
    ts !! i = Some t ->
    finished t = true ->
    pstep (c, ts) (c, <[i := Running]> ts)
| p_flush c ts e c' :
    flushOutputBuffer E c = Ret e c' ->
    pstep (c, ts) (c', ts).

(** Any number of steps. *)
Inductive psteps (p : pool) : pool -> Prop :=
| psteps_refl : psteps p p
| psteps_step q r : psteps p q -> pstep q r -> psteps p r.

(** The single-flight invariant. *)
Record single_flight (p : pool) : Prop := {
  sf_mtx : mtx p.1 = false;
  sf_slot : forall f,
    want_read_future p.1 = Some f <->
    exists i t, p.2 !! i = Some t /\ filling t = Some f;
  sf_owner : forall i j ti tj f,
    p.2 !! i = Some ti -> p.2 !! j = Some tj ->
    owning ti = Some f -> owning tj = Some f -> i = j;
  sf_unset : forall i t f,
    p.2 !! i = Some t -> owning t = Some f -> futures p.1 !! f = Some None;
  sf_got : forall i t f e,
    p.2 !! i = Some t -> got t = Some (f, e) ->
    futures p.1 !! f = Some (Some e);
  sf_waiting : forall i t f,
    p.2 !! i = Some t -> waiting t = Some f ->
    (exists j tj, p.2 !! j = Some tj /\ owning tj = Some f) \/
    (exists e, futures p.1 !! f = Some (Some e))
}.

End Pool.

(** Two callers of [Read] on a scripted connection whose engine asks twice
    for more input: the states the connection goes through. *)
Module TwoCallers.

Import Scripted.

Definition start : Conn world := fresh stalling_world.

(** After the first caller stalled: it holds the fill for future 0. *)
Definition stalled_once : Conn world :=
  Eval vm_compute in state_of (read externals one_byte start).

(** After the second caller stalled: it waits on future 0. *)
Definition stalled_twice : Conn world :=
  Eval vm_compute in state_of (read externals one_byte stalled_once).

(** After the first caller's transport read. *)
Definition filled : Conn world :=
  Eval vm_compute in state_of (fillInputBuffer externals 3 stalled_twice).

(** After it cleared the slot, and after it set the future. *)
Definition slot_cleared : Conn world := Eval vm_compute in cleared filled.

Definition delivered : Conn world :=
  Eval vm_compute in
    with_futures (Future.Set_ (futures slot_cleared) 0 (Some tryAgain))
                 slot_cleared.

End TwoCallers.

(** ** The peer's certificates (conn.go 262-315 and 456-462) *)

(** What a Go call comes to when it can panic. *)
Inductive outcome (A : Type) : Type :=
| Returns (a : A)
| Panics.

Arguments Returns {A}.
Arguments Panics {A}.

Module Peer.

(** A certificate as [conn.go] builds it (the struct is in [cert.go]): the
    X509 it points to, whether it holds on to the connection ([ref: c]),
    and whether a finalizer that frees the X509 is registered on it. *)
Record Certificate (X509 : Type) : Type := mkCertificate {
  x : option X509;
  ref : bool;
  finalizer : bool
}.

Arguments mkCertificate {X509}.
Arguments x {X509}.
Arguments ref {X509}.
Arguments finalizer {X509}.

(** [type ConnectionState struct] (conn.go 304-309). *)
Record ConnectionState (X509 : Type) : Type := mkConnectionState {
  Certificate_ : option (Certificate X509);
  CertificateError : error;
  CertificateChain : option (list (Certificate X509));
  CertificateChainError : error
}.

Arguments mkConnectionState {X509}.
Arguments Certificate_ {X509}.
Arguments CertificateError {X509}.
Arguments CertificateChain {X509}.
Arguments CertificateChainError {X509}.

(** What the accessors look up: the engine's peer certificate and chain (a
    null pointer is [None]), the length and the entries of a chain, and
    the method [VerifyHostname] of a certificate (file [hostname.go]).  The look-ups read
    the engine and leave no event in the trace. *)
Record Lookups (X X509 STACK : Type) : Type := {
  SSL_get_peer_certificate : X -> option X509;
  SSL_get_peer_cert_chain : X -> option STACK;
  sk_X509_num : STACK -> Z;
  sk_X509_value : STACK -> Z -> option X509;
  Certificate_VerifyHostname : Certificate X509 -> string -> error
}.

Arguments SSL_get_peer_certificate {X X509 STACK}.
Arguments SSL_get_peer_cert_chain {X X509 STACK}.
Arguments sk_X509_num {X X509 STACK}.
Arguments sk_X509_value {X X509 STACK}.
Arguments Certificate_VerifyHostname {X X509 STACK}.

Section Accessors.

Context {X X509 STACK : Type} (L : Lookups X X509 STACK).

Definition connection_closed : error :=
  Some (errors_New "connection closed"%string).

(** conn.go 262-277; the deferred [Unlock] is written on every path. *)
Definition PeerCertificate : M X (option (Certificate X509) * error) :=
  Lock ;;
  sd <- gets is_shutdown ;;
  if sd then
    Unlock ;; ret (None, connection_closed)
  else
    p <- gets (fun c => SSL_get_peer_certificate L (ext c)) ;;
    match p with
    | None =>
        Unlock ;;
        ret (None, Some (errors_New "no peer certificate found"%string))
    | Some p =>
        Unlock ;; ret (Some (mkCertificate (Some p) false true), None)
    end.

(** conn.go 295-300: the loop, with [i] the counter and [rv] the slice so
    far; it runs at most [fuel] times. *)
Fixpoint chain_loop (fuel : nat) (sk : STACK) (sk_num i : Z)
    (rv : list (Certificate X509)) : list (Certificate X509) :=
  match fuel with
  | O => rv
  | S fuel' =>
      if i <? sk_num then
        chain_loop fuel' sk sk_num (i + 1)
          (rv ++ [mkCertificate (sk_X509_value L sk (C_int i)) true false])
      else rv
  end.

(** conn.go 283-302.  [make] with a negative capacity panics; the deferred
    [Unlock] runs all the same. *)
Definition PeerCertificateChain
  : M X (outcome (option (list (Certificate X509)) * error)) :=
  Lock ;;
  sd <- gets is_shutdown ;;
  if sd then
    Unlock ;; ret (Returns (None, connection_closed))
  else
    sk <- gets (fun c => SSL_get_peer_cert_chain L (ext c)) ;;
    match sk with
    | None =>
        Unlock ;;
        ret (Returns
               (None, Some (errors_New "no peer certificates found"%string)))
    | Some sk =>
        let sk_num := sk_X509_num L sk in
        if sk_num <? 0 then
          Unlock ;; ret Panics
        else
          let rv := chain_loop (Z.to_nat sk_num) sk sk_num 0 [] in
          Unlock ;; ret (Returns (Some rv, None))
    end.

(** conn.go 311-315 *)
Definition Conn_ConnectionState : M X (outcome (ConnectionState X509)) :=
  r1 <- PeerCertificate ;;
  r2 <- PeerCertificateChain ;;
  match r2 with
  | Returns r2 => ret (Returns (mkConnectionState r1.1 r1.2 r2.1 r2.2))
  | Panics => ret Panics
  end.

(** conn.go 456-462; calling the method on a nil certificate would
    panic. *)
Definition VerifyHostname (host : string) : M X (outcome error) :=
  r <- PeerCertificate ;;
  if is_nil r.2 then
    match r.1 with
    | Some cert => ret (Returns (Certificate_VerifyHostname L cert host))
    | None => ret Panics
    end
  else ret (Returns r.2).

End Accessors.

End Peer.

(** ** The SSL handle and the callbacks C calls back into
    (the second file of the package: conn.go 503-696) *)

Module Handle.

(** What a thunk comes to: it returns to C, or it ends the process with
    [os.Exit]. *)
Inductive thunk_result : Type :=
| ThunkReturns (v : Z)
| ThunkExits (code : Z).

Section Verify.

(** [Store] is [*C.X509_STORE_CTX], wrapped in a [CertificateStoreCtx] for
    the callback; a callback may panic. *)
Context {X Store : Type}.

Definition VerifyCallback : Type := bool -> Store -> outcome bool.

(** [type SSL struct] (conn.go 566-569). *)
Record SSL : Type := mkSSL {
  ssl : X;
  verify_cb : option VerifyCallback
}.

(** The deferred function of both thunks (conn.go 573-578 and 678-683): a
    panic is recovered, logged, and the process exits with code 1. *)
Definition recovered (r : outcome Z) : thunk_result :=
  match r with
  | Returns v => ThunkReturns v
  | Panics => ThunkExits 1
  end.

(** conn.go 572-590; [p] is the pointer C hands back, nil is [None]. *)
Definition verify_ssl_cb_thunk (p : option SSL) (ok : Z) (ctx : Store)
  : thunk_result :=
  recovered
    match p with
    | None => Panics
    | Some s =>
        match verify_cb s with
        | Some cb =>
            match cb (ok =? 1) ctx with
            | Returns true => Returns 1
            | Returns false => Returns 0
            | Panics => Panics
            end
        | None => Returns ok
        end
    end.

(** The two engine calls the verify settings use: [SSL_set_verify] with
    the mode and whether the C callback [verify_ssl_cb] is passed (or a null
    pointer), and [SSL_get_verify_mode]. *)
Record VerifyCalls : Type := {
  SSL_set_verify : Z -> bool -> X -> X;
  SSL_get_verify_mode : X -> Z
}.

Context (V : VerifyCalls).

(** conn.go 618-625 *)
Definition SetVerify (options : Z) (cb : option VerifyCallback) (s : SSL)
  : SSL :=
  match cb with
  | Some _ => mkSSL (SSL_set_verify V (C_int options) true (ssl s)) cb
  | None => mkSSL (SSL_set_verify V (C_int options) false (ssl s)) cb
  end.

(** conn.go 647-649 *)
Definition VerifyMode (s : SSL) : Z := SSL_get_verify_mode V (ssl s).

(** conn.go 629-631 *)
Definition SetVerifyMode (options : Z) (s : SSL) : SSL :=
  SetVerify options (verify_cb s) s.

(** conn.go 635-637: the parameter [verify_cb] is not used, the field
    [s.verify_cb] is passed on. *)
Definition SetVerifyCallback (cb : option VerifyCallback) (s : SSL) : SSL :=
  SetVerify (VerifyMode s) (verify_cb s) s.

(** conn.go 641-643 *)
Definition GetVerifyCallback (s : SSL) : option VerifyCallback := verify_cb s.

(** [type Ctx struct] (file [ctx.go]), as far as [sni_cb_thunk] reads it:
    the callback may be nil, and may panic. *)
Record Ctx : Type := mkCtx {
  sni_cb : option (SSL -> outcome Z)
}.

(** conn.go 677-696: the thunk wraps the engine's handle [con] in a new
    [SSL], stores the wrapper in the handle's ex data ([set_ex_data], under
    the index [get_ssl_idx()]) and returns the callback's answer as a C
    int.  The second component is the handle afterwards. *)
Definition sni_cb_thunk (set_ex_data : SSL -> X -> X) (p : option Ctx)
    (con : X) : thunk_result * X :=
  match p with
  | None => (ThunkExits 1, con)
  | Some ctx =>
      let s := mkSSL con None in
      let con' := set_ex_data s con in
      (recovered
         match sni_cb ctx with
         | None => Panics
         | Some cb =>
             match cb s with
             | Returns v => Returns (C_int v)
             | Panics => Panics
             end
         end,
       con')
  end.

End Verify.

Arguments SSL : clear implicits.
Arguments VerifyCallback : clear implicits.
Arguments VerifyCalls : clear implicits.
Arguments Ctx : clear implicits.

End Handle.

(** ** Making a connection (conn.go 63-145) *)

Module Make.

Section Constructors.

(** [S] is [*C.SSL], [B] is [*C.BIO]; a null pointer is [None]. *)
Context {S B : Type}.

(** What the collaborators answer while a connection is made: [SSL_new],
    [errorFromErrorQueue] (file [init.go]), [ctx.GetMode()] (file
    [ctx.go]), and [MakeCBIO] of the read and of the write BIO (file
    [bio.go]).  Each is called at most once. *)
Record answers : Type := mkAnswers {
  SSL_new : option S;
  errorFromErrorQueue : error;
  GetMode : Z;
  into_ssl_MakeCBIO : option B;
  from_ssl_MakeCBIO : option B
}.

(** The calls made, in order. *)
Inductive call : Type :=
| CallSSL_new
| CallErrorFromErrorQueue
| CallGetMode
| CallMakeCBIO_into (release_buffers : bool)
| CallMakeCBIO_from (release_buffers : bool)
| CallBIO_free (b : option B)
| CallSSL_free (s : option S)
| CallSSL_set_bio (s : option S) (into_ssl from_ssl : option B)
| CallSetFinalizer
| CallSSL_set_connect_state (s : option S)
| CallSSL_set_accept_state (s : option S).

(** The fields of a new [Conn] that [newConn] chooses; [is_shutdown] and
    [want_read_future] have their zero values. *)
Record made : Type := mkMade {
  made_ssl : option S;
  into_ssl_release_buffers : bool;
  from_ssl_release_buffers : bool;
  made_is_shutdown : bool;
  made_want_read_future : option nat
}.

(** [ReleaseBuffers] (file [ctx.go]) is [C.SSL_MODE_RELEASE_BUFFERS]. *)
Context (ReleaseBuffers : Z).

(** conn.go 63-71 *)
Definition newSSL (a : answers) : (option S * error) * list call :=
  match SSL_new a with
  | None => ((None, errorFromErrorQueue a),
             [CallSSL_new; CallErrorFromErrorQueue])
  | Some s => ((Some s, None), [CallSSL_new])
  end.

(** conn.go 73-112 *)
Definition newConn (a : answers) : (option made * error) * list call :=
  let '((ssl, err), evs) := newSSL a in
  if negb (is_nil err) then ((None, err), evs)
  else
    let release := Z.land (GetMode a) ReleaseBuffers >? 0 in
    let into_ssl_cbio := into_ssl_MakeCBIO a in
    let from_ssl_cbio := from_ssl_MakeCBIO a in
    let evs := evs ++ [CallGetMode; CallMakeCBIO_into release;
                       CallMakeCBIO_from release] in
    match into_ssl_cbio, from_ssl_cbio with
    | Some _, Some _ =>
        ((Some (mkMade ssl release release false None), None),
         evs ++ [CallSSL_set_bio ssl into_ssl_cbio from_ssl_cbio;
                 CallSetFinalizer])
    | _, _ =>
        ((None, Some (errors_New "failed to allocate memory BIO"%string)),
         evs ++ [CallBIO_free into_ssl_cbio; CallBIO_free from_ssl_cbio;
                 CallSSL_free ssl])
    end.

(** conn.go 127-134 *)
Definition Client (a : answers) : (option made * error) * list call :=
  let '((c, err), evs) := newConn a in
  if negb (is_nil err) then ((None, err), evs)
  else ((c, None),
        evs ++ [CallSSL_set_connect_state
                  (match c with Some m => made_ssl m | None => None end)]).

(** conn.go 138-145 *)
Definition Server (a : answers) : (option made * error) * list call :=
  let '((c, err), evs) := newConn a in
  if negb (is_nil err) then ((None, err), evs)
  else ((c, None),
        evs ++ [CallSSL_set_accept_state
                  (match c with Some m => made_ssl m | None => None end)]).

End Constructors.

Arguments answers : clear implicits.
Arguments call : clear implicits.
Arguments made : clear implicits.

End Make.

(** ** More scripted outsides *)

Module Scenes.

Import Scripted.

Definition broken_pipe : error := Some (Errno 32).

(** The engine's next step needs the output buffer flushed; the drain
    works, or fails. *)
Definition want_write_world : world :=
  mkWorld [mkAnswer (-1) None SSL_ERROR_WANT_WRITE 0]
          ok ssl_errors [] [] [] false.

Definition want_write_failing_world : world :=
  mkWorld [mkAnswer (-1) None SSL_ERROR_WANT_WRITE 0]
          ok ssl_errors [] [broken_pipe] [] false.

(** The engine's next step fails in the SSL_ERROR_SYSCALL way with return
    value -1, an empty error queue and no errno. *)
Definition silent_world : world :=
  mkWorld [mkAnswer (-1) None SSL_ERROR_SYSCALL 0]
          ok ssl_errors [] [] [] false.

(** The transport answers twice with nothing, then with seven bytes. *)
Definition sparse_world : world :=
  mkWorld [] ok ssl_errors [(0, None); (0, None); (7, None)] [] [] false.

(** The engine's next step asks for input and the transport read fails. *)
Definition stall_failing_world : world :=
  mkWorld [mkAnswer (-1) None SSL_ERROR_WANT_READ 0]
          ok ssl_errors [(0, econnreset)] [] [] false.

(** The engine's next step asks for input and the transport is at its end;
    the transport can then be closed, or not. *)
Definition ended_world : world :=
  mkWorld [mkAnswer (-1) None SSL_ERROR_WANT_READ 0]
          ok ssl_errors [] [] [] false.

Definition ended_failing_world : world :=
  mkWorld [mkAnswer (-1) None SSL_ERROR_WANT_READ 0]
          ok ssl_errors [] [] [Some close_failed] false.

(** The same, and the shutdown step asks for input as well. *)
Definition self_wait_world : world :=
  mkWorld [mkAnswer (-1) None SSL_ERROR_WANT_READ 0;
           mkAnswer (-1) None SSL_ERROR_WANT_READ 0]
          ok ssl_errors [] [] [] false.

(** The shutdown step returns 0: the close notification is sent, the
    peer's has not come. *)
Definition half_closed_world : world :=
  mkWorld [mkAnswer 0 None 0 0] ok ssl_errors [] [] [] false.

(** An engine that holds a peer certificate and a chain of three; X509
    objects are numbers, a stack is a list of them. *)
Definition hostname_mismatch : error :=
  Some (errors_New "hostname mismatch"%string).

Definition lookups : Peer.Lookups world nat (list nat) := {|
  Peer.SSL_get_peer_certificate := fun _ => Some 7%nat;
  Peer.SSL_get_peer_cert_chain := fun _ => Some [7; 8; 9]%nat;
  Peer.sk_X509_num := fun sk => Z.of_nat (length sk);
  Peer.sk_X509_value := fun sk i => sk !! Z.to_nat i;
  Peer.Certificate_VerifyHostname := fun cert host =>
    if String.eqb host "example.org"%string then None else hostname_mismatch
|}.

(** A handle whose verify callback accepts what the engine refused and
    refuses what it accepted. *)
Definition contrary : Handle.SSL world unit :=
  Handle.mkSSL quiet_world (Some (fun ok _ => Returns (negb ok))).

(** Making a connection when the write BIO cannot be made, and when
    everything can and the mode is RELEASE_BUFFERS and AUTO_RETRY. *)
Definition no_write_bio : Make.answers nat nat :=
  Make.mkAnswers (Some 1%nat) ssl_errors 0 (Some 2%nat) None.

Definition all_made : Make.answers nat nat :=
  Make.mkAnswers (Some 1%nat) ssl_errors 20 (Some 2%nat) (Some 3%nat).

End Scenes.

(** ** Vocabulary of further properties *)

(** The calls on the engine and its error queue, and the calls on the
    transport and the BIOs. *)
Definition is_engine_call (ev : event) : bool :=
  match ev with
  | EvStep _ | EvGetError | EvPeekError | EvErrorQueue => true
  | _ => false
  end.

Definition is_transport_call (ev : event) : bool :=
  match ev with
  | EvReadFromOnce | EvMarkEOF | EvWriteTo | EvConnClose => true
  | _ => false
  end.

(** Reads a piece of trace against the mutex, [held] saying whether it is
    held where the piece starts: the mutex is taken only when free and
    given back only when held, the engine is called only while it is held,
    the transport and the BIOs only while it is free.  The result is the
    state of the mutex at the end, or [None] if the piece breaks a rule. *)
Fixpoint well_locked (held : bool) (evs : list event) : option bool :=
  match evs with
  | [] => Some held
  | EvLock :: rest => if held then None else well_locked true rest
  | EvUnlock :: rest => if held then well_locked false rest else None
  | ev :: rest =>
      if is_engine_call ev && negb held then None
      else if is_transport_call ev && held then None
      else well_locked held rest
  end.

(** The calls a user makes on a connection. *)
Inductive api : Type :=
| CallHandshake
| CallRead (b : list Byte.byte)
| CallWrite (b : list Byte.byte)
| CallClose.

Section Lifecycle.

Context {X : Type} (E : Externals X).

(** The state call [a] leaves, followed for [n] units of fuel. *)
Definition perform (n : nat) (a : api) (c : Conn X) : Conn X :=
  match a with
  | CallHandshake => state_of (Handshake E n c)
  | CallRead b => state_of (Read E n b c)
  | CallWrite b => state_of (Write E n b c)
  | CallClose => state_of (Close E n c)
  end.

(** Calls made one after the other, each followed as far as its fuel
    goes. *)
Definition history (calls : list (nat * api)) (c : Conn X) : Conn X :=
  fold_left (fun c na => perform na.1 na.2 c) calls c.

(** Whenever [m] returns, its result and the state it leaves satisfy
    [P]. *)
Definition yields {A} (P : A -> Conn X -> Prop) (m : M X A) : Prop :=
  forall c a c', m c = Ret a c' -> P a c'.

(** [m], entered with the mutex in state [pre], keeps the rules of
    [well_locked] however far it gets, and has the mutex in state [post]
    when it returns. *)
Definition disciplined {A} (pre post : bool) (m : M X A) : Prop :=
  forall c, mtx c = pre ->
    (exists evs, trace (state_of (m c)) = trace c ++ evs /\
                 well_locked pre evs = Some (mtx (state_of (m c)))) /\
    (forall a c', m c = Ret a c' -> mtx c' = post).

(** [c'] is a later state in the life of connection [c]: the flag is not
    taken back; in between the transport was closed at most once and at most
    two shutdown steps were made, none of either if [c] was shut down
    already or [c'] is not shut down yet. *)
Definition tame (c c' : Conn X) : Prop :=
  (is_shutdown c = true -> is_shutdown c' = true) /\
  exists evs, trace c' = trace c ++ evs /\
    (count is_conn_close evs <= 1)%nat /\
    (count is_shutdown_step evs <= 2)%nat /\
    (is_shutdown c = true \/ is_shutdown c' = false ->
     count is_conn_close evs = 0%nat /\ count is_shutdown_step evs = 0%nat).

(** Whatever [m] does, however far it gets. *)
Definition tames {A} (m : M X A) : Prop :=
  forall c, tame c (state_of (m c)).

(** The state inside a critical section, after its engine step [op] left
    the outside in [x]. *)
Definition stepped (op : engine_op) (x : X) (c : Conn X) : Conn X :=
  log (EvStep op) (with_ext x (log EvLock (with_mtx true c))).

(** The state a critical section leaves when its step asked for input and
    no fill was pending: a new future is in the slot. *)
Definition stalled (op : engine_op) (x : X) (c : Conn X) : Conn X :=
  log EvUnlock (with_mtx false
    (with_want_read_future (Some (length (futures c)))
       (with_futures (futures c ++ [None])
          (log EvGoFlush (log EvGetError (stepped op x c)))))).

(** The state a critical section leaves when its engine step [op]
    succeeded (a positive return value). *)
Definition after_success (op : engine_op) (x : X) (c : Conn X) : Conn X :=
  log EvUnlock (with_mtx false
    (log (EvStep op) (with_ext x (log EvLock (with_mtx true c))))).

(** The state it leaves when the step failed in the SSL_ERROR_SYSCALL way
    and the error queue, looked at, was empty. *)
Definition after_syscall (op : engine_op) (x : X) (c : Conn X) : Conn X :=
  log EvUnlock (with_mtx false
    (log EvPeekError (log EvGetError
       (log (EvStep op) (with_ext x (log EvLock (with_mtx true c))))))).

(** The state it leaves when the error was taken from the error queue,
    which left the outside in [x']. *)
Definition after_fault (op : engine_op) (x x' : X) (c : Conn X) : Conn X :=
  log EvUnlock (with_mtx false
    (log EvErrorQueue (with_ext x' (log EvGetError
       (log (EvStep op) (with_ext x (log EvLock (with_mtx true c)))))))).

(** The state after a drain of the output buffer that left the outside in
    [x]. *)
Definition drained (x : X) (c : Conn X) : Conn X :=
  log EvWriteTo (with_ext x c).

(** The state after the deferred function of the fill handler for [f] has
    cleared the slot and set the future to [e] (conn.go 186-191). *)
Definition resolved (f : nat) (e : error) (c : Conn X) : Conn X :=
  with_futures (Future.Set_ (futures (cleared c)) f e) (cleared c).

(** The outside after [j] transport reads, and whether each of them was
    empty: no bytes and no error. *)
Fixpoint after_reads (j : nat) (x : X) : X :=
  match j with
  | O => x
  | S j' => after_reads j' (ReadFromOnce E x).2
  end.

Fixpoint empty_reads (j : nat) (x : X) : bool :=
  match j with
  | O => true
  | S j' =>
      ((ReadFromOnce E x).1.1 =? 0) && is_nil (ReadFromOnce E x).1.2
      && empty_reads j' (ReadFromOnce E x).2
  end.

End Lifecycle.

(** ** Two connections whose shutdown loop does not return *)

Module Stuck.

Import Scripted Scenes.

(** The scripted outside with a transport that never has anything: every
    read gives no bytes and no error, for ever. *)
Definition idle : Externals world := {|
  SSL_do_handshake := step;
  SSL_read := fun _ => step;
  SSL_write := fun _ _ => step;
  SSL_shutdown := step;
  SSL_get_error := fun _ x => a_code (last x);
  ERR_peek_error := fun x => a_peek (last x);
  errorFromErrorQueue := fun x => (queue x, x);
  ReadFromOnce := fun x => ((0, None), x);
  MarkEOF := mark_eof;
  WriteTo := write_to;
  conn_Close := close
|}.

(** The connection [fillInputBuffer] hands to [Close] (conn.go 153-156)
    when a [Read] stalled with no fill pending and the transport read of its
    fill reported io.EOF: not shut down, the mutex free, the caller's own
    future in the slot and not set; the engine will ask for input at its
    next step. *)
Definition own_fill_pending : Conn world :=
  Eval vm_compute in
    at_EOF externals (step self_wait_world).2
      (stalled OpRead (step self_wait_world).2 (fresh self_wait_world)).

End Stuck.

(** ** Facts *)

Ltac unfold_monad :=
  unfold bind, ret, gets, modify, call, query, Lock, Unlock,
    go_flushOutputBuffer, out_of_fuel in *.

(** Unfolds the code of a critical section, and nothing else. *)
Ltac run_section :=
  cbv beta iota zeta delta
    [handshake read write shutdown getErrorHandler flushOutputBuffer resolve
     log with_ext with_mtx with_is_shutdown with_want_read_future
     with_futures after_step peeked marked_shutdown
     bind ret gets modify call query Lock Unlock go_flushOutputBuffer
     ext is_shutdown mtx want_read_future futures trace fst snd].

(** Runs the adapter's code on a connection given by its fields. *)
Ltac exec :=
  repeat (progress
    (unfold handshake, read, write, shutdown, getErrorHandler,
       flushOutputBuffer, resolve, Read, Write, peeked, marked_shutdown,
       after_step, log, with_ext, with_mtx, with_is_shutdown,
       with_want_read_future, with_futures;
     unfold_monad; simpl)).

Section Facts.

Context {X : Type} (E : Externals X).

Implicit Types c : Conn X.

Lemma count_app p (l1 l2 : list event) :
  count p (l1 ++ l2) = (count p l1 + count p l2)%nat.
Proof. unfold count. now rewrite List.filter_app, length_app. Qed.

Lemma grows_refl k c : is_shutdown c = true -> grows k c c.
Proof.
  intros H. split; [exact H|]. exists []. rewrite app_nil_r.
  repeat split; unfold count; simpl; lia.
Qed.

Lemma grows_trans j k c1 c2 c3 :
  grows j c1 c2 -> grows k c2 c3 -> grows (j + k) c1 c3.
Proof.
  intros [_ (e1 & T1 & C1 & S1)] [F (e2 & T2 & C2 & S2)].
  split; [exact F|]. exists (e1 ++ e2).
  rewrite T2, T1, <- app_assoc, !count_app. repeat split; lia.
Qed.

Lemma grows_weaken j k c c' : (j <= k)%nat -> grows j c c' -> grows k c c'.
Proof.
  intros Hjk [F (e & T & C & S)]. split; [exact F|].
  exists e. repeat split; try assumption. lia.
Qed.

Lemma keeps_weaken {A} j k (m : M X A) :
  (j <= k)%nat -> keeps j m -> keeps k m.
Proof. intros Hjk H c Hc. eapply grows_weaken; eauto. Qed.

Lemma keeps_ret {A} (a : A) : keeps (X:=X) 0 (ret a).
Proof. intros c Hc. now apply grows_refl. Qed.

Lemma keeps_out_of_fuel {A} : keeps (X:=X) (A:=A) 0 out_of_fuel.
Proof. intros c Hc. now apply grows_refl. Qed.

Lemma keeps_bind {A B} j k (m : M X A) (f : A -> M X B) :
  keeps j m -> (forall a, keeps k (f a)) -> keeps (j + k) (bind m f).
Proof.
  intros Hm Hf c Hc. specialize (Hm c Hc). unfold bind.
  destruct (m c) as [a c1|c1|c1]; simpl in *.
  - eapply grows_trans; [exact Hm|]. apply Hf. apply Hm.
  - eapply grows_weaken; [|exact Hm]. lia.
  - eapply grows_weaken; [|exact Hm]. lia.
Qed.

Lemma keeps_bind0 {A B} k (m : M X A) (f : A -> M X B) :
  keeps 0 m -> (forall a, keeps k (f a)) -> keeps k (bind m f).
Proof. intros. change k with (0 + k)%nat. now apply keeps_bind. Qed.

Lemma keeps_step {A B} (m : M X A) (f : A -> M X B) :
  keeps 1 m -> (forall a, keeps 0 (f a)) -> keeps 1 (bind m f).
Proof. intros. change 1%nat with (1 + 0)%nat. now apply keeps_bind. Qed.

(** A state change that touches neither the flag nor the trace. *)
Lemma keeps_modify (f : Conn X -> Conn X) :
  (forall c, is_shutdown (f c) = is_shutdown c) ->
  (forall c, trace (f c) = trace c) ->
  keeps 0 (modify f).
Proof.
  intros Hf Ht c Hc. split; simpl; [now rewrite Hf|].
  exists []. rewrite Ht, app_nil_r. repeat split; unfold count; simpl; lia.
Qed.

Lemma grows_log k ev c :
  is_shutdown c = true ->
  is_conn_close ev = false ->
  (count is_shutdown_step [ev] <= k)%nat ->
  forall c', is_shutdown c' = true -> trace c' = trace c ++ [ev] ->
  grows k c c'.
Proof.
  intros Hc Hev Hk c' F T. split; [exact F|]. exists [ev].
  repeat split; try assumption. unfold count; simpl. now rewrite Hev.
Qed.

Lemma keeps_call {A} k ev (f : X -> A * X) :
  is_conn_close ev = false ->
  (count is_shutdown_step [ev] <= k)%nat ->
  keeps k (call ev f).
Proof. intros Hev Hk c Hc. now apply (grows_log k ev c). Qed.

Lemma keeps_query {A} ev (f : X -> A) :
  is_conn_close ev = false -> is_shutdown_step ev = false ->
  keeps 0 (query ev f).
Proof.
  intros Hev Hs c Hc. apply (grows_log 0 ev c); auto.
  unfold count; simpl. now rewrite Hs.
Qed.

Lemma keeps_gets {A} (f : Conn X -> A) : keeps 0 (gets f).
Proof. intros c Hc. now apply grows_refl. Qed.

Lemma keeps_Lock : keeps (X:=X) 0 Lock.
Proof.
  intros c Hc. unfold Lock. destruct (mtx c); simpl.
  - now apply grows_refl.
  - now apply (grows_log 0 EvLock c).
Qed.

Lemma keeps_Unlock : keeps (X:=X) 0 Unlock.
Proof. intros c Hc. now apply (grows_log 0 EvUnlock c). Qed.

Lemma keeps_go_flush : keeps (X:=X) 0 go_flushOutputBuffer.
Proof. intros c Hc. now apply (grows_log 0 EvGoFlush c). Qed.

(** On a shut-down connection reading the flag gives [true]. *)
Lemma keeps_if_shutdown {A} k (f : bool -> M X A) :
  keeps k (f true) -> keeps k (bind (gets is_shutdown) f).
Proof. intros H c Hc. unfold bind, gets. rewrite Hc. now apply H. Qed.

Lemma keeps_flushOutputBuffer : keeps 0 (flushOutputBuffer E).
Proof.
  apply keeps_bind0; [now apply keeps_call|]. intros; apply keeps_ret.
Qed.

Lemma keeps_errorQueue {A} (f : error -> M X A) :
  (forall e, keeps 0 (f e)) ->
  keeps 0 (bind (call EvErrorQueue (errorFromErrorQueue E)) f).
Proof. intros H. apply keeps_bind0; [now apply keeps_call|exact H]. Qed.

Lemma keeps_getErrorHandler rv errno : keeps 0 (getErrorHandler E rv errno).
Proof.
  unfold getErrorHandler.
  apply keeps_bind0; [now apply keeps_query|]. intros code.
  destruct (code =? SSL_ERROR_ZERO_RETURN); [apply keeps_ret|].
  destruct (code =? SSL_ERROR_WANT_READ).
  { apply keeps_bind0; [apply keeps_go_flush|]. intros _.
    apply keeps_bind0; [apply keeps_gets|]. intros [f|]; [apply keeps_ret|].
    apply keeps_bind0; [apply keeps_gets|]. intros h.
    apply keeps_bind0; [now apply keeps_modify|]. intros _.
    apply keeps_bind0; [now apply keeps_modify|]. intros _.
    apply keeps_ret. }
  destruct (code =? SSL_ERROR_WANT_WRITE); [apply keeps_ret|].
  destruct (code =? SSL_ERROR_SYSCALL).
  { apply keeps_bind0; [now apply keeps_query|]. intros q.
    destruct (q =? 0).
    - destruct (rv =? 0); [apply keeps_ret|].
      destruct (rv =? -1); [apply keeps_ret|].
      apply keeps_errorQueue. intros; apply keeps_ret.
    - apply keeps_errorQueue. intros; apply keeps_ret. }
  apply keeps_errorQueue. intros; apply keeps_ret.
Qed.

(** One pass through [shutdown] is one shutdown step. *)
Lemma keeps_shutdown : keeps 1 (shutdown E).
Proof.
  unfold shutdown.
  apply keeps_bind0; [apply keeps_Lock|]. intros _.
  apply keeps_step; [now apply keeps_call|]. intros r.
  destruct (r.1 >? 0).
  { apply keeps_bind0; [apply keeps_Unlock|]. intros; apply keeps_ret. }
  destruct (r.1 =? 0).
  { apply keeps_bind0; [apply keeps_Unlock|]. intros; apply keeps_ret. }
  apply keeps_bind0; [apply keeps_getErrorHandler|]. intros cb.
  apply keeps_bind0; [apply keeps_Unlock|]. intros; apply keeps_ret.
Qed.

(** On a shut-down connection [Close] does nothing to the outside. *)
Lemma keeps_Close n : keeps 0 (Close E n).
Proof.
  destruct n; simpl; [apply keeps_out_of_fuel|].
  apply keeps_bind0; [apply keeps_Lock|]. intros _.
  apply keeps_if_shutdown.
  apply keeps_bind0; [apply keeps_Unlock|]. intros; apply keeps_ret.
Qed.

Lemma keeps_fillInputBuffer n : keeps 0 (fillInputBuffer E n).
Proof.
  induction n as [|n IH]; simpl; [apply keeps_out_of_fuel|].
  apply keeps_bind0; [now apply keeps_call|]. intros r.
  destruct ((r.1 =? 0) && is_nil r.2); [exact IH|].
  destruct (is_io_EOF r.2); [|apply keeps_ret].
  apply keeps_bind0; [|intros; apply keeps_Close].
  intros c Hc. now apply (grows_log 0 EvMarkEOF c).
Qed.

Lemma keeps_resolve f e : keeps (X:=X) 0 (resolve f e).
Proof.
  unfold resolve.
  apply keeps_bind0; [apply keeps_Lock|]. intros _.
  apply keeps_bind0; [now apply keeps_modify|]. intros _.
  apply keeps_bind0; [apply keeps_Unlock|]. intros _.
  apply keeps_bind0; [apply keeps_gets|]. intros h.
  now apply keeps_modify.
Qed.

(** No handler makes a shutdown step or closes the transport once the
    connection is shut down. *)
Lemma keeps_handleError n cb : keeps 0 (handleError E n cb).
Proof.
  destruct n; simpl; [apply keeps_out_of_fuel|].
  destruct cb as [[ |f|f| |e]|]; try apply keeps_ret.
  - apply keeps_bind0; [apply keeps_Close|]. intros; apply keeps_ret.
  - intros c Hc. destruct (Future.Get (futures c) f); now apply grows_refl.
  - apply keeps_bind0; [apply keeps_fillInputBuffer|]. intros e.
    apply keeps_bind0; [apply keeps_resolve|]. intros; apply keeps_ret.
  - apply keeps_bind0; [apply keeps_flushOutputBuffer|]. intros e.
    destruct (is_nil e); apply keeps_ret.
Qed.

(** The loop makes at most two passes, one if it is entered after a first
    attempt. *)
Lemma keeps_shutdownLoop n tries :
  0 <= tries ->
  keeps (if tries =? 0 then 2 else 1) (shutdownLoop E n tries).
Proof.
  revert tries. induction n as [|n IH]; intros tries Ht; simpl.
  { eapply keeps_weaken; [|apply keeps_out_of_fuel]. lia. }
  assert (Hrest : forall cb, keeps (if tries =? 0 then 1 else 0)
    (e <- handleError E n cb ;;
     if is_nil e then flushOutputBuffer E
     else if is_tryAgain e && (tries + 1 >=? 2)
          then ret (Some (errors_New "shutdown requested a third time?"))
          else if is_tryAgain e then shutdownLoop E n (tries + 1)
               else if is_io_ErrUnexpectedEOF e then ret None else ret e)).
  { intros cb. apply keeps_bind0; [apply keeps_handleError|]. intros e.
    destruct (is_nil e).
    { eapply keeps_weaken; [|apply keeps_flushOutputBuffer]. lia. }
    destruct (is_tryAgain e); simpl.
    - destruct (tries + 1 >=? 2) eqn:Hge.
      + eapply keeps_weaken; [|apply keeps_ret]. lia.
      + assert (tries = 0) by lia. subst tries. simpl.
        apply (IH 1). lia.
    - destruct (is_io_ErrUnexpectedEOF e);
        (eapply keeps_weaken; [|apply keeps_ret]); lia. }
  destruct (tries =? 0) eqn:H0.
  - change 2%nat with (1 + 1)%nat. apply keeps_bind; [apply keeps_shutdown|].
    exact Hrest.
  - apply keeps_step; [apply keeps_shutdown|]. exact Hrest.
Qed.

(** *** The mutex *)

Lemma leaves_releases {A} (m : M X A) : leaves_mtx m -> releases m.
Proof. intros H c a c' Hc Hr. rewrite (H _ _ _ Hr). exact Hc. Qed.

Lemma leaves_ret {A} (a : A) : leaves_mtx (X:=X) (ret a).
Proof. intros c a' c' H. now inversion H. Qed.

Lemma leaves_bind {A B} (m : M X A) (f : A -> M X B) :
  leaves_mtx m -> (forall a, leaves_mtx (f a)) -> leaves_mtx (bind m f).
Proof.
  intros Hm Hf c b c' H. unfold bind in H.
  destruct (m c) as [a c1|c1|c1] eqn:Hmc; try discriminate.
  rewrite (Hf _ _ _ _ H). exact (Hm _ _ _ Hmc).
Qed.

Lemma leaves_call {A} ev (f : X -> A * X) : leaves_mtx (call ev f).
Proof. intros c a c' H. now inversion H. Qed.

Lemma leaves_query {A} ev (f : X -> A) : leaves_mtx (query ev f).
Proof. intros c a c' H. now inversion H. Qed.

Lemma leaves_gets {A} (f : Conn X -> A) : leaves_mtx (gets f).
Proof. intros c a c' H. now inversion H. Qed.

Lemma leaves_modify (f : Conn X -> Conn X) :
  (forall c, mtx (f c) = mtx c) -> leaves_mtx (modify f).
Proof. intros Hf c a c' H. inversion H. apply Hf. Qed.

Lemma leaves_flushOutputBuffer : leaves_mtx (flushOutputBuffer E).
Proof.
  apply leaves_bind; [apply leaves_call|]. intros; apply leaves_ret.
Qed.

Lemma leaves_getErrorHandler rv errno :
  leaves_mtx (getErrorHandler E rv errno).
Proof.
  unfold getErrorHandler, go_flushOutputBuffer.
  repeat first
    [ apply leaves_ret | apply leaves_call | apply leaves_query
    | apply leaves_gets | now apply leaves_modify
    | apply leaves_bind; [|intros ?]
    | match goal with |- leaves_mtx (if ?b then _ else _) => destruct b end
    | match goal with |- leaves_mtx (match ?o with _ => _ end) => destruct o end ].
Qed.

Lemma releases_bind {A B} (m : M X A) (f : A -> M X B) :
  releases m -> (forall a, releases (f a)) -> releases (bind m f).
Proof.
  intros Hm Hf c b c' Hc H. unfold bind in H.
  destruct (m c) as [a c1|c1|c1] eqn:Hmc; try discriminate.
  eapply Hf; [|exact H]. eapply Hm; eauto.
Qed.

Lemma releases_ret {A} (a : A) : releases (X:=X) (ret a).
Proof. apply leaves_releases, leaves_ret. Qed.

Lemma releases_out_of_fuel {A} : releases (X:=X) (A:=A) out_of_fuel.
Proof. intros c a c' _ H. discriminate. Qed.

(** A critical section: whatever runs under the mutex without touching it,
    the section as a whole gives the mutex back. *)
Lemma releases_section {A B} (m : M X A) (f : A -> B) :
  leaves_mtx m ->
  releases (Lock ;; a <- m ;; Unlock ;; ret (f a)).
Proof.
  intros Hm c b c' Hc H. unfold_monad. rewrite Hc in H.
  destruct (m _) as [a c1|c1|c1]; try discriminate. now inversion H.
Qed.

Lemma ends_free_bind {A B} (m : M X A) (f : A -> M X B) :
  (forall a, ends_free (f a)) -> ends_free (bind m f).
Proof.
  intros Hf c b c' H. unfold bind in H.
  destruct (m c) as [a c1|c1|c1]; try discriminate. exact (Hf _ _ _ _ H).
Qed.

Lemma ends_free_Unlock {A} (a : A) : ends_free (X:=X) (Unlock ;; ret a).
Proof. intros c b c' H. now inversion H. Qed.

Lemma ends_free_releases {A} (m : M X A) : ends_free m -> releases m.
Proof. intros H c a c' _ Hr. exact (H _ _ _ Hr). Qed.

Ltac ends_free_tac :=
  repeat first
    [ apply ends_free_Unlock
    | match goal with |- ends_free (if ?b then _ else _) => destruct b end
    | apply ends_free_bind; intros ? ].

Lemma ends_free_shutdown : ends_free (shutdown E).
Proof. unfold shutdown. ends_free_tac. Qed.

Lemma ends_free_handshake : ends_free (handshake E).
Proof. unfold handshake. ends_free_tac. Qed.

Lemma releases_resolve f e : releases (X:=X) (resolve f e).
Proof.
  intros c b c' Hc H. unfold resolve in H. unfold_monad. rewrite Hc in H.
  now inversion H.
Qed.

(** Everything [Close] reaches gives the mutex back. *)
Lemma releases_all n :
  releases (Close E n) /\
  (forall tries, releases (shutdownLoop E n tries)) /\
  (forall cb, releases (handleError E n cb)) /\
  releases (fillInputBuffer E n).
Proof.
  induction n as [|n (IHc & IHl & IHh & IHf)].
  { repeat split; intros; apply releases_out_of_fuel. }
  repeat split.
  - intros c a c' Hc H. simpl in H. unfold_monad. rewrite Hc in H.
    simpl in H. destruct (is_shutdown c).
    + now inversion H.
    + destruct (shutdownLoop E n 0 _) as [e1 c1|c1|c1] eqn:Hl;
        try discriminate.
      inversion H; subst; simpl. eapply IHl; [|exact Hl]. reflexivity.
  - intros tries. simpl.
    apply releases_bind; [apply ends_free_releases, ends_free_shutdown|].
    intros cb.
    apply releases_bind; [apply IHh|]. intros e.
    destruct (is_nil e);
      [apply leaves_releases, leaves_flushOutputBuffer|].
    destruct (is_tryAgain e && _); [apply releases_ret|].
    destruct (is_tryAgain e); [apply IHl|].
    destruct (is_io_ErrUnexpectedEOF e); apply releases_ret.
  - intros [[ |f|f| |e]|]; simpl; try apply releases_ret.
    + apply releases_bind; [apply IHc|]. intros; apply releases_ret.
    + intros c a c' Hc H. destruct (Future.Get _ f); inversion H.
      now subst.
    + apply releases_bind; [apply IHf|]. intros e.
      apply releases_bind; [apply releases_resolve|].
      intros; apply releases_ret.
    + apply releases_bind;
        [apply leaves_releases, leaves_flushOutputBuffer|].
      intros e. destruct (is_nil e); apply releases_ret.
  - simpl. apply releases_bind; [apply leaves_releases, leaves_call|].
    intros r. destruct ((r.1 =? 0) && is_nil r.2); [apply IHf|].
    destruct (is_io_EOF r.2); [|apply releases_ret].
    apply releases_bind; [|intros; apply IHc].
    apply leaves_releases, leaves_modify. reflexivity.
Qed.

Lemma shutdownLoop_unfold n tries (c : Conn X) :
  shutdownLoop E (S n) tries c =
  (cb <- shutdown E ;;
   e <- handleError E n cb ;;
   if is_nil e then flushOutputBuffer E
   else if is_tryAgain e && (tries + 1 >=? 2)
        then ret (Some (errors_New "shutdown requested a third time?"))
        else if is_tryAgain e then shutdownLoop E n (tries + 1)
             else if is_io_ErrUnexpectedEOF e then ret None else ret e) c.
Proof. reflexivity. Qed.

Lemma fillInputBuffer_unfold n (c : Conn X) :
  fillInputBuffer E (S n) c =
  (r <- call EvReadFromOnce (ReadFromOnce E) ;;
   if (r.1 =? 0) && is_nil r.2 then fillInputBuffer E n
   else if is_io_EOF r.2 then
     modify (fun c => log EvMarkEOF (with_ext (MarkEOF E (ext c)) c)) ;;
     Close E n
   else ret r.2) c.
Proof. reflexivity. Qed.

Lemma handleError_fill n f (c : Conn X) :
  handleError E (S n) (Some (cb_fill f)) c =
  (e <- fillInputBuffer E n ;;
   resolve f (if is_nil e then Some tryAgain else e) ;;
   ret (if is_nil e then Some tryAgain else e)) c.
Proof. reflexivity. Qed.

Lemma handleError_zero_return n (c : Conn X) :
  handleError E (S n) (Some cb_zero_return) c
  = (Close E n ;; ret (Some io_ErrUnexpectedEOF)) c.
Proof. reflexivity. Qed.

Lemma gtb_nonpos (z : Z) : z <= 0 -> (z >? 0) = false.
Proof. intros H. rewrite Z.gtb_ltb. apply Z.ltb_ge. exact H. Qed.

Lemma len_nonempty (b : list Byte.byte) : b <> [] -> (len b =? 0) = false.
Proof.
  destruct b; [congruence|]. intros _. unfold len. simpl length.
  apply Z.eqb_neq. lia.
Qed.

End Facts.

(** ** The operations on a closed connection and on empty buffers *)

Section ClosedAndEmpty.

Context {X : Type} (E : Externals X).

Implicit Types c : Conn X.

Lemma peeked_trace c : trace (peeked c) = trace c ++ [EvLock; EvUnlock].
Proof. unfold peeked, log; simpl. now rewrite <- app_assoc. Qed.

(** [Close] on a connection that is already shut down. *)
Lemma Close_shut_down n c :
  is_shutdown c = true -> mtx c = false ->
  Close E (S n) c = Ret None (peeked c).
Proof.
  intros Hs Hm. destruct c as [x sd m slot h tr]. simpl in *. subst.
  exec. reflexivity.
Qed.

(** A [Close] that returns leaves the flag set. *)
Lemma Close_sets_flag n c e c' :
  Close E n c = Ret e c' -> is_shutdown c' = true.
Proof.
  destruct n; [discriminate|]. simpl. unfold_monad.
  destruct (mtx c); [discriminate|]. simpl.
  destruct (is_shutdown c) eqn:Hs.
  - intros H. inversion H. exact Hs.
  - destruct (shutdownLoop E n 0 _) as [e1 c1|c1|c1] eqn:Hl;
      try discriminate.
    intros H. inversion H; subst; simpl.
    pose proof (keeps_shutdownLoop E n 0 ltac:(lia) (marked_shutdown c)
                  eq_refl) as Hk.
    unfold marked_shutdown in *. rewrite Hl in Hk. apply Hk.
Qed.

(** C9: for every connection, [Read] and [Write] on a zero-length buffer
    return (0, nil) at once and leave the connection as it is: no engine
    step, no mutex operation, nothing in the trace. *)
Theorem zero_length_Read_Write n c :
  Read E n [] c = Ret (0, None) c /\ Write E n [] c = Ret (0, None) c.
Proof. split; reflexivity. Qed.

(** C7: once a call of [Close] has returned, the flag is set, and any further
    call returns nil having only taken and released the mutex: no shutdown
    step, no second close of the transport, and the connection is again in a
    state where the same holds. *)
Theorem Close_idempotent n m c e c' :
  mtx c = false ->
  Close E n c = Ret e c' ->
  is_shutdown c' = true /\
  Close E (S m) c' = Ret None (peeked c') /\
  ext (peeked c') = ext c' /\
  trace (peeked c') = trace c' ++ [EvLock; EvUnlock] /\
  is_shutdown (peeked c') = true /\
  mtx (peeked c') = false.
Proof.
  intros Hm H.
  assert (Hs : is_shutdown c' = true) by (eapply Close_sets_flag; eauto).
  assert (Hm' : mtx c' = false).
  { destruct (releases_all E n) as [Hr _]. eapply Hr; eauto. }
  split; [exact Hs|]. split; [now apply Close_shut_down|].
  split; [reflexivity|]. split; [apply peeked_trace|].
  split; [exact Hs|reflexivity].
Qed.

(** C5, as amended: on a connection whose flag is set (and whose mutex is
    free), [Handshake] returns io.ErrUnexpectedEOF, and [Read] and [Write]
    on a non-empty buffer return (0, io.EOF) and (0, "connection closed");
    each only takes and releases the mutex ([Handshake] also starts the
    background flush), so no engine step is made. *)
Theorem closed_connection_fails_at_once n b c :
  is_shutdown c = true ->
  mtx c = false ->
  b <> [] ->
  Handshake E (S (S n)) c
    = Ret (Some io_ErrUnexpectedEOF) (log EvGoFlush (peeked c)) /\
  Read E (S (S n)) b c = Ret (0, Some io_EOF) (peeked c) /\
  Write E (S (S n)) b c
    = Ret (0, Some (errors_New "connection closed")) (peeked c) /\
  trace (log EvGoFlush (peeked c)) = trace c ++ [EvLock; EvUnlock; EvGoFlush] /\
  trace (peeked c) = trace c ++ [EvLock; EvUnlock] /\
  ext (peeked c) = ext c.
Proof.
  intros Hs Hm Hb. destruct c as [x sd mt slot h tr]. simpl in *. subst.
  split; [|split; [|split; [|split; [|split]]]].
  - exec. reflexivity.
  - exec. rewrite (len_nonempty b Hb). exec. reflexivity.
  - exec. rewrite (len_nonempty b Hb). exec. reflexivity.
  - exec. now rewrite <- !app_assoc.
  - exec. now rewrite <- !app_assoc.
  - reflexivity.
Qed.

(** C6: when the engine accepts a non-empty buffer ([SSL_write] returns
    [rv > 0]), [Write] unlocks, drains the outbound queue to the transport
    with [flushOutputBuffer] and only then returns: the count is [rv], the
    error is the one of the drain, and the drain is the last event.  The
    connection is any connection, so this is any round of the loop. *)
Theorem Write_flushes_before_returning n b c rv errno x1 k e x2 :
  b <> [] ->
  is_shutdown c = false ->
  mtx c = false ->
  SSL_write E b (C_int (len b)) (ext c) = ((rv, errno), x1) ->
  rv > 0 ->
  WriteTo E x1 = ((k, e), x2) ->
  exists c',
    Write E (S (S n)) b c = Ret (rv, e) c' /\
    trace c' = trace c ++ [EvLock; EvStep OpWrite; EvUnlock; EvWriteTo] /\
    ext c' = x2 /\
    mtx c' = false.
Proof.
  intros Hb Hs Hm Hw Hrv Hd. destruct c as [x sd mt slot h tr].
  simpl in *. subst. eexists. split.
  - exec. rewrite (len_nonempty b Hb). exec. rewrite Hw. simpl.
    replace (rv >? 0) with true by (symmetry; apply Z.gtb_lt; lia).
    exec. rewrite Hd. reflexivity.
  - simpl. rewrite <- !app_assoc. auto.
Qed.

End ClosedAndEmpty.

(** ** Close and the error classifier *)

Section CloseAndClassifier.

Context {X : Type} (E : Externals X).

Implicit Types c : Conn X.

Lemma marked_shutdown_trace c :
  trace (marked_shutdown c) = trace c ++ [EvLock; EvUnlock].
Proof. unfold marked_shutdown, log; simpl. now rewrite <- app_assoc. Qed.

(** [Close] on a connection that is not shut down, once its shutdown loop
    has returned. *)
Lemma Close_not_shut_down n c e1 c1 :
  is_shutdown c = false -> mtx c = false ->
  shutdownLoop E n 0 (marked_shutdown c) = Ret e1 c1 ->
  Close E (S n) c
    = Ret (ErrorGroup.Finalize
             (ErrorGroup.Add (ErrorGroup.Add ErrorGroup.empty e1)
                             (conn_Close E (ext c1)).1))
          (log EvConnClose (with_ext (conn_Close E (ext c1)).2 c1)).
Proof.
  intros Hs Hm Hl. simpl. unfold_monad. rewrite Hm. simpl. rewrite Hs.
  unfold marked_shutdown in Hl. now rewrite Hl.
Qed.

(** The shutdown loop of a [Close] does not close the transport. *)
Lemma shutdownLoop_no_close n c e1 c1 :
  shutdownLoop E n 0 (marked_shutdown c) = Ret e1 c1 ->
  is_shutdown c1 = true /\
  count is_conn_close (trace c1) = count is_conn_close (trace c) /\
  (count is_shutdown_step (trace c1)
     <= count is_shutdown_step (trace c) + 2)%nat.
Proof.
  intros Hl.
  pose proof (keeps_shutdownLoop E n 0 ltac:(lia) (marked_shutdown c)
                eq_refl) as Hk.
  rewrite Hl in Hk. destruct Hk as [F (evs & T & C & S)].
  cbn [state_of] in F, T. split; [exact F|].
  rewrite T, marked_shutdown_trace, !count_app, C.
  change (count is_conn_close [EvLock; EvUnlock]) with 0%nat.
  change (count is_shutdown_step [EvLock; EvUnlock]) with 0%nat.
  simpl in S. lia.
Qed.

Lemma Finalize_two (e1 e2 : error) :
  (ErrorGroup.Finalize
     (ErrorGroup.Add (ErrorGroup.Add ErrorGroup.empty e1) e2) = None
   <-> e1 = None /\ e2 = None) /\
  (e2 = None ->
   ErrorGroup.Finalize
     (ErrorGroup.Add (ErrorGroup.Add ErrorGroup.empty e1) e2) = e1) /\
  (e1 = None ->
   ErrorGroup.Finalize
     (ErrorGroup.Add (ErrorGroup.Add ErrorGroup.empty e1) e2) = e2) /\
  (forall a b, e1 = Some a -> e2 = Some b ->
   ErrorGroup.Finalize
     (ErrorGroup.Add (ErrorGroup.Add ErrorGroup.empty e1) e2)
   = Some (combined [a; b])).
Proof.
  destruct e1 as [a|], e2 as [b|]; simpl; repeat split;
    try tauto; try discriminate; try (intros [? ?]; discriminate);
    try (intros; congruence).
Qed.

(** C4, as amended: in the SSL_ERROR_SYSCALL case, with an empty error
    queue the handler returns "protocol-violating EOF" when the step
    returned exactly 0 and the captured errno when it returned exactly -1;
    with any other return value, or a non-empty queue, it returns the error
    drawn from the engine's error queue.  [handleError] hands that error to
    the caller. *)
Theorem syscall_fault_classification n rv errno c :
  SSL_get_error E rv (ext c) = SSL_ERROR_SYSCALL ->
  (ERR_peek_error E (ext c) = 0 -> rv = 0 ->
   getErrorHandler E rv errno c
     = Ret (cb_const (Some (errors_New "protocol-violating EOF")))
           (log EvPeekError (log EvGetError c))) /\
  (ERR_peek_error E (ext c) = 0 -> rv = -1 ->
   getErrorHandler E rv errno c
     = Ret (cb_const errno) (log EvPeekError (log EvGetError c))) /\
  (ERR_peek_error E (ext c) <> 0 \/ (rv <> 0 /\ rv <> -1) ->
   getErrorHandler E rv errno c
     = Ret (cb_const (errorFromErrorQueue E (ext c)).1)
           (log EvErrorQueue
              (with_ext (errorFromErrorQueue E (ext c)).2
                 (log EvPeekError (log EvGetError c))))) /\
  (forall e c0, handleError E (S n) (Some (cb_const e)) c0 = Ret e c0).
Proof.
  intros Hcode. destruct c as [x sd mt slot h tr]. simpl in *.
  split; [|split; [|split]].
  - intros Hq Hrv. subst rv. exec. rewrite Hcode. simpl. rewrite Hq.
    reflexivity.
  - intros Hq Hrv. subst rv. exec. rewrite Hcode. simpl. rewrite Hq.
    reflexivity.
  - intros Hor. exec. rewrite Hcode. simpl.
    destruct (ERR_peek_error E x =? 0) eqn:Hq; [|reflexivity].
    apply Z.eqb_eq in Hq. destruct Hor as [Hor|[H0 H1]]; [contradiction|].
    apply Z.eqb_neq in H0, H1. rewrite H0, H1. reflexivity.
  - reflexivity.
Qed.

(** The critical section of [shutdown] when the step reports a clean
    close. *)
Lemma shutdown_zero_return c rv errno x1 :
  mtx c = false ->
  SSL_shutdown E (ext c) = ((rv, errno), x1) ->
  rv < 0 ->
  SSL_get_error E rv x1 = SSL_ERROR_ZERO_RETURN ->
  shutdown E c = Ret (Some cb_zero_return) (after_step OpShutdown x1 c).
Proof.
  intros Hm Hr Hrv Hcode. destruct c as [x sd mt slot h tr].
  cbn [mtx ext] in *. subst. run_section. rewrite Hr. run_section.
  rewrite (gtb_nonpos rv ltac:(lia)).
  replace (rv =? 0) with false by (symmetry; apply Z.eqb_neq; lia).
  run_section. rewrite Hcode. reflexivity.
Qed.

(** The critical section of [read] when the step reports a clean close. *)
Lemma read_zero_return b c rv errno x1 :
  b <> [] ->
  is_shutdown c = false ->
  mtx c = false ->
  SSL_read E (C_int (len b)) (ext c) = ((rv, errno), x1) ->
  rv <= 0 ->
  SSL_get_error E rv x1 = SSL_ERROR_ZERO_RETURN ->
  read E b c = Ret (0, Some cb_zero_return) (after_step OpRead x1 c).
Proof.
  intros Hb Hs Hm Hr Hrv Hcode. destruct c as [x sd mt slot h tr].
  cbn [mtx ext is_shutdown] in *. subst. unfold read.
  rewrite (len_nonempty b Hb). run_section. rewrite Hr. run_section.
  rewrite (gtb_nonpos rv Hrv). run_section. rewrite Hcode. reflexivity.
Qed.

End CloseAndClassifier.

(** ** The shutdown loop *)

Section ShutdownLoop.

Context {X : Type} (E : Externals X).

Implicit Types c : Conn X.

(** On a shut-down connection a fill returns as soon as the transport
    answers something, and with the same result whatever fuel is left. *)
Lemma fillInputBuffer_returns k : forall c,
  productive_within E k (ext c) = true ->
  is_shutdown c = true -> mtx c = false ->
  exists e c',
    (forall n, (k < n)%nat -> fillInputBuffer E n c = Ret e c') /\
    is_shutdown c' = true /\ mtx c' = false /\
    want_read_future c' = want_read_future c.
Proof.
  induction k as [|k IH]; intros c Hp Hs Hm; [discriminate|].
  cbn [productive_within] in Hp.
  destruct (((ReadFromOnce E (ext c)).1.1 =? 0)
            && is_nil (ReadFromOnce E (ext c)).1.2) eqn:Hz.
  - cbn [negb orb] in Hp.
    destruct (IH (log EvReadFromOnce (with_ext (ReadFromOnce E (ext c)).2 c))
                Hp Hs Hm) as (e & c' & Hn & Hpost).
    exists e, c'. split; [|exact Hpost].
    intros [|n] Hlt; [lia|]. rewrite fillInputBuffer_unfold.
    unfold bind at 1, call at 1. rewrite Hz. apply Hn. lia.
  - destruct (is_io_EOF (ReadFromOnce E (ext c)).1.2) eqn:Heof.
    + eexists None, (peeked (at_EOF E (ReadFromOnce E (ext c)).2 c)).
      split; [|now auto].
      intros [|[|n]] Hlt; [lia|lia|]. rewrite fillInputBuffer_unfold.
      unfold bind at 1, call at 1. rewrite Hz, Heof.
      unfold bind at 1, modify at 1. now apply Close_shut_down.
    + exists (ReadFromOnce E (ext c)).1.2,
             (log EvReadFromOnce (with_ext (ReadFromOnce E (ext c)).2 c)).
      split; [|now auto].
      intros [|n] Hlt; [lia|]. rewrite fillInputBuffer_unfold.
      unfold bind at 1, call at 1. now rewrite Hz, Heof.
Qed.

(** Run on an idle connection, [shutdown] returns, never with a handler that
    waits for someone else's fill. *)
Lemma shutdown_returns c :
  idle c ->
  exists cb c1,
    shutdown E c = Ret cb c1 /\
    is_shutdown c1 = true /\ mtx c1 = false /\
    (forall f, cb <> Some (cb_wait f)) /\
    ((exists f, cb = Some (cb_fill f)) \/ want_read_future c1 = None).
Proof.
  intros (Hs & Hm & Hf). destruct c as [x sd mt slot h tr]. simpl in *.
  subst. exec.
  repeat match goal with
         | |- context [if ?b then _ else _] => destruct b
         end;
    (eexists _, _; split; [reflexivity|]; simpl;
     split; [reflexivity|]; split; [reflexivity|];
     split; [congruence|];
     first [right; reflexivity | left; eexists; reflexivity]).
Qed.

(** Once the connection is shut down every handler but the waiting one
    returns, given a transport that never goes on answering empty reads;
    afterwards no fill is pending if none was, or if this was the fill. *)
Lemma handleError_returns cb c :
  (forall x, exists k, productive_within E k x = true) ->
  is_shutdown c = true -> mtx c = false ->
  (forall f, cb <> Some (cb_wait f)) ->
  (exists f, cb = Some (cb_fill f)) \/ want_read_future c = None ->
  exists N e c',
    (forall n, (N < n)%nat -> handleError E n cb c = Ret e c') /\
    idle c'.
Proof.
  intros Hp Hs Hm Hw Hf.
  destruct cb as [[ |f|f| |e]|].
  - destruct Hf as [[f Hf]|Hf]; [discriminate|].
    exists 1%nat, (Some io_ErrUnexpectedEOF), (peeked c).
    split; [|now repeat split].
    intros [|[|n]] Hlt; [lia|lia|]. rewrite handleError_zero_return.
    unfold bind at 1. now rewrite Close_shut_down.
  - now destruct (Hw f).
  - destruct (Hp (ext c)) as [k Hk].
    destruct (fillInputBuffer_returns k c Hk Hs Hm)
      as (e & c' & Hn & Hs' & Hm' & _).
    exists (S k), (if is_nil e then Some tryAgain else e).
    eexists. split.
    + intros [|n] Hlt; [lia|]. rewrite handleError_fill. unfold bind at 1.
      rewrite (Hn n) by lia. unfold resolve. unfold_monad. rewrite Hm'.
      reflexivity.
    + repeat split; simpl; assumption.
  - destruct Hf as [[f Hf]|Hf]; [discriminate|].
    exists 0%nat,
      (if is_nil (WriteTo E (ext c)).1.2 then Some tryAgain
       else (WriteTo E (ext c)).1.2),
      (log EvWriteTo (with_ext (WriteTo E (ext c)).2 c)).
    split; [|now repeat split].
    intros [|n] Hlt; [lia|].
    change (handleError E (S n) (Some cb_flush) c)
      with ((e <- flushOutputBuffer E ;;
             if is_nil e then ret (Some tryAgain) else ret e) c).
    unfold flushOutputBuffer. unfold_monad.
    destruct (is_nil (WriteTo E (ext c)).1.2) eqn:Hnil; reflexivity.
  - destruct Hf as [[f Hf]|Hf]; [discriminate|].
    exists 0%nat, e, c. split; [|now repeat split].
    intros [|n] Hlt; [lia|]. reflexivity.
  - destruct Hf as [[f Hf]|Hf]; [discriminate|].
    exists 0%nat, None, c. split; [|now repeat split].
    intros [|n] Hlt; [lia|]. reflexivity.
Qed.

(** The second pass through the loop always ends it. *)
Lemma shutdownLoop_second_returns c :
  (forall x, exists k, productive_within E k x = true) ->
  idle c ->
  exists N e c', forall n, (N < n)%nat -> shutdownLoop E n 1 c = Ret e c'.
Proof.
  intros Hp Hi.
  destruct (shutdown_returns c Hi) as (cb & c1 & Hsd & Hs1 & Hm1 & Hw & Hf).
  destruct (handleError_returns cb c1 Hp Hs1 Hm1 Hw Hf)
    as (N & e & c2 & Hh & _).
  exists (S N).
  assert (Hrun : forall n, (S N < S n)%nat ->
    shutdownLoop E (S n) 1 c =
    (if is_nil e then flushOutputBuffer E
     else if is_tryAgain e
          then ret (Some (errors_New "shutdown requested a third time?"))
          else if is_io_ErrUnexpectedEOF e then ret None else ret e) c2).
  { intros n Hlt. rewrite shutdownLoop_unfold. unfold bind at 1.
    rewrite Hsd. unfold bind at 1. rewrite (Hh n) by lia.
    change (1 + 1 >=? 2) with true.
    destruct (is_nil e); [reflexivity|].
    destruct (is_tryAgain e); reflexivity. }
  destruct (is_nil e) eqn:Hnil.
  { eexists _, _. intros [|n] Hlt; [lia|]. rewrite (Hrun n Hlt).
    unfold flushOutputBuffer. unfold_monad. reflexivity. }
  destruct (is_tryAgain e) eqn:Hta.
  { eexists _, _. intros [|n] Hlt; [lia|]. rewrite (Hrun n Hlt). reflexivity. }
  destruct (is_io_ErrUnexpectedEOF e) eqn:Hue;
    (eexists _, _; intros [|n] Hlt; [lia|]; rewrite (Hrun n Hlt);
     reflexivity).
Qed.

(** Entered by [Close] on an idle connection, the loop returns. *)
Lemma shutdownLoop_returns c :
  (forall x, exists k, productive_within E k x = true) ->
  idle c ->
  exists N e c', forall n, (N < n)%nat -> shutdownLoop E n 0 c = Ret e c'.
Proof.
  intros Hp Hi.
  destruct (shutdown_returns c Hi) as (cb & c1 & Hsd & Hs1 & Hm1 & Hw & Hf).
  destruct (handleError_returns cb c1 Hp Hs1 Hm1 Hw Hf)
    as (N & e & c2 & Hh & Hi2).
  destruct (shutdownLoop_second_returns c2 Hp Hi2) as (N2 & e2 & c3 & Hl2).
  exists (S (N + N2)).
  assert (Hrun : forall n, (S (N + N2) < S n)%nat ->
    shutdownLoop E (S n) 0 c =
    (if is_nil e then flushOutputBuffer E
     else if is_tryAgain e then shutdownLoop E n 1
          else if is_io_ErrUnexpectedEOF e then ret None else ret e) c2).
  { intros n Hlt. rewrite shutdownLoop_unfold. unfold bind at 1.
    rewrite Hsd. unfold bind at 1. rewrite (Hh n) by lia.
    change (0 + 1 >=? 2) with false. rewrite andb_false_r.
    reflexivity. }
  destruct (is_nil e) eqn:Hnil.
  { eexists _, _. intros [|n] Hlt; [lia|]. rewrite (Hrun n Hlt).
    unfold flushOutputBuffer. unfold_monad. reflexivity. }
  destruct (is_tryAgain e) eqn:Hta.
  { exists e2, c3. intros [|n] Hlt; [lia|]. rewrite (Hrun n Hlt).
    apply Hl2. lia. }
  destruct (is_io_ErrUnexpectedEOF e) eqn:Hue;
    (eexists _, _; intros [|n] Hlt; [lia|]; rewrite (Hrun n Hlt);
     reflexivity).
Qed.

(** [Close] on a connection that is not shut down returns, on a transport
    that does not answer empty reads for ever and with no fill pending. *)
Lemma Close_returns c :
  is_shutdown c = false -> mtx c = false -> want_read_future c = None ->
  (forall x, exists k, productive_within E k x = true) ->
  exists N e1 c1,
    forall n, (N < n)%nat ->
      shutdownLoop E n 0 (marked_shutdown c) = Ret e1 c1 /\
      Close E (S n) c
      = Ret (ErrorGroup.Finalize
               (ErrorGroup.Add (ErrorGroup.Add ErrorGroup.empty e1)
                               (conn_Close E (ext c1)).1))
            (log EvConnClose (with_ext (conn_Close E (ext c1)).2 c1)).
Proof.
  intros Hs Hm Hf Hp.
  destruct (shutdownLoop_returns (marked_shutdown c) Hp)
    as (N & e1 & c1 & Hl); [now repeat split|].
  exists N, e1, c1. intros n Hlt. split; [now apply Hl|].
  apply Close_not_shut_down; auto.
Qed.


(** C1, as amended: [Close] on a connection that is not shut down.  Whatever
    the shutdown loop returns ([e1], an error or nil), [Close] then calls the
    transport's [Close], exactly once in the whole call and as its last
    action, and returns the aggregate of [e1] and the transport's answer:
    nil exactly when both are nil, the one that failed when one failed, both
    combined when both failed.  And the loop does return, so that the
    transport is closed, when no fill is pending and the transport does not
    answer empty reads for ever. *)
Theorem Close_always_closes_transport n c e1 c1 :
  is_shutdown c = false ->
  mtx c = false ->
  (shutdownLoop E n 0 (marked_shutdown c) = Ret e1 c1 ->
   exists e c',
     Close E (S n) c = Ret e c' /\
     trace c' = trace c1 ++ [EvConnClose] /\
     ext c' = (conn_Close E (ext c1)).2 /\
     count is_conn_close (trace c') = S (count is_conn_close (trace c)) /\
     (e = None <-> e1 = None /\ (conn_Close E (ext c1)).1 = None) /\
     ((conn_Close E (ext c1)).1 = None -> e = e1) /\
     (e1 = None -> e = (conn_Close E (ext c1)).1) /\
     (forall a b, e1 = Some a -> (conn_Close E (ext c1)).1 = Some b ->
                  e = Some (combined [a; b]))) /\
  (want_read_future c = None ->
   (forall x, exists k, productive_within E k x = true) ->
   exists N e c',
     (forall m, (N < m)%nat -> Close E m c = Ret e c') /\
     count is_conn_close (trace c') = S (count is_conn_close (trace c))).
Proof.
  intros Hs Hm.
  assert (Hgiven : forall n e1 c1,
    shutdownLoop E n 0 (marked_shutdown c) = Ret e1 c1 ->
    Close E (S n) c
      = Ret (ErrorGroup.Finalize
               (ErrorGroup.Add (ErrorGroup.Add ErrorGroup.empty e1)
                               (conn_Close E (ext c1)).1))
            (log EvConnClose (with_ext (conn_Close E (ext c1)).2 c1)) /\
    count is_conn_close
      (trace (log EvConnClose (with_ext (conn_Close E (ext c1)).2 c1)))
    = S (count is_conn_close (trace c))).
  { intros n0 e0 c0 Hl. split; [now apply Close_not_shut_down|].
    destruct (shutdownLoop_no_close E n0 c e0 c0 Hl) as (_ & Hc & _).
    simpl. rewrite count_app, Hc.
    change (count is_conn_close [EvConnClose]) with 1%nat. lia. }
  split.
  - intros Hl. destruct (Hgiven n e1 c1 Hl) as [Hclose Hcount].
    destruct (Finalize_two e1 (conn_Close E (ext c1)).1)
      as (F1 & F2 & F3 & F4).
    eexists _, _. split; [exact Hclose|].
    split; [reflexivity|]. split; [reflexivity|]. split; [exact Hcount|].
    now auto.
  - intros Hf Hp.
    destruct (Close_returns c Hs Hm Hf Hp) as (N & e0 & c0 & Hl).
    exists (S N). eexists _, _. split.
    + intros [|m] Hlt; [lia|]. apply (Hgiven m e0 c0). apply Hl. lia.
    + apply (Hgiven (S N) e0 c0). apply Hl. lia.
Qed.

(** C2, as amended: the shutdown loop of a shut-down connection (the only
    place it is entered from is [Close], after the flag is set).  However far it runs it
    makes at most two shutdown steps; when the handler of the second attempt
    asks for a retry again it returns "shutdown requested a third time?"
    in the state that handler left, with no third step; and on a connection
    with no fill pending, the mutex free, and a transport that does not
    answer empty reads for ever, it returns: there is an amount of fuel from
    which on the result is there and always the same. *)
Theorem shutdownLoop_two_attempts n c :
  is_shutdown c = true ->
  (count is_shutdown_step (trace (state_of (shutdownLoop E n 0 c)))
     <= count is_shutdown_step (trace c) + 2)%nat /\
  (forall cb1 c1 c2 cb2 c3 c4,
     shutdown E c = Ret cb1 c1 ->
     handleError E (S n) cb1 c1 = Ret (Some tryAgain) c2 ->
     shutdown E c2 = Ret cb2 c3 ->
     handleError E n cb2 c3 = Ret (Some tryAgain) c4 ->
     shutdownLoop E (S (S n)) 0 c
       = Ret (Some (errors_New "shutdown requested a third time?")) c4) /\
  (mtx c = false ->
   want_read_future c = None ->
   (forall x, exists k, productive_within E k x = true) ->
   exists N e c', forall m, (N < m)%nat -> shutdownLoop E m 0 c = Ret e c').
Proof.
  intros Hs. split; [|split].
  - destruct (keeps_shutdownLoop E n 0 ltac:(lia) c Hs)
      as [_ (evs & T & _ & S)].
    rewrite T, count_app. simpl in S. lia.
  - intros cb1 c1 c2 cb2 c3 c4 H1 H2 H3 H4.
    rewrite shutdownLoop_unfold. unfold bind at 1. rewrite H1.
    unfold bind at 1. rewrite H2.
    change (is_nil (Some tryAgain)) with false. cbv iota.
    change (is_tryAgain (Some tryAgain) && (0 + 1 >=? 2)) with false.
    cbv iota. change (is_tryAgain (Some tryAgain)) with true. cbv iota.
    rewrite shutdownLoop_unfold. unfold bind at 1. rewrite H3.
    unfold bind at 1. rewrite H4. reflexivity.
  - intros Hm Hf Hp. apply shutdownLoop_returns; [exact Hp|].
    now repeat split.
Qed.

(** C10, as amended: when the transport read of a fill reports io.EOF, the
    fill marks end-of-stream on the inbound queue and then calls [Close],
    and what [Close] does and returns is what the fill does and returns.
    On a connection already shut down that [Close] only takes and releases
    the mutex and returns nil; on one that is not, it sets the flag, runs
    the shutdown loop and, once the loop has returned, closes the transport
    and returns the aggregate of the two results. *)
Theorem fillInputBuffer_EOF_calls_Close n c k x1 :
  ReadFromOnce E (ext c) = ((k, Some io_EOF), x1) ->
  fillInputBuffer E (S n) c = Close E n (at_EOF E x1 c) /\
  trace (at_EOF E x1 c) = trace c ++ [EvReadFromOnce; EvMarkEOF] /\
  ext (at_EOF E x1 c) = MarkEOF E x1 /\
  (is_shutdown c = true -> mtx c = false ->
   fillInputBuffer E (S (S n)) c = Ret None (peeked (at_EOF E x1 c))) /\
  (is_shutdown c = false -> mtx c = false ->
   forall e1 c1,
     shutdownLoop E n 0 (marked_shutdown (at_EOF E x1 c)) = Ret e1 c1 ->
     fillInputBuffer E (S (S n)) c
       = Ret (ErrorGroup.Finalize
                (ErrorGroup.Add (ErrorGroup.Add ErrorGroup.empty e1)
                                (conn_Close E (ext c1)).1))
             (log EvConnClose (with_ext (conn_Close E (ext c1)).2 c1)) /\
     is_shutdown c1 = true).
Proof.
  intros Hr.
  assert (Hfill : forall m, fillInputBuffer E (S m) c
                            = Close E m (at_EOF E x1 c)).
  { intros m. cbn [fillInputBuffer]. unfold_monad. rewrite Hr. simpl.
    rewrite andb_false_r. reflexivity. }
  split; [apply Hfill|]. split.
  { unfold at_EOF, log; simpl. now rewrite <- app_assoc. }
  split; [reflexivity|]. split.
  - intros Hs Hm. rewrite Hfill. now apply Close_shut_down.
  - intros Hs Hm e1 c1 Hl. rewrite Hfill. split.
    + now apply Close_not_shut_down.
    + apply (shutdownLoop_no_close E n _ e1 c1 Hl).
Qed.

End ShutdownLoop.

(** ** The single flight of fills *)

Section SingleFlight.

Context {X : Type} (E : Externals X).

Implicit Types c : Conn X.

Lemma bind_Ret {A B} (m : M X A) (k : A -> M X B) c b c' :
  bind m k c = Ret b c' ->
  exists a c1, m c = Ret a c1 /\ k a c1 = Ret b c'.
Proof.
  unfold bind. destruct (m c) as [a c1|c1|c1]; try discriminate.
  intros H. now exists a, c1.
Qed.

Lemma heap_kept_refl o (h : Future.heap) : heap_kept o h h.
Proof. split; [lia|]. reflexivity. Qed.

Lemma heap_kept_trans o (h1 h2 h3 : Future.heap) :
  heap_kept None h1 h2 -> heap_kept o h2 h3 -> heap_kept o h1 h3.
Proof.
  intros [L1 K1] [L2 K2]. split; [lia|]. intros i Hi Ho.
  rewrite K2 by (auto; lia). apply K1; [exact Hi|discriminate].
Qed.

Lemma heap_kept_alloc (h : Future.heap) : heap_kept None h (h ++ [None]).
Proof.
  split; [rewrite length_app; lia|]. intros i Hi _.
  now apply lookup_app_l.
Qed.

Lemma heap_kept_Set (h : Future.heap) f e :
  heap_kept (Some f) h (Future.Set_ h f e).
Proof.
  unfold Future.Set_. destruct (h !! f) as [[e0|]|]; try apply heap_kept_refl.
  split; [rewrite length_insert; lia|]. intros i Hi Ho.
  apply list_lookup_insert_ne. congruence.
Qed.

Lemma frames_ret {A} (a : A) : frames (X:=X) (ret a).
Proof. intros c a' c' H. inversion H; subst. split; [reflexivity|apply heap_kept_refl]. Qed.

Lemma frames_bind {A B} (m : M X A) (k : A -> M X B) :
  frames m -> (forall a, frames (k a)) -> frames (bind m k).
Proof.
  intros Hm Hk c b c' H. apply bind_Ret in H as (a & c1 & H1 & H2).
  destruct (Hm _ _ _ H1) as [S1 K1]. destruct (Hk _ _ _ _ H2) as [S2 K2].
  split; [congruence|]. eapply heap_kept_trans; eauto.
Qed.

(** A step that changes neither the slot nor the heap. *)
Lemma frames_same {A} (m : M X A) :
  (forall c a c', m c = Ret a c' ->
     want_read_future c' = want_read_future c /\ futures c' = futures c) ->
  frames m.
Proof.
  intros Hm c a c' H. destruct (Hm _ _ _ H) as [S F]. split; [exact S|].
  rewrite F. apply heap_kept_refl.
Qed.

Lemma frames_call {A} ev (f : X -> A * X) : frames (call ev f).
Proof. apply frames_same. intros c a c' H. now inversion H. Qed.

Lemma frames_query {A} ev (f : X -> A) : frames (query ev f).
Proof. apply frames_same. intros c a c' H. now inversion H. Qed.

Lemma frames_gets {A} (f : Conn X -> A) : frames (gets f).
Proof. apply frames_same. intros c a c' H. now inversion H. Qed.

Lemma frames_modify (f : Conn X -> Conn X) :
  (forall c, want_read_future (f c) = want_read_future c) ->
  (forall c, futures (f c) = futures c) ->
  frames (modify f).
Proof. intros Hs Hf. apply frames_same. intros c a c' H. inversion H. auto. Qed.

Lemma frames_Lock : frames (X:=X) Lock.
Proof.
  apply frames_same. intros c a c' H. unfold Lock in H.
  destruct (mtx c); [discriminate|]. now inversion H.
Qed.

Lemma frames_Unlock : frames (X:=X) Unlock.
Proof. apply frames_same. intros c a c' H. now inversion H. Qed.

Lemma frames_out_of_fuel {A} : frames (X:=X) (A:=A) out_of_fuel.
Proof. intros c a c' H. discriminate. Qed.

Lemma frames_flushOutputBuffer : frames (flushOutputBuffer E).
Proof.
  apply frames_bind; [apply frames_call|]. intros; apply frames_ret.
Qed.

Ltac frames_tac :=
  repeat first
    [ apply frames_ret | apply frames_out_of_fuel | apply frames_call
    | apply frames_query | apply frames_gets | apply frames_Lock
    | apply frames_Unlock | apply frames_flushOutputBuffer
    | apply frames_modify; reflexivity
    | match goal with |- frames (if ?b then _ else _) => destruct b end
    | apply frames_bind; [|intros ?] ].

(** Unfolds a critical section in [H], follows each of its paths and
    settles what it did to the slot, the heap and the mutex. *)
Ltac attach_tac H :=
  cbv beta iota zeta delta
    [handshake read write shutdown getErrorHandler log with_ext with_mtx
     with_is_shutdown with_want_read_future with_futures bind ret gets modify
     call query Lock Unlock go_flushOutputBuffer ext is_shutdown mtx
     want_read_future futures trace fst snd Future.NewFuture] in H;
  unfold attaches;
  repeat match type of H with
         | context [if ?b then _ else _] => destruct b
         end;
  try match type of H with
      | context [match ?o with Some _ => _ | None => _ end] => destruct o
      end;
  inversion H; subst; simpl; (split; [|reflexivity]);
  first [ left; repeat split; congruence
        | right; repeat split; congruence ].

(** What [getErrorHandler] does about the single flight. *)
Lemma getErrorHandler_attaches rv errno c cb c' :
  getErrorHandler E rv errno c = Ret cb c' ->
  attaches c (Some cb) c' /\ mtx c' = mtx c.
Proof. intros H. destruct c as [x sd mt slot h tr]. attach_tac H. Qed.

Lemma shutdown_attaches c cb c' :
  shutdown E c = Ret cb c' -> attaches c cb c' /\ mtx c' = false.
Proof. intros H. destruct c as [x sd mt slot h tr]. attach_tac H. Qed.

Lemma handshake_attaches c cb c' :
  handshake E c = Ret cb c' -> attaches c cb c' /\ mtx c' = false.
Proof. intros H. destruct c as [x sd mt slot h tr]. attach_tac H. Qed.

Lemma read_attaches b c n cb c' :
  mtx c = false ->
  read E b c = Ret (n, cb) c' -> attaches c cb c' /\ mtx c' = false.
Proof.
  intros Hm H. destruct c as [x sd mt slot h tr]. simpl in Hm. subst mt.
  attach_tac H.
Qed.

Lemma write_attaches b c n cb c' :
  mtx c = false ->
  write E b c = Ret (n, cb) c' -> attaches c cb c' /\ mtx c' = false.
Proof.
  intros Hm H. destruct c as [x sd mt slot h tr]. simpl in Hm. subst mt.
  attach_tac H.
Qed.

Lemma critical_attaches c cb c' :
  mtx c = false ->
  critical E c cb c' -> attaches c cb c' /\ mtx c' = false.
Proof.
  intros Hm [cb0 c0 H|b n cb0 c0 H|b n cb0 c0 H|cb0 c0 H].
  - now apply handshake_attaches.
  - now apply (read_attaches b c n).
  - now apply (write_attaches b c n).
  - now apply shutdown_attaches.
Qed.

Lemma attaches_frames c cb c' :
  attaches c cb c' ->
  (forall f, cb <> Some (cb_fill f)) ->
  want_read_future c' = want_read_future c /\ futures c' = futures c.
Proof.
  intros [(S & F & _)|(_ & Hcb & _)] Hn; [now split|].
  now destruct (Hn _ Hcb).
Qed.

(** A critical section followed by the run of its handler is a frame. *)
Lemma frames_section {A} n (sec : M X (option errcb)) (rest : error -> M X A) :
  (forall c cb c', sec c = Ret cb c' -> attaches c cb c') ->
  (forall cb, handled E n cb) ->
  (forall e, frames (rest e)) ->
  frames (cb <- sec ;; e <- handleError E n cb ;; rest e).
Proof.
  intros Hsec Hh Hrest c a c' H.
  apply bind_Ret in H as (cb & c1 & H1 & H).
  apply bind_Ret in H as (e & c2 & H2 & H3).
  destruct (Hrest _ _ _ _ H3) as [S3 K3].
  specialize (Hh cb c1 e c2 H2).
  destruct (Hsec _ _ _ H1) as [(S1 & F1 & Hnf & _)|(S0 & Hcb & S1 & F1)].
  - assert (want_read_future c2 = want_read_future c1 /\
            heap_kept None (futures c1) (futures c2)) as [S2 K2].
    { destruct cb as [[ |f|f| |e0]|]; try exact Hh. now destruct (Hnf f). }
    split; [congruence|]. rewrite <- F1.
    eapply heap_kept_trans; eauto.
  - subst cb. destruct Hh as [S2 K2]. split; [congruence|].
    eapply heap_kept_trans; [|exact K3].
    destruct K2 as [L2 K2]. rewrite F1 in *. rewrite length_app in L2.
    simpl in L2. split; [lia|]. intros i Hi _.
    rewrite K2; [now apply lookup_app_l| rewrite length_app; simpl; lia|].
    intros Heq. inversion Heq. lia.
Qed.

Lemma frames_resolve_heap f e c u c' :
  resolve f e c = Ret u c' ->
  want_read_future c' = None /\
  futures c' = Future.Set_ (futures c) f e.
Proof.
  unfold resolve. unfold_monad. destruct (mtx c); [discriminate|].
  intros H. now inversion H.
Qed.

(** Everything [Close] reaches is a frame, and every handler is handled. *)
Lemma frames_all n :
  frames (Close E n) /\
  (forall tries, frames (shutdownLoop E n tries)) /\
  (forall cb, handled E n cb) /\
  frames (fillInputBuffer E n).
Proof.
  induction n as [|n (IHc & IHl & IHh & IHf)].
  { split; [|split; [|split]]; try (intros; apply frames_out_of_fuel).
    intros cb c e c' H. discriminate. }
  split; [|split; [|split]].
  - cbn [Close]. frames_tac. apply IHl.
  - intros tries c a c' H. rewrite shutdownLoop_unfold in H.
    revert c a c' H.
    apply (frames_section n (shutdown E)); [|exact IHh|].
    + intros c cb c' H. now apply shutdown_attaches.
    + intros e. frames_tac. apply IHl.
  - intros [[ |f|f| |e0]|] c e c' H.
    + rewrite handleError_zero_return in H. revert c e c' H.
      change (frames (Close E n ;; ret (Some io_ErrUnexpectedEOF))).
      frames_tac. exact IHc.
    + cbn [handleError] in H. destruct (Future.Get (futures c) f);
        inversion H; subst. split; [reflexivity|apply heap_kept_refl].
    + rewrite handleError_fill in H.
      apply bind_Ret in H as (e1 & c1 & H1 & H).
      apply bind_Ret in H as (u & c2 & H2 & H3). inversion H3; subst.
      destruct (IHf _ _ _ H1) as [_ K1].
      destruct (frames_resolve_heap _ _ _ _ _ H2) as [S2 F2].
      split; [exact S2|]. rewrite F2.
      eapply heap_kept_trans; [exact K1|apply heap_kept_Set].
    + revert c e c' H.
      change (frames (e <- flushOutputBuffer E ;;
                      if is_nil e then ret (Some tryAgain) else ret e)).
      frames_tac.
    + inversion H; subst. split; [reflexivity|apply heap_kept_refl].
    + inversion H; subst. split; [reflexivity|apply heap_kept_refl].
  - intros c a c' H. rewrite fillInputBuffer_unfold in H. revert c a c' H.
    change (frames
      (r <- call EvReadFromOnce (ReadFromOnce E) ;;
       if (r.1 =? 0) && is_nil r.2 then fillInputBuffer E n
       else if is_io_EOF r.2 then
         modify (fun c => log EvMarkEOF (with_ext (MarkEOF E (ext c)) c)) ;;
         Close E n
       else ret r.2)).
    frames_tac; assumption.
Qed.

(** *** The invariant is kept by every step of the pool *)

Implicit Types ts : list caller.

Lemma filling_owning t f : filling t = Some f -> owning t = Some f.
Proof. destruct t as [ |[ | | | | ]| | | | | ]; simpl; congruence. Qed.

(** The callers of a pool where caller [i] went from [t] to [t']. *)
Lemma updated_back ts i t t' j tj' :
  ts !! i = Some t ->
  <[i := t']> ts !! j = Some tj' ->
  (j = i /\ tj' = t') \/ (j <> i /\ ts !! j = Some tj').
Proof.
  intros Hi H. apply list_lookup_insert_Some in H as [(-> & <- & _)|[Hn H]].
  - now left.
  - right. split; [congruence|exact H].
Qed.

Lemma updated_forth ts i t t' j tj :
  ts !! i = Some t ->
  ts !! j = Some tj ->
  exists tj', <[i := t']> ts !! j = Some tj' /\
              ((j = i /\ tj = t /\ tj' = t') \/ (j <> i /\ tj' = tj)).
Proof.
  intros Hi Hj. destruct (decide (i = j)) as [->|Hn].
  - exists t'. split.
    + apply list_lookup_insert_eq. eapply lookup_lt_Some; eauto.
    + left. split; [reflexivity|]. split; congruence.
  - exists tj. split; [now rewrite list_lookup_insert_ne|].
    right. split; congruence.
Qed.

(** The connection moves on by a frame, the callers stay where they are. *)
Lemma single_flight_conn c c' ts :
  single_flight (c, ts) ->
  mtx c' = false ->
  want_read_future c' = want_read_future c ->
  heap_kept None (futures c) (futures c') ->
  single_flight (c', ts).
Proof.
  intros [Im Is Io Iu Ig Iw] Hm Hs [_ Hk]. simpl in *.
  assert (Hkeep : forall f o, futures c !! f = Some o ->
                              futures c' !! f = Some o).
  { intros f o Hf. rewrite Hk; [exact Hf| |discriminate].
    eapply lookup_lt_Some; eauto. }
  constructor; simpl.
  - exact Hm.
  - intros f. rewrite Hs. apply Is.
  - exact Io.
  - intros i t f Hi Ho. eapply Hkeep, Iu; eauto.
  - intros i t f e Hi Hg. eapply Hkeep, Ig; eauto.
  - intros i t f Hi Hw. destruct (Iw i t f Hi Hw) as [Hown|[e He]].
    + now left.
    + right. exists e. now apply Hkeep.
Qed.

(** A caller moves on without changing what it fills or owns. *)
Lemma single_flight_caller c ts i t t' :
  single_flight (c, ts) ->
  ts !! i = Some t ->
  filling t' = filling t ->
  owning t' = owning t ->
  (forall f e, got t' = Some (f, e) -> futures c !! f = Some (Some e)) ->
  (forall f, waiting t' = Some f ->
             waiting t = Some f \/ want_read_future c = Some f) ->
  single_flight (c, <[i := t']> ts).
Proof.
  intros [Im Is Io Iu Ig Iw] Hi Hf Ho Hg Hw. simpl in *.
  assert (Hown : forall j tj f, ts !! j = Some tj -> owning tj = Some f ->
            exists j' tj', <[i := t']> ts !! j' = Some tj' /\
                           owning tj' = Some f).
  { intros j tj f Hj Hoj.
    destruct (updated_forth ts i t t' j tj Hi Hj)
      as (tj' & Hj' & [(-> & -> & ->)|(_ & ->)]).
    - exists i, t'. split; [exact Hj'|congruence].
    - exists j, tj. now split. }
  constructor; simpl.
  - exact Im.
  - intros f. rewrite Is. split.
    + intros (j & tj & Hj & Hfj).
      destruct (updated_forth ts i t t' j tj Hi Hj)
        as (tj' & Hj' & [(-> & -> & ->)|(_ & ->)]).
      * exists i, t'. split; [exact Hj'|congruence].
      * exists j, tj. now split.
    + intros (j & tj' & Hj' & Hfj).
      destruct (updated_back ts i t t' j tj' Hi Hj') as [[-> ->]|[_ Hj]].
      * exists i, t. split; [exact Hi|congruence].
      * exists j, tj'. now split.
  - intros j k tj tk f Hj Hk Hoj Hok.
    destruct (updated_back ts i t t' j tj Hi Hj) as [[-> ->]|[_ Hj0]];
      destruct (updated_back ts i t t' k tk Hi Hk) as [[-> ->]|[_ Hk0]].
    + reflexivity.
    + eapply (Io i k t tk f); eauto. congruence.
    + eapply (Io j i tj t f); eauto. congruence.
    + eapply (Io j k tj tk f); eauto.
  - intros j tj f Hj Hoj.
    destruct (updated_back ts i t t' j tj Hi Hj) as [[-> ->]|[_ Hj0]].
    + eapply (Iu i t f); eauto. congruence.
    + eapply Iu; eauto.
  - intros j tj f e Hj Hgj.
    destruct (updated_back ts i t t' j tj Hi Hj) as [[-> ->]|[_ Hj0]].
    + now apply Hg.
    + eapply Ig; eauto.
  - intros j tj f Hj Hwj.
    assert (Hold : (exists k tk, ts !! k = Some tk /\ owning tk = Some f) \/
                   (exists e, futures c !! f = Some (Some e))).
    { destruct (updated_back ts i t t' j tj Hi Hj) as [[-> ->]|[_ Hj0]].
      - destruct (Hw f Hwj) as [Hwt|Hslot].
        + eapply Iw; eauto.
        + left. apply Is in Hslot as (k & tk & Hk & Hfk).
          exists k, tk. split; [exact Hk|now apply filling_owning].
      - eapply Iw; eauto. }
    destruct Hold as [(k & tk & Hk & Hok)|Hres]; [|now right].
    left. eapply Hown; eauto.
Qed.

(** A caller stalls while no fill is pending: it makes the future, fills the
    slot with it and goes off to do the fill. *)
Lemma single_flight_new_fill c c' ts i :
  single_flight (c, ts) ->
  ts !! i = Some Running ->
  want_read_future c = None ->
  mtx c' = false ->
  want_read_future c' = Some (length (futures c)) ->
  futures c' = futures c ++ [None] ->
  single_flight (c', <[i := Handling (cb_fill (length (futures c)))]> ts).
Proof.
  intros [Im Is Io Iu Ig Iw] Hi Hnone Hm Hs Hf. simpl in *.
  assert (Hkeep : forall f o, futures c !! f = Some o ->
                              futures c' !! f = Some o).
  { intros f o Hfo. rewrite Hf, lookup_app_l; [exact Hfo|].
    eapply lookup_lt_Some; eauto. }
  assert (Hnofill : forall j tj f, ts !! j = Some tj ->
                                   filling tj = Some f -> False).
  { intros j tj f Hj Hfj.
    assert (want_read_future c = Some f) by (apply Is; eauto). congruence. }
  assert (Hfresh : forall j tj, ts !! j = Some tj ->
                                owning tj = Some (length (futures c)) -> False).
  { intros j tj Hj Hoj. apply (Iu j tj _ Hj) in Hoj.
    apply lookup_lt_Some in Hoj. lia. }
  constructor; simpl.
  - exact Hm.
  - intros f. rewrite Hs. split.
    + intros [= <-]. exists i, (Handling (cb_fill (length (futures c)))).
      split; [|reflexivity].
      apply list_lookup_insert_eq. eapply lookup_lt_Some; eauto.
    + intros (j & tj' & Hj' & Hfj).
      destruct (updated_back ts i _ _ j tj' Hi Hj') as [[-> ->]|[_ Hj]].
      * simpl in Hfj. congruence.
      * destruct (Hnofill j tj' f Hj Hfj).
  - intros j k tj tk f Hj Hk Hoj Hok.
    destruct (updated_back ts i _ _ j tj Hi Hj) as [[-> ->]|[_ Hj0]];
      destruct (updated_back ts i _ _ k tk Hi Hk) as [[-> ->]|[_ Hk0]].
    + reflexivity.
    + simpl in Hoj. injection Hoj as <-. destruct (Hfresh k tk Hk0 Hok).
    + simpl in Hok. injection Hok as <-. destruct (Hfresh j tj Hj0 Hoj).
    + eapply (Io j k tj tk f); eauto.
  - intros j tj f Hj Hoj.
    destruct (updated_back ts i _ _ j tj Hi Hj) as [[-> ->]|[_ Hj0]].
    + simpl in Hoj. injection Hoj as <-. rewrite Hf.
      now apply list_lookup_middle.
    + eapply Hkeep, Iu; eauto.
  - intros j tj f e Hj Hgj.
    destruct (updated_back ts i _ _ j tj Hi Hj) as [[-> ->]|[_ Hj0]].
    + discriminate.
    + eapply Hkeep, Ig; eauto.
  - intros j tj f Hj Hwj.
    destruct (updated_back ts i _ _ j tj Hi Hj) as [[-> ->]|[_ Hj0]].
    + discriminate.
    + destruct (Iw j tj f Hj0 Hwj) as [(k & tk & Hk & Hok)|[e He]].
      * left. exists k, tk. split; [|exact Hok].
        rewrite list_lookup_insert_ne; [exact Hk|].
        intros <-. rewrite Hi in Hk. injection Hk as <-. discriminate.
      * right. exists e. now apply Hkeep.
Qed.

(** The filler clears the slot. *)
Lemma single_flight_clear c ts i f e :
  single_flight (c, ts) ->
  ts !! i = Some (Resolving f e) ->
  single_flight (cleared c, <[i := Delivering f e]> ts).
Proof.
  intros [Im Is Io Iu Ig Iw] Hi. simpl in *.
  constructor; simpl.
  - reflexivity.
  - intros g. split; [discriminate|].
    intros (j & tj' & Hj' & Hfj).
    destruct (updated_back ts i _ _ j tj' Hi Hj') as [[-> ->]|[Hn Hj]].
    + discriminate.
    + assert (Hg : want_read_future c = Some g) by (apply Is; eauto).
      assert (Hfs : want_read_future c = Some f).
      { apply Is. exists i, (Resolving f e). now split. }
      assert (g = f) by congruence. subst g.
      destruct Hn. eapply (Io j i tj' (Resolving f e) f); eauto.
      now apply filling_owning.
  - intros j k tj tk g Hj Hk Hoj Hok.
    destruct (updated_back ts i _ _ j tj Hi Hj) as [[-> ->]|[_ Hj0]];
      destruct (updated_back ts i _ _ k tk Hi Hk) as [[-> ->]|[_ Hk0]].
    + reflexivity.
    + eapply (Io i k (Resolving f e) tk g); eauto.
    + eapply (Io j i tj (Resolving f e) g); eauto.
    + eapply (Io j k tj tk g); eauto.
  - intros j tj g Hj Hoj.
    destruct (updated_back ts i _ _ j tj Hi Hj) as [[-> ->]|[_ Hj0]].
    + eapply (Iu i (Resolving f e) g); eauto.
    + eapply Iu; eauto.
  - intros j tj g e0 Hj Hgj.
    destruct (updated_back ts i _ _ j tj Hi Hj) as [[-> ->]|[_ Hj0]].
    + discriminate.
    + eapply Ig; eauto.
  - intros j tj g Hj Hwj.
    destruct (updated_back ts i _ _ j tj Hi Hj) as [[-> ->]|[_ Hj0]].
    + discriminate.
    + destruct (Iw j tj g Hj0 Hwj) as [(k & tk & Hk & Hok)|Hres];
        [|now right].
      left.
      destruct (updated_forth ts i _ (Delivering f e) k tk Hi Hk)
        as (tk' & Hk' & [(-> & -> & ->)|(_ & ->)]).
      * exists i, (Delivering f e). now split.
      * exists k, tk. now split.
Qed.

(** The filler sets its future. *)
Lemma single_flight_deliver c ts i f e :
  single_flight (c, ts) ->
  ts !! i = Some (Delivering f e) ->
  single_flight (with_futures (Future.Set_ (futures c) f e) c,
                 <[i := Filled f e]> ts).
Proof.
  intros [Im Is Io Iu Ig Iw] Hi. simpl in *.
  assert (Hf : futures c !! f = Some None) by (eapply Iu; eauto).
  assert (HSet : Future.Set_ (futures c) f e = <[f := Some e]> (futures c)).
  { unfold Future.Set_. now rewrite Hf. }
  assert (Hkeep : forall g o, g <> f -> futures c !! g = Some o ->
                              <[f := Some e]> (futures c) !! g = Some o).
  { intros g o Hg Hgo. rewrite list_lookup_insert_ne; [exact Hgo|congruence]. }
  constructor; simpl; rewrite ?HSet.
  - exact Im.
  - intros g. rewrite Is. split.
    + intros (j & tj & Hj & Hfj).
      destruct (updated_forth ts i _ (Filled f e) j tj Hi Hj)
        as (tj' & Hj' & [(-> & -> & ->)|(_ & ->)]).
      * discriminate.
      * exists j, tj. now split.
    + intros (j & tj' & Hj' & Hfj).
      destruct (updated_back ts i _ _ j tj' Hi Hj') as [[-> ->]|[_ Hj]].
      * discriminate.
      * exists j, tj'. now split.
  - intros j k tj tk g Hj Hk Hoj Hok.
    destruct (updated_back ts i _ _ j tj Hi Hj) as [[-> ->]|[_ Hj0]];
      [discriminate|].
    destruct (updated_back ts i _ _ k tk Hi Hk) as [[-> ->]|[_ Hk0]];
      [discriminate|].
    eapply (Io j k tj tk g); eauto.
  - intros j tj g Hj Hoj.
    destruct (updated_back ts i _ _ j tj Hi Hj) as [[-> ->]|[Hn Hj0]];
      [discriminate|].
    apply Hkeep; [|eapply Iu; eauto].
    intros ->. destruct Hn. eapply (Io j i tj (Delivering f e) f); eauto.
  - intros j tj g e0 Hj Hgj.
    destruct (updated_back ts i _ _ j tj Hi Hj) as [[-> ->]|[_ Hj0]].
    + simpl in Hgj. injection Hgj as <- <-.
      apply list_lookup_insert_eq. eapply lookup_lt_Some; eauto.
    + apply Hkeep; [|eapply Ig; eauto].
      intros ->. rewrite (Ig j tj f e0 Hj0 Hgj) in Hf. discriminate.
  - intros j tj g Hj Hwj.
    destruct (updated_back ts i _ _ j tj Hi Hj) as [[-> ->]|[_ Hj0]];
      [discriminate|].
    destruct (decide (g = f)) as [->|Hgf].
    { right. exists e. apply list_lookup_insert_eq.
      eapply lookup_lt_Some; eauto. }
    destruct (Iw j tj g Hj0 Hwj) as [(k & tk & Hk & Hok)|[e0 He0]].
    + left.
      destruct (updated_forth ts i _ (Filled f e) k tk Hi Hk)
        as (tk' & Hk' & [(-> & -> & ->)|(_ & ->)]).
      * simpl in Hok. congruence.
      * exists k, tk. now split.
    + right. exists e0. now apply Hkeep.
Qed.

(** A new caller arrives. *)
Lemma single_flight_arrive c ts :
  single_flight (c, ts) -> single_flight (c, ts ++ [Running]).
Proof.
  intros [Im Is Io Iu Ig Iw]. simpl in *.
  assert (Hold : forall j tj, (ts ++ [Running]) !! j = Some tj ->
                   ts !! j = Some tj \/ tj = Running).
  { intros j tj Hj. apply lookup_snoc_Some in Hj as [[_ Hj]|[_ <-]]; auto. }
  assert (Hnew : forall j tj, ts !! j = Some tj ->
                              (ts ++ [Running]) !! j = Some tj).
  { intros j tj Hj. rewrite lookup_app_l; [exact Hj|].
    eapply lookup_lt_Some; eauto. }
  constructor; simpl.
  - exact Im.
  - intros f. rewrite Is. split.
    + intros (j & tj & Hj & Hfj). exists j, tj. split; auto.
    + intros (j & tj & Hj & Hfj). destruct (Hold j tj Hj) as [Hj0| ->].
      * exists j, tj. now split.
      * discriminate.
  - intros j k tj tk f Hj Hk Hoj Hok.
    destruct (Hold j tj Hj) as [Hj0| ->]; [|discriminate].
    destruct (Hold k tk Hk) as [Hk0| ->]; [|discriminate].
    eapply (Io j k tj tk f); eauto.
  - intros j tj f Hj Hoj.
    destruct (Hold j tj Hj) as [Hj0| ->]; [|discriminate]. eapply Iu; eauto.
  - intros j tj f e Hj Hgj.
    destruct (Hold j tj Hj) as [Hj0| ->]; [|discriminate]. eapply Ig; eauto.
  - intros j tj f Hj Hwj.
    destruct (Hold j tj Hj) as [Hj0| ->]; [|discriminate].
    destruct (Iw j tj f Hj0 Hwj) as [(k & tk & Hk & Hok)|Hres]; [|now right].
    left. exists k, tk. split; auto.
Qed.

(** A critical section does not read from the transport. *)
Ltac no_read_tac H :=
  cbv beta iota zeta delta
    [handshake read write shutdown getErrorHandler log with_ext with_mtx
     with_is_shutdown with_want_read_future with_futures bind ret gets modify
     call query Lock Unlock go_flushOutputBuffer ext is_shutdown mtx
     want_read_future futures trace fst snd Future.NewFuture] in H;
  repeat match type of H with
         | context [if ?b then _ else _] => destruct b
         end;
  try match type of H with
      | context [match ?o with Some _ => _ | None => _ end] => destruct o
      end;
  inversion H; subst; simpl; rewrite ?count_app; unfold count; simpl; lia.

Lemma critical_no_read c cb c' :
  critical E c cb c' ->
  count is_read_from_once (trace c') = count is_read_from_once (trace c).
Proof.
  intros [cb0 c0 H|b n cb0 c0 H|b n cb0 c0 H|cb0 c0 H];
    destruct c as [x sd mt slot h tr]; no_read_tac H.
Qed.

(** The three steps of a filler are the code of the fill handler. *)
Lemma fill_handler_in_phases n f c e c1 :
  fillInputBuffer E n c = Ret e c1 ->
  mtx c1 = false ->
  handleError E (S n) (Some (cb_fill f)) c
  = Ret (if is_nil e then Some tryAgain else e)
        (with_futures
           (Future.Set_ (futures (cleared c1)) f
                        (if is_nil e then Some tryAgain else e))
           (cleared c1)).
Proof.
  intros Hf Hm. rewrite handleError_fill. unfold bind at 1. rewrite Hf.
  unfold resolve. unfold_monad. rewrite Hm. reflexivity.
Qed.

(** The step of a woken waiter is the code of the waiting handler. *)
Lemma wait_handler_returns n f c e :
  Future.Get (futures c) f = Some e ->
  handleError E (S n) (Some (cb_wait f)) c = Ret e c.
Proof. intros H. cbn [handleError]. now rewrite H. Qed.

Lemma single_flight_initial c :
  mtx c = false -> want_read_future c = None -> single_flight (c, []).
Proof.
  intros Hm Hs. constructor; simpl; try (intros; discriminate).
  - exact Hm.
  - intros f. rewrite Hs. split; [discriminate|].
    intros (i & t & Hi & _). discriminate.
Qed.

Lemma handling_quiet cb :
  filling (Handling cb) = None ->
  owning (Handling cb) = None.
Proof. destruct cb; simpl; congruence. Qed.

Lemma pstep_single_flight p q :
  single_flight p -> pstep E p q -> single_flight q.
Proof.
  intros Hp Hstep.
  destruct Hstep as [c ts|c ts i cb c' Hi Hm Hc|c ts i c' Hi Hm Hc
                    |c ts i n e c' Hi Hm Hc|c ts i f n e c' Hi Hc
                    |c ts i f e Hi Hm|c ts i f e Hi|c ts i f e Hi Hg
                    |c ts i cb n e c' Hi Hnf Hnw Hc|c ts i t Hi Hfin
                    |c ts e c' Hc].
  - now apply single_flight_arrive.
  - destruct (critical_attaches c (Some cb) c' Hm Hc) as [Ha Hm'].
    destruct Ha as [(S & F & Hnofill & Hw)|(S0 & Hcb & S1 & F1)].
    + assert (Hq : filling (Handling cb) = None).
      { destruct cb as [ |f|f| |e]; try reflexivity.
        now destruct (Hnofill f). }
      apply (single_flight_caller c' ts i Running (Handling cb)).
      * apply (single_flight_conn c); auto. rewrite F. apply heap_kept_refl.
      * exact Hi.
      * exact Hq.
      * now apply handling_quiet.
      * intros f e Hg. destruct cb; discriminate.
      * intros f Hwf. right. rewrite S. apply Hw.
        destruct cb as [ |g|g| |e]; try discriminate.
        simpl in Hwf. congruence.
    + injection Hcb as ->. now apply single_flight_new_fill.
  - destruct (critical_attaches c None c' Hm Hc) as [Ha Hm'].
    destruct Ha as [(S & F & _)|(_ & Hcb & _)]; [|discriminate].
    apply (single_flight_caller c' ts i Running (Returned None)).
    + apply (single_flight_conn c); auto. rewrite F. apply heap_kept_refl.
    + exact Hi.
    + reflexivity.
    + reflexivity.
    + intros; discriminate.
    + intros; discriminate.
  - destruct (frames_all n) as (Hfr & _).
    destruct (releases_all E n) as (Hrel & _).
    destruct (Hfr _ _ _ Hc) as [S K].
    apply (single_flight_caller c' ts i Running (Returned e)).
    + apply (single_flight_conn c); eauto.
    + exact Hi.
    + reflexivity.
    + reflexivity.
    + intros; discriminate.
    + intros; discriminate.
  - destruct (frames_all n) as (_ & _ & _ & Hfr).
    destruct (releases_all E n) as (_ & _ & _ & Hrel).
    destruct (Hfr _ _ _ Hc) as [S K].
    apply (single_flight_caller c' ts i (Handling (cb_fill f))
             (Resolving f (if is_nil e then Some tryAgain else e))).
    + apply (single_flight_conn c); eauto. eapply Hrel; eauto. apply Hp.
    + exact Hi.
    + reflexivity.
    + reflexivity.
    + intros; discriminate.
    + intros; discriminate.
  - now apply single_flight_clear.
  - now apply single_flight_deliver.
  - apply (single_flight_caller c ts i (Handling (cb_wait f)) (Woken f e)).
    + exact Hp.
    + exact Hi.
    + reflexivity.
    + reflexivity.
    + intros g e0 [= <- <-]. unfold Future.Get in Hg.
      destruct (futures c !! f) as [[e1|]|]; congruence.
    + intros; discriminate.
  - destruct (frames_all n) as (_ & _ & Hh & _).
    destruct (releases_all E n) as (_ & _ & Hrel & _).
    specialize (Hh (Some cb) c e c' Hc).
    assert (Hfr : want_read_future c' = want_read_future c /\
                  heap_kept None (futures c) (futures c')).
    { destruct cb as [ |g|g| |e0]; try exact Hh. discriminate. }
    destruct Hfr as [S K].
    apply (single_flight_caller c' ts i (Handling cb) (Returned e)).
    + apply (single_flight_conn c); eauto. eapply Hrel; eauto. apply Hp.
    + exact Hi.
    + now rewrite Hnf.
    + now rewrite handling_quiet.
    + intros; discriminate.
    + intros; discriminate.
  - assert (filling t = None /\ owning t = None) as [Hf Ho].
    { destruct t as [ |cb|f e|f e|f e|f e|e]; try discriminate; now split. }
    apply (single_flight_caller c ts i t Running).
    + exact Hp.
    + exact Hi.
    + now rewrite Hf.
    + now rewrite Ho.
    + intros; discriminate.
    + intros; discriminate.
  - destruct (frames_flushOutputBuffer _ _ _ Hc) as [S K].
    apply (single_flight_conn c); auto.
    rewrite (leaves_flushOutputBuffer E _ _ _ Hc). apply Hp.
Qed.

Lemma psteps_cons p q r : pstep E p q -> psteps E q r -> psteps E p r.
Proof.
  intros Hpq Hqr. induction Hqr as [|r s _ IH Hstep].
  - eapply psteps_step; [apply psteps_refl|exact Hpq].
  - eapply psteps_step; [exact IH|exact Hstep].
Qed.

Lemma psteps_single_flight p q :
  single_flight p -> psteps E p q -> single_flight q.
Proof.
  intros Hp Hsteps. induction Hsteps as [|q r _ IH Hstep]; [exact Hp|].
  eapply pstep_single_flight; eauto.
Qed.


End SingleFlight.




(** ** The statements on concrete connections *)

Section Concrete.

Import Scripted.

Local Abbreviation run := Scripted.externals.

Lemma reads_productive (x : world) :
  exists k, productive_within run k x = true.
Proof.
  destruct x as [st la qu rd wr cl eo]. revert st la.
  induction rd as [|[z e] rd IH]; intros st la.
  - exists 1%nat. reflexivity.
  - destruct (IH st la) as [k Hk]. exists (S k).
    cbn [productive_within]. apply orb_true_iff. right. exact Hk.
Qed.

Lemma Close_always_closes_transport_witness :
  (exists e c',
     Close run 5 (fresh failing_world) = Ret e c' /\
     e = Some (combined [errors_New "SSL errors"; close_failed]) /\
     count is_conn_close (trace c') = 1%nat) /\
  (exists N e c',
     (forall m, (N < m)%nat -> Close run m (fresh failing_world) = Ret e c') /\
     count is_conn_close (trace c') = 1%nat).
Proof.
  destruct (Close_always_closes_transport run 4 (fresh failing_world)
              ssl_errors
              (state_of (shutdownLoop run 4 0
                           (marked_shutdown (fresh failing_world))))
              eq_refl eq_refl) as [Hgiven Hreturns].
  split.
  - destruct (Hgiven ltac:(vm_compute; reflexivity))
      as (e & c' & Hc & _ & _ & Hn & _ & _ & _ & Hboth).
    exists e, c'. split; [exact Hc|]. split; [|exact Hn].
    apply Hboth; reflexivity.
  - exact (Hreturns eq_refl reads_productive).
Defined.

Lemma shutdownLoop_two_attempts_witness :
  (count is_shutdown_step
     (trace (state_of (shutdownLoop run 7 0 (closed stalling_world))))
   <= 0 + 2)%nat /\
  (exists c4,
     shutdownLoop run 7 0 (closed stalling_world)
     = Ret (Some (errors_New "shutdown requested a third time?")) c4 /\
     count is_shutdown_step (trace c4) = 2%nat) /\
  (exists N e c', forall m, (N < m)%nat ->
     shutdownLoop run m 0 (closed stalling_world) = Ret e c').
Proof.
  split; [|split].
  - apply (shutdownLoop_two_attempts run 7 (closed stalling_world) eq_refl).
  - destruct (shutdownLoop_two_attempts run 5 (closed stalling_world)
                eq_refl) as (_ & Hthird & _).
    eexists. split.
    + eapply Hthird; vm_compute; reflexivity.
    + vm_compute. reflexivity.
  - apply (shutdownLoop_two_attempts run 0 (closed stalling_world) eq_refl);
      [reflexivity|reflexivity|exact reads_productive].
Defined.


Lemma syscall_fault_classification_witness :
  getErrorHandler run 0 econnreset (fresh (syscall_world 0))
  = Ret (cb_const (Some (errors_New "protocol-violating EOF")))
        (log EvPeekError (log EvGetError (fresh (syscall_world 0)))) /\
  getErrorHandler run (-1) econnreset (fresh (syscall_world (-1)))
  = Ret (cb_const econnreset)
        (log EvPeekError (log EvGetError (fresh (syscall_world (-1))))) /\
  getErrorHandler run (-2) econnreset (fresh (syscall_world (-2)))
  = Ret (cb_const ssl_errors)
        (log EvErrorQueue
           (log EvPeekError (log EvGetError (fresh (syscall_world (-2)))))).
Proof.
  split; [|split].
  - apply (syscall_fault_classification run 0 0 econnreset
             (fresh (syscall_world 0)) eq_refl); reflexivity.
  - apply (syscall_fault_classification run 0 (-1) econnreset
             (fresh (syscall_world (-1))) eq_refl); reflexivity.
  - apply (syscall_fault_classification run 0 (-2) econnreset
             (fresh (syscall_world (-2))) eq_refl).
    right. split; discriminate.
Defined.

(** C4 as worded does not hold: a negative return value other than -1
    (here -2), with an empty error queue, does not surface the captured
    errno; the handler returns the error drawn from the error queue. *)
Lemma syscall_fault_negative_is_not_always_errno :
  SSL_get_error run (-2) (syscall_world (-2)) = SSL_ERROR_SYSCALL /\
  ERR_peek_error run (syscall_world (-2)) = 0 /\
  -2 < 0 /\
  ~ exists c',
      getErrorHandler run (-2) econnreset (fresh (syscall_world (-2)))
      = Ret (cb_const econnreset) c'.
Proof.
  repeat split; try reflexivity. intros [c' H]. vm_compute in H.
  discriminate H.
Qed.

Lemma closed_connection_fails_at_once_witness :
  Handshake run 2 (closed quiet_world)
  = Ret (Some io_ErrUnexpectedEOF) (log EvGoFlush (peeked (closed quiet_world))) /\
  Read run 2 one_byte (closed quiet_world)
  = Ret (0, Some io_EOF) (peeked (closed quiet_world)) /\
  Write run 2 one_byte (closed quiet_world)
  = Ret (0, Some (errors_New "connection closed")) (peeked (closed quiet_world)) /\
  count is_step (trace (log EvGoFlush (peeked (closed quiet_world)))) = 0%nat.
Proof.
  destruct (closed_connection_fails_at_once run 0 one_byte
              (closed quiet_world) eq_refl eq_refl ltac:(discriminate))
    as (HH & HR & HW & HT & _).
  split; [exact HH|]. split; [exact HR|]. split; [exact HW|].
  rewrite HT. reflexivity.
Defined.

(** C5 as worded does not hold: on a shut-down connection [Read] and
    [Write] with a zero-length buffer do not fail, they return (0, nil) as
    on any other connection. *)
Lemma closed_connection_empty_buffer_does_not_fail :
  is_shutdown (closed quiet_world) = true /\
  Read run 2 [] (closed quiet_world) = Ret (0, None) (closed quiet_world) /\
  Write run 2 [] (closed quiet_world) = Ret (0, None) (closed quiet_world) /\
  (~ exists c', Read run 2 [] (closed quiet_world) = Ret (0, Some io_EOF) c') /\
  (~ exists c', Write run 2 [] (closed quiet_world)
                = Ret (0, Some (errors_New "connection closed")) c').
Proof.
  split; [reflexivity|]. split; [reflexivity|]. split; [reflexivity|].
  split; intros [c' H]; discriminate H.
Qed.

Lemma Write_flushes_before_returning_witness :
  exists c',
    Write run 2 one_byte (fresh quiet_world) = Ret (1, None) c' /\
    trace c' = [EvLock; EvStep OpWrite; EvUnlock; EvWriteTo].
Proof.
  destruct (Write_flushes_before_returning run 0 one_byte (fresh quiet_world)
              1 None quiet_world 0 None quiet_world
              ltac:(discriminate) eq_refl eq_refl eq_refl ltac:(lia) eq_refl)
    as (c' & HW & HT & _).
  exists c'. split; [exact HW|exact HT].
Defined.

Lemma Close_idempotent_witness :
  exists c',
    Close run 5 (fresh quiet_world) = Ret None c' /\
    Close run 1 c' = Ret None (peeked c') /\
    count is_conn_close (trace (peeked c')) = 1%nat /\
    count is_shutdown_step (trace (peeked c')) = 1%nat.
Proof.
  exists (state_of (Close run 5 (fresh quiet_world))).
  destruct (Close_idempotent run 5 0 (fresh quiet_world) None
              (state_of (Close run 5 (fresh quiet_world)))
              eq_refl ltac:(vm_compute; reflexivity))
    as (_ & H2 & _).
  split; [vm_compute; reflexivity|]. split; [exact H2|].
  split; vm_compute; reflexivity.
Defined.

Lemma fillInputBuffer_EOF_calls_Close_witness :
  exists c',
    fillInputBuffer run 6 (fresh quiet_world) = Ret None c' /\
    is_shutdown c' = true /\
    eof_marked (ext c') = true /\
    count is_shutdown_step (trace c') = 1%nat /\
    count is_conn_close (trace c') = 1%nat.
Proof.
  destruct (fillInputBuffer_EOF_calls_Close run 4 (fresh quiet_world)
              0 quiet_world eq_refl)
    as (_ & _ & _ & _ & Hopen).
  destruct (Hopen eq_refl eq_refl None
              (state_of (shutdownLoop run 4 0
                 (marked_shutdown (at_EOF run quiet_world (fresh quiet_world)))))
              ltac:(vm_compute; reflexivity)) as [Hfill _].
  eexists. split; [exact Hfill|].
  repeat split; vm_compute; reflexivity.
Defined.

(** C10 as worded does not hold: on a connection that is already shut
    down, the [Close] a fill calls at end-of-stream makes no shutdown step
    and does not close the transport. *)
Lemma fillInputBuffer_EOF_on_closed_connection :
  ReadFromOnce run (ext (closed quiet_world)) = ((0, Some io_EOF), quiet_world) /\
  exists c',
    fillInputBuffer run 6 (closed quiet_world) = Ret None c' /\
    trace c' = [EvReadFromOnce; EvMarkEOF; EvLock; EvUnlock] /\
    count is_shutdown_step (trace c') = 0%nat /\
    count is_conn_close (trace c') = 0%nat.
Proof.
  split; [reflexivity|]. eexists. split; [vm_compute; reflexivity|].
  repeat split.
Qed.


End Concrete.

(** ** The mutex around the engine *)

Section Discipline.

Context {X : Type} (E : Externals X).

Implicit Types c : Conn X.

Lemma well_locked_app held evs1 evs2 :
  well_locked held (evs1 ++ evs2) =
  match well_locked held evs1 with
  | Some held' => well_locked held' evs2
  | None => None
  end.
Proof.
  revert held. induction evs1 as [|ev evs1 IH]; intros held; [reflexivity|].
  destruct ev, held; simpl; auto.
Qed.

Lemma disciplined_bind {A B} p q r (m : M X A) (k : A -> M X B) :
  disciplined p q m -> (forall a, disciplined q r (k a)) ->
  disciplined p r (bind m k).
Proof.
  intros Hm Hk c Hc. destruct (Hm c Hc) as [(evs & T & W) R].
  unfold bind. destruct (m c) as [a c1|c1|c1]; simpl in *.
  - destruct (Hk a c1 (R a c1 eq_refl)) as [(evs2 & T2 & W2) R2].
    split; [|exact R2].
    exists (evs ++ evs2). split.
    + now rewrite T2, T, app_assoc.
    + rewrite well_locked_app, W, (R a c1 eq_refl). exact W2.
  - split; [|discriminate]. now exists evs.
  - split; [|discriminate]. now exists evs.
Qed.

Lemma disciplined_same {A} p (m : M X A) :
  (forall c, exists a c', m c = Ret a c' /\ mtx c' = mtx c /\ trace c' = trace c) ->
  disciplined p p m.
Proof.
  intros H c Hc. destruct (H c) as (a & c' & Hm & Hx & Ht). rewrite Hm.
  split.
  - exists []. simpl. now rewrite app_nil_r, Ht, Hx, Hc.
  - intros a' c'' K. inversion K; subst. congruence.
Qed.

Lemma disciplined_ret {A} p (a : A) : disciplined (X:=X) p p (ret a).
Proof. apply disciplined_same. intros c. now exists a, c. Qed.

Lemma disciplined_gets {A} p (f : Conn X -> A) : disciplined p p (gets f).
Proof. apply disciplined_same. intros c. now exists (f c), c. Qed.

Lemma disciplined_modify p (f : Conn X -> Conn X) :
  (forall c, mtx (f c) = mtx c) -> (forall c, trace (f c) = trace c) ->
  disciplined p p (modify f).
Proof. intros H1 H2. apply disciplined_same. intros c. now exists tt, (f c). Qed.

Lemma disciplined_out_of_fuel {A} p q :
  disciplined (X:=X) (A:=A) p q out_of_fuel.
Proof.
  intros c Hc. split; [|discriminate].
  exists []. simpl. now rewrite app_nil_r, Hc.
Qed.

Lemma disciplined_Lock : disciplined (X:=X) false true Lock.
Proof.
  intros c Hc. unfold Lock. rewrite Hc. simpl. split.
  - now exists [EvLock].
  - intros a c' K. now inversion K.
Qed.

Lemma disciplined_Unlock : disciplined (X:=X) true false Unlock.
Proof.
  intros c Hc. unfold Unlock. simpl. split.
  - now exists [EvUnlock].
  - intros a c' K. now inversion K.
Qed.

Lemma disciplined_go p : disciplined (X:=X) p p go_flushOutputBuffer.
Proof.
  intros c Hc. unfold go_flushOutputBuffer, modify. simpl. split.
  - exists [EvGoFlush]. now rewrite Hc.
  - intros a c' K. now inversion K.
Qed.

Lemma disciplined_engine_call {A} ev (f : X -> A * X) :
  is_engine_call ev = true -> disciplined true true (call ev f).
Proof.
  intros Hev c Hc. unfold call. simpl. split.
  - exists [ev]. rewrite Hc. split; [reflexivity|]. now destruct ev.
  - intros a c' K. now inversion K.
Qed.

Lemma disciplined_engine_query {A} ev (f : X -> A) :
  is_engine_call ev = true -> disciplined true true (query ev f).
Proof.
  intros Hev c Hc. unfold query. simpl. split.
  - exists [ev]. rewrite Hc. split; [reflexivity|]. now destruct ev.
  - intros a c' K. now inversion K.
Qed.

Lemma disciplined_transport_call {A} ev (f : X -> A * X) :
  is_transport_call ev = true -> disciplined false false (call ev f).
Proof.
  intros Hev c Hc. unfold call. simpl. split.
  - exists [ev]. rewrite Hc. split; [reflexivity|]. now destruct ev.
  - intros a c' K. now inversion K.
Qed.

Lemma disciplined_MarkEOF :
  disciplined false false
    (modify (fun c => log EvMarkEOF (with_ext (MarkEOF E (ext c)) c))).
Proof.
  intros c Hc. unfold modify. simpl. split.
  - exists [EvMarkEOF]. now rewrite Hc.
  - intros a c' K. now inversion K.
Qed.

Ltac disciplined_step :=
  first
    [ apply disciplined_ret
    | apply disciplined_gets
    | apply disciplined_out_of_fuel
    | apply disciplined_Lock
    | apply disciplined_Unlock
    | apply disciplined_go
    | apply disciplined_MarkEOF
    | apply disciplined_engine_call; reflexivity
    | apply disciplined_engine_query; reflexivity
    | apply disciplined_transport_call; reflexivity
    | apply disciplined_modify; intros; reflexivity ].

Ltac disciplined_tac :=
  repeat
    first
      [ disciplined_step
      | eapply disciplined_bind; [disciplined_step|intros]
      | match goal with
        | |- disciplined _ _ (if ?b then _ else _) => destruct b
        | |- disciplined _ _ (match ?x with _ => _ end) => destruct x
        end ].

Lemma disciplined_flushOutputBuffer :
  disciplined false false (flushOutputBuffer E).
Proof. unfold flushOutputBuffer. disciplined_tac. Qed.

Lemma disciplined_getErrorHandler rv errno :
  disciplined true true (getErrorHandler E rv errno).
Proof. unfold getErrorHandler. disciplined_tac. Qed.

Lemma disciplined_shutdown : disciplined false false (shutdown E).
Proof.
  unfold shutdown. disciplined_tac;
    (eapply disciplined_bind; [apply disciplined_getErrorHandler|intros]);
    disciplined_tac.
Qed.

Lemma disciplined_handshake : disciplined false false (handshake E).
Proof.
  unfold handshake. disciplined_tac.
  eapply disciplined_bind; [apply disciplined_getErrorHandler|intros].
  disciplined_tac.
Qed.

Lemma disciplined_read b : disciplined false false (read E b).
Proof.
  unfold read. disciplined_tac.
  eapply disciplined_bind; [apply disciplined_getErrorHandler|intros].
  disciplined_tac.
Qed.

Lemma disciplined_write b : disciplined false false (write E b).
Proof.
  unfold write. disciplined_tac.
  eapply disciplined_bind; [apply disciplined_getErrorHandler|intros].
  disciplined_tac.
Qed.

Lemma disciplined_resolve f e : disciplined (X:=X) false false (resolve f e).
Proof. unfold resolve. disciplined_tac. Qed.

Lemma disciplined_wait f :
  disciplined (X:=X) false false
    (fun c => match Future.Get (futures c) f with
              | Some e => Ret e c
              | None => Blocked c
              end).
Proof.
  intros c Hc. split.
  - exists []. rewrite app_nil_r.
    destruct (Future.Get (futures c) f); simpl; now rewrite Hc.
  - intros a c' K. destruct (Future.Get (futures c) f); inversion K.
    now subst.
Qed.

Lemma disciplined_all n :
  disciplined false false (Close E n) /\
  (forall tries, disciplined false false (shutdownLoop E n tries)) /\
  (forall cb, disciplined false false (handleError E n cb)) /\
  disciplined false false (fillInputBuffer E n).
Proof.
  induction n as [|n (IHc & IHl & IHh & IHf)].
  { split; [|split; [|split]]; intros; apply disciplined_out_of_fuel. }
  split; [|split; [|split]].
  - simpl. disciplined_tac.
    eapply disciplined_bind; [apply IHl|intros]. disciplined_tac.
  - intros tries. simpl.
    eapply disciplined_bind; [apply disciplined_shutdown|intros cb].
    eapply disciplined_bind; [apply IHh|intros e].
    destruct (is_nil e); [apply disciplined_flushOutputBuffer|].
    destruct (is_tryAgain e && _); [apply disciplined_ret|].
    destruct (is_tryAgain e); [apply IHl|].
    destruct (is_io_ErrUnexpectedEOF e); apply disciplined_ret.
  - intros [[ |f|f| |e]|]; simpl; try apply disciplined_ret.
    + eapply disciplined_bind; [apply IHc|intros]. apply disciplined_ret.
    + apply disciplined_wait.
    + eapply disciplined_bind; [apply IHf|intros e].
      eapply disciplined_bind; [apply disciplined_resolve|intros].
      apply disciplined_ret.
    + eapply disciplined_bind; [apply disciplined_flushOutputBuffer|intros e].
      destruct (is_nil e); apply disciplined_ret.
  - simpl. eapply disciplined_bind;
      [apply disciplined_transport_call; reflexivity|intros r].
    destruct ((r.1 =? 0) && is_nil r.2); [apply IHf|].
    destruct (is_io_EOF r.2); [|apply disciplined_ret].
    eapply disciplined_bind; [apply disciplined_MarkEOF|intros]. apply IHc.
Qed.

Lemma disciplined_Handshake n : disciplined false false (Handshake E n).
Proof.
  induction n as [|n IH]; simpl; [apply disciplined_out_of_fuel|].
  eapply disciplined_bind; [apply disciplined_handshake|intros cb].
  eapply disciplined_bind; [apply disciplined_all|intros e].
  destruct (is_tryAgain e); [exact IH|]. disciplined_tac.
Qed.

Lemma disciplined_Read n b : disciplined false false (Read E n b).
Proof.
  unfold Read. destruct (len b =? 0); [apply disciplined_ret|].
  induction n as [|n IH]; simpl; [apply disciplined_out_of_fuel|].
  eapply disciplined_bind; [apply disciplined_read|intros r].
  eapply disciplined_bind; [apply disciplined_all|intros e].
  destruct (is_nil e); [disciplined_tac|].
  destruct (is_tryAgain _); [exact IH|apply disciplined_ret].
Qed.

Lemma disciplined_Write n b : disciplined false false (Write E n b).
Proof.
  unfold Write. destruct (len b =? 0); [apply disciplined_ret|].
  induction n as [|n IH]; simpl; [apply disciplined_out_of_fuel|].
  eapply disciplined_bind; [apply disciplined_write|intros r].
  eapply disciplined_bind; [apply disciplined_all|intros e].
  destruct (is_nil e).
  { eapply disciplined_bind; [apply disciplined_flushOutputBuffer|intros].
    apply disciplined_ret. }
  destruct (is_tryAgain e); [exact IH|apply disciplined_ret].
Qed.


End Discipline.

(** ** The life of a connection *)

Section Life.

Context {X : Type} (E : Externals X).

Implicit Types c : Conn X.

Lemma tame_rise c c' evs :
  (is_shutdown c = true -> is_shutdown c' = true) ->
  trace c' = trace c ++ evs ->
  count is_conn_close evs = 0%nat ->
  count is_shutdown_step evs = 0%nat ->
  tame c c'.
Proof.
  intros F T C S. split; [exact F|]. exists evs. rewrite C, S.
  repeat split; auto; lia.
Qed.

Lemma tame_refl c : tame c c.
Proof. apply (tame_rise c c []); auto. now rewrite app_nil_r. Qed.

Lemma tame_trans c1 c2 c3 : tame c1 c2 -> tame c2 c3 -> tame c1 c3.
Proof.
  intros [F1 (e1 & T1 & C1 & S1 & Z1)] [F2 (e2 & T2 & C2 & S2 & Z2)].
  split; [auto|]. exists (e1 ++ e2).
  rewrite T2, T1, <- app_assoc, !count_app.
  split; [reflexivity|].
  destruct (is_shutdown c2) eqn:H2.
  - destruct (Z2 (or_introl eq_refl)) as [-> ->].
    rewrite !Nat.add_0_r. split; [exact C1|]. split; [exact S1|].
    intros [H|H]; [apply Z1; now left|].
    rewrite (F2 eq_refl) in H. discriminate.
  - destruct (Z1 (or_intror eq_refl)) as [-> ->]. simpl.
    split; [exact C2|]. split; [exact S2|].
    intros [H|H]; [|apply Z2; now right].
    specialize (F1 H). congruence.
Qed.

Lemma grows_tame c c' : is_shutdown c = true -> grows 0 c c' -> tame c c'.
Proof.
  intros _ [F (evs & T & C & S)].
  apply (tame_rise c c' evs); auto. lia.
Qed.

Lemma tames_bind {A B} (m : M X A) (k : A -> M X B) :
  tames m -> (forall a, tames (k a)) -> tames (bind m k).
Proof.
  intros Hm Hk c. specialize (Hm c). unfold bind.
  destruct (m c) as [a c1|c1|c1]; simpl in *; auto.
  eapply tame_trans; [exact Hm|apply Hk].
Qed.

Lemma tames_ret {A} (a : A) : tames (X:=X) (ret a).
Proof. intros c. apply tame_refl. Qed.

Lemma tames_out_of_fuel {A} : tames (X:=X) (A:=A) out_of_fuel.
Proof. intros c. apply tame_refl. Qed.

Lemma tames_gets {A} (f : Conn X -> A) : tames (gets f).
Proof. intros c. apply tame_refl. Qed.

Lemma tames_modify (f : Conn X -> Conn X) :
  (forall c, is_shutdown c = true -> is_shutdown (f c) = true) ->
  (forall c, trace (f c) = trace c) ->
  tames (modify f).
Proof.
  intros H1 H2 c. unfold modify. simpl.
  apply (tame_rise c _ []); auto. rewrite H2. symmetry. apply app_nil_r.
Qed.

Lemma tame_log ev c :
  is_conn_close ev = false -> is_shutdown_step ev = false ->
  tame c (log ev c).
Proof.
  intros H1 H2. apply (tame_rise c _ [ev]); auto;
    unfold count; simpl; now rewrite ?H1, ?H2.
Qed.

Lemma tames_call {A} ev (f : X -> A * X) :
  is_conn_close ev = false -> is_shutdown_step ev = false ->
  tames (call ev f).
Proof.
  intros H1 H2 c. apply (tame_rise c _ [ev]); auto;
    unfold count; simpl; now rewrite ?H1, ?H2.
Qed.

Lemma tames_query {A} ev (f : X -> A) :
  is_conn_close ev = false -> is_shutdown_step ev = false ->
  tames (query ev f).
Proof. intros H1 H2 c. now apply tame_log. Qed.

Lemma tames_Lock : tames (X:=X) Lock.
Proof.
  intros c. unfold Lock. destruct (mtx c); [apply tame_refl|].
  now apply (tame_rise c _ [EvLock]).
Qed.

Lemma tames_Unlock : tames (X:=X) Unlock.
Proof. intros c. now apply (tame_rise c _ [EvUnlock]). Qed.

Lemma tames_go : tames (X:=X) go_flushOutputBuffer.
Proof. intros c. now apply (tame_rise c _ [EvGoFlush]). Qed.

Ltac tames_step :=
  first
    [ apply tames_ret
    | apply tames_gets
    | apply tames_out_of_fuel
    | apply tames_Lock
    | apply tames_Unlock
    | apply tames_go
    | apply tames_call; reflexivity
    | apply tames_query; reflexivity
    | apply tames_modify; intros; solve [reflexivity | assumption] ].

Ltac tames_tac :=
  repeat
    first
      [ tames_step
      | apply tames_bind; [tames_step|intros]
      | match goal with
        | |- tames (if ?b then _ else _) => destruct b
        | |- tames (match ?x with _ => _ end) => destruct x
        end ].

Lemma tames_flushOutputBuffer : tames (flushOutputBuffer E).
Proof. unfold flushOutputBuffer. tames_tac. Qed.

Lemma tames_getErrorHandler rv errno : tames (getErrorHandler E rv errno).
Proof. unfold getErrorHandler. tames_tac. Qed.

Lemma tames_handshake : tames (handshake E).
Proof.
  unfold handshake. tames_tac.
  apply tames_bind; [apply tames_getErrorHandler|intros]. tames_tac.
Qed.

Lemma tames_read b : tames (read E b).
Proof.
  unfold read. tames_tac.
  apply tames_bind; [apply tames_getErrorHandler|intros]. tames_tac.
Qed.

Lemma tames_write b : tames (write E b).
Proof.
  unfold write. tames_tac.
  apply tames_bind; [apply tames_getErrorHandler|intros]. tames_tac.
Qed.

Lemma tames_resolve f e : tames (X:=X) (resolve f e).
Proof. unfold resolve. tames_tac. Qed.

(** [Close] is where the flag is set, the shutdown steps are made and the
    transport is closed. *)
Lemma tames_Close n : tames (Close E n).
Proof.
  intros c. destruct (is_shutdown c) eqn:Hs.
  { apply grows_tame; [exact Hs|]. now apply keeps_Close. }
  destruct n; [apply tame_refl|]. simpl. unfold_monad.
  destruct (mtx c) eqn:Hm; [apply tame_refl|]. simpl. rewrite Hs.
  pose proof (keeps_shutdownLoop E n 0 ltac:(lia) (marked_shutdown c)
                eq_refl) as Hk.
  unfold marked_shutdown, log, with_mtx, with_is_shutdown in Hk.
  simpl in Hk.
  assert (Hpre : count is_conn_close [EvLock; EvUnlock] = 0%nat /\
                 count is_shutdown_step [EvLock; EvUnlock] = 0%nat)
    by (split; reflexivity).
  destruct Hpre as [Hpre1 Hpre2].
  destruct (shutdownLoop E n 0 _) as [e1 c1|c1|c1];
    destruct Hk as [F (evs & T & C & S)]; cbn [state_of trace] in *.
  - split; [intros _; exact F|].
    exists ([EvLock; EvUnlock] ++ evs ++ [EvConnClose]).
    cbn [trace log with_ext is_shutdown].
    rewrite T, F, Hs, !count_app, C, Hpre1, Hpre2.
    change (count is_conn_close [EvConnClose]) with 1%nat.
    change (count is_shutdown_step [EvConnClose]) with 0%nat.
    split; [now rewrite <- !app_assoc|].
    split; [lia|]. split; [lia|]. intros [H|H]; discriminate.
  - split; [intros _; exact F|]. exists ([EvLock; EvUnlock] ++ evs).
    rewrite T, F, Hs, !count_app, C, Hpre1, Hpre2.
    split; [now rewrite <- !app_assoc|].
    split; [lia|]. split; [lia|]. intros [H|H]; discriminate.
  - split; [intros _; exact F|]. exists ([EvLock; EvUnlock] ++ evs).
    rewrite T, F, Hs, !count_app, C, Hpre1, Hpre2.
    split; [now rewrite <- !app_assoc|].
    split; [lia|]. split; [lia|]. intros [H|H]; discriminate.
Qed.

Lemma tames_fillInputBuffer n : tames (fillInputBuffer E n).
Proof.
  induction n as [|n IH]; simpl; [apply tames_out_of_fuel|].
  apply tames_bind; [now apply tames_call|]. intros r.
  destruct ((r.1 =? 0) && is_nil r.2); [exact IH|].
  destruct (is_io_EOF r.2); [|apply tames_ret].
  apply tames_bind; [|intros; apply tames_Close].
  intros c. now apply (tame_rise c _ [EvMarkEOF]).
Qed.

Lemma tames_handleError n cb : tames (handleError E n cb).
Proof.
  destruct n; simpl; [apply tames_out_of_fuel|].
  destruct cb as [[ |f|f| |e]|]; try apply tames_ret.
  - apply tames_bind; [apply tames_Close|]. intros; apply tames_ret.
  - intros c. destruct (Future.Get (futures c) f); apply tame_refl.
  - apply tames_bind; [apply tames_fillInputBuffer|]. intros e.
    apply tames_bind; [apply tames_resolve|]. intros; apply tames_ret.
  - apply tames_bind; [apply tames_flushOutputBuffer|]. intros e.
    destruct (is_nil e); apply tames_ret.
Qed.

Lemma tames_Handshake n : tames (Handshake E n).
Proof.
  induction n as [|n IH]; simpl; [apply tames_out_of_fuel|].
  apply tames_bind; [apply tames_handshake|intros cb].
  apply tames_bind; [apply tames_handleError|intros e].
  destruct (is_tryAgain e); [exact IH|]. tames_tac.
Qed.

Lemma tames_Read n b : tames (Read E n b).
Proof.
  unfold Read. destruct (len b =? 0); [apply tames_ret|].
  induction n as [|n IH]; simpl; [apply tames_out_of_fuel|].
  apply tames_bind; [apply tames_read|intros r].
  apply tames_bind; [apply tames_handleError|intros e].
  destruct (is_nil e); [tames_tac|].
  destruct (is_tryAgain _); [exact IH|apply tames_ret].
Qed.

Lemma tames_Write n b : tames (Write E n b).
Proof.
  unfold Write. destruct (len b =? 0); [apply tames_ret|].
  induction n as [|n IH]; simpl; [apply tames_out_of_fuel|].
  apply tames_bind; [apply tames_write|intros r].
  apply tames_bind; [apply tames_handleError|intros e].
  destruct (is_nil e).
  { apply tames_bind; [apply tames_flushOutputBuffer|intros].
    apply tames_ret. }
  destruct (is_tryAgain e); [exact IH|apply tames_ret].
Qed.

Lemma tames_perform n a : forall c, tame c (perform E n a c).
Proof.
  intros c. destruct a; simpl.
  - apply tames_Handshake.
  - apply tames_Read.
  - apply tames_Write.
  - apply tames_Close.
Qed.

(** X2: over any sequence of Handshake, Read, Write and Close calls on a
    connection, each followed however far it gets, the transport is closed
    at most once and at most two shutdown steps are made; none of either
    happens when the connection was shut down before the sequence, or is
    not shut down after it; and the shutdown flag, once set, stays set. *)
Theorem connection_closes_once calls c :
  (is_shutdown c = true -> is_shutdown (history E calls c) = true) /\
  exists evs, trace (history E calls c) = trace c ++ evs /\
    (count is_conn_close evs <= 1)%nat /\
    (count is_shutdown_step evs <= 2)%nat /\
    (is_shutdown c = true \/ is_shutdown (history E calls c) = false ->
     count is_conn_close evs = 0%nat /\ count is_shutdown_step evs = 0%nat).
Proof.
  change (tame c (history E calls c)).
  revert c. induction calls as [|[n a] calls IH]; intros c.
  - apply tame_refl.
  - eapply tame_trans; [apply (tames_perform n a)|]. apply IH.
Qed.

End Life.

(** ** What the operations return *)

Section Results.

Context {X : Type} (E : Externals X).

Implicit Types c : Conn X.

Lemma yields_bind {A B} (Q : A -> Conn X -> Prop) (P : B -> Conn X -> Prop)
      (m : M X A) (k : A -> M X B) :
  yields Q m -> (forall a, (exists c, Q a c) -> yields P (k a)) ->
  yields P (bind m k).
Proof.
  intros Hm Hk c b c' H. unfold bind in H.
  destruct (m c) as [a c1|c1|c1] eqn:Hmc; try discriminate.
  eapply Hk; [|exact H]. exists c1. eapply Hm. exact Hmc.
Qed.

Lemma yields_any {A} (m : M X A) : yields (fun _ _ => True) m.
Proof. intros c a c' _. exact I. Qed.

Lemma yields_then {A B} (P : B -> Conn X -> Prop) (m : M X A)
      (k : A -> M X B) :
  (forall a, yields P (k a)) -> yields P (bind m k).
Proof.
  intros Hk. apply (yields_bind (fun _ _ => True)); [apply yields_any|].
  intros a _. apply Hk.
Qed.

Lemma yields_ret {A} (P : A -> Conn X -> Prop) (a : A) :
  (forall c, P a c) -> yields P (ret a).
Proof. intros H c a' c' K. inversion K; subst. apply H. Qed.

Lemma yields_out_of_fuel {A} (P : A -> Conn X -> Prop) :
  yields P out_of_fuel.
Proof. intros c a c' K. discriminate. Qed.

(** The count a critical section of [read] or [write] reports is never
    negative. *)
Lemma read_count b : yields (fun r _ => 0 <= r.1) (read E b).
Proof.
  unfold read. destruct (len b =? 0); [now apply yields_ret|].
  apply yields_then; intros _. apply yields_then; intros sd.
  destruct sd; [apply yields_then; intros _; now apply yields_ret|].
  apply yields_then; intros r. destruct (r.1 >? 0) eqn:Hr.
  - apply yields_then; intros _. apply yields_ret. intros _. simpl. lia.
  - apply yields_then; intros cb. apply yields_then; intros _.
    now apply yields_ret.
Qed.

Lemma write_count b : yields (fun r _ => 0 <= r.1) (write E b).
Proof.
  unfold write. destruct (len b =? 0); [now apply yields_ret|].
  apply yields_then; intros _. apply yields_then; intros sd.
  destruct sd; [apply yields_then; intros _; now apply yields_ret|].
  apply yields_then; intros r. destruct (r.1 >? 0) eqn:Hr.
  - apply yields_then; intros _. apply yields_ret. intros _. simpl. lia.
  - apply yields_then; intros cb. apply yields_then; intros _.
    now apply yields_ret.
Qed.

Lemma Handshake_result n :
  yields (fun e _ => is_tryAgain e = false) (Handshake E n).
Proof.
  induction n as [|n IH]; simpl; [apply yields_out_of_fuel|].
  apply yields_then; intros cb. apply yields_then; intros e.
  destruct (is_tryAgain e) eqn:He; [exact IH|].
  apply yields_then; intros _. now apply yields_ret.
Qed.

Lemma Read_loop_result n b :
  yields (fun r _ =>
            (r.2 = None /\ 0 <= r.1) \/
            (r.1 = 0 /\ r.2 <> None /\ is_tryAgain r.2 = false /\
             is_io_ErrUnexpectedEOF r.2 = false))
         (Read_loop E n b).
Proof.
  induction n as [|n IH]; simpl; [apply yields_out_of_fuel|].
  eapply yields_bind; [apply read_count|]. intros r [_ Hr].
  apply yields_then; intros e. destruct (is_nil e) eqn:Hn.
  { apply yields_then; intros _. apply yields_ret. intros _. now left. }
  destruct (is_tryAgain _) eqn:Ht; [exact IH|].
  apply yields_ret. intros _. right. simpl.
  split; [reflexivity|]. split; [|split; [exact Ht|]].
  - destruct (is_io_ErrUnexpectedEOF e); [discriminate|].
    intros He. rewrite He in Hn. discriminate.
  - destruct (is_io_ErrUnexpectedEOF e) eqn:Hu; [reflexivity|exact Hu].
Qed.

Lemma Write_loop_result n b :
  yields (fun r c' =>
            (0 <= r.1 /\
             exists c0, c' = drained (WriteTo E (ext c0)).2 c0 /\
                        r.2 = (WriteTo E (ext c0)).1.2) \/
            (r.1 = 0 /\ r.2 <> None /\ is_tryAgain r.2 = false))
         (Write_loop E n b).
Proof.
  induction n as [|n IH]; simpl; [apply yields_out_of_fuel|].
  eapply yields_bind; [apply write_count|]. intros r [_ Hr].
  apply yields_then; intros e. destruct (is_nil e) eqn:Hn.
  { intros c r' c' H. unfold flushOutputBuffer in H. unfold_monad.
    inversion H; subst. left. split; [exact Hr|]. now exists c. }
  destruct (is_tryAgain e) eqn:Ht; [exact IH|].
  apply yields_ret. intros c1. right. simpl.
  split; [reflexivity|]. split; [|exact Ht].
  intros He. rewrite He in Hn. discriminate.
Qed.

(** X3: the internal retry signal never reaches the caller.  [Handshake]
    never returns tryAgain.  [Read] on a non-empty buffer returns either a
    count that is not negative with a nil error, or count 0 with an error
    that is neither tryAgain nor io.ErrUnexpectedEOF.  [Write] on a
    non-empty buffer returns either straight after a drain of the output
    buffer, with the drain's error, or count 0 with an error that is not
    nil and not tryAgain. *)
Theorem retry_signal_stays_inside n b c :
  (forall e c', Handshake E n c = Ret e c' -> is_tryAgain e = false) /\
  (forall k e c', b <> [] -> Read E n b c = Ret (k, e) c' ->
     (e = None /\ 0 <= k) \/
     (k = 0 /\ e <> None /\ is_tryAgain e = false /\
      is_io_ErrUnexpectedEOF e = false)) /\
  (forall k e c', b <> [] -> Write E n b c = Ret (k, e) c' ->
     (0 <= k /\
      exists c0, c' = drained (WriteTo E (ext c0)).2 c0 /\
                 e = (WriteTo E (ext c0)).1.2) \/
     (k = 0 /\ e <> None /\ is_tryAgain e = false)).
Proof.
  split; [|split].
  - intros e c' H. exact (Handshake_result n _ _ _ H).
  - intros k e c' Hb H. unfold Read in H. rewrite (len_nonempty b Hb) in H.
    exact (Read_loop_result n b _ _ _ H).
  - intros k e c' Hb H. unfold Write in H. rewrite (len_nonempty b Hb) in H.
    exact (Write_loop_result n b _ _ _ H).
Qed.

End Results.

(** ** One round of an operation *)

Section Rounds.

Context {X : Type} (E : Externals X).

Implicit Types c : Conn X.

Ltac run_round :=
  cbv beta iota zeta delta
    [bind ret gets modify call query Lock Unlock go_flushOutputBuffer
     flushOutputBuffer log with_ext with_mtx with_is_shutdown
     with_want_read_future with_futures
     stepped stalled after_success after_syscall after_fault after_step
     drained peeked
     ext is_shutdown mtx want_read_future futures trace fst snd].

Lemma bind_eq {A B} (m : M X A) (k : A -> M X B) c a c1 :
  m c = Ret a c1 -> bind m k c = k a c1.
Proof. intros H. unfold bind. now rewrite H. Qed.

Lemma Handshake_unfold n c :
  Handshake E (S n) c =
  (cb <- handshake E ;;
   e <- handleError E n cb ;;
   if is_tryAgain e then Handshake E n
   else go_flushOutputBuffer ;; ret e) c.
Proof. reflexivity. Qed.

Lemma Read_loop_unfold n b c :
  Read_loop E (S n) b c =
  (r <- read E b ;;
   e <- handleError E n r.2 ;;
   if is_nil e then go_flushOutputBuffer ;; ret (r.1, None)
   else
     let e := if is_io_ErrUnexpectedEOF e then Some io_EOF else e in
     if is_tryAgain e then Read_loop E n b else ret (0, e)) c.
Proof. reflexivity. Qed.

Lemma Write_loop_unfold n b c :
  Write_loop E (S n) b c =
  (r <- write E b ;;
   e <- handleError E n r.2 ;;
   if is_nil e then e' <- flushOutputBuffer E ;; ret (r.1, e')
   else if is_tryAgain e then Write_loop E n b
   else ret (0, e)) c.
Proof. reflexivity. Qed.

Lemma Read_nonempty n b c : b <> [] -> Read E n b c = Read_loop E n b c.
Proof. intros Hb. unfold Read. now rewrite (len_nonempty b Hb). Qed.

Lemma Write_nonempty n b c : b <> [] -> Write E n b c = Write_loop E n b c.
Proof. intros Hb. unfold Write. now rewrite (len_nonempty b Hb). Qed.

Lemma handleError_none n c : handleError E (S n) None c = Ret None c.
Proof. reflexivity. Qed.

Lemma handleError_const n e c :
  handleError E (S n) (Some (cb_const e)) c = Ret e c.
Proof. reflexivity. Qed.

Lemma handleError_flush n c :
  handleError E (S n) (Some cb_flush) c
  = Ret (if is_nil (WriteTo E (ext c)).1.2 then Some tryAgain
         else (WriteTo E (ext c)).1.2)
        (drained (WriteTo E (ext c)).2 c).
Proof.
  cbn [handleError]. run_round.
  match goal with |- context [if ?b then _ else _] => now destruct b end.
Qed.

(** *** The critical sections, by what the engine step returned *)

Lemma handshake_round c rv errno x1 :
  is_shutdown c = false -> mtx c = false ->
  SSL_do_handshake E (ext c) = ((rv, errno), x1) ->
  handshake E c =
  if rv >? 0 then Ret None (after_success OpHandshake x1 c)
  else (cb <- getErrorHandler E rv errno ;; Unlock ;; ret (Some cb))
         (stepped OpHandshake x1 c).
Proof.
  intros Hs Hm Hr. destruct c as [x sd mt slot h tr].
  cbn [mtx ext is_shutdown] in *. subst. unfold handshake.
  cbv beta iota zeta delta
    [bind ret gets call Lock log with_ext with_mtx
     ext is_shutdown mtx want_read_future futures trace].
  rewrite Hr. cbv beta iota zeta delta [fst snd].
  now destruct (rv >? 0).
Qed.

Lemma read_round b c rv errno x1 :
  b <> [] -> is_shutdown c = false -> mtx c = false ->
  SSL_read E (C_int (len b)) (ext c) = ((rv, errno), x1) ->
  read E b c =
  if rv >? 0 then Ret (rv, None) (after_success OpRead x1 c)
  else (cb <- getErrorHandler E rv errno ;; Unlock ;; ret (0, Some cb))
         (stepped OpRead x1 c).
Proof.
  intros Hb Hs Hm Hr. destruct c as [x sd mt slot h tr].
  cbn [mtx ext is_shutdown] in *. subst. unfold read.
  rewrite (len_nonempty b Hb).
  cbv beta iota zeta delta
    [bind ret gets call Lock log with_ext with_mtx
     ext is_shutdown mtx want_read_future futures trace].
  rewrite Hr. cbv beta iota zeta delta [fst snd].
  now destruct (rv >? 0).
Qed.

Lemma write_round b c rv errno x1 :
  b <> [] -> is_shutdown c = false -> mtx c = false ->
  SSL_write E b (C_int (len b)) (ext c) = ((rv, errno), x1) ->
  write E b c =
  if rv >? 0 then Ret (rv, None) (after_success OpWrite x1 c)
  else (cb <- getErrorHandler E rv errno ;; Unlock ;; ret (0, Some cb))
         (stepped OpWrite x1 c).
Proof.
  intros Hb Hs Hm Hr. destruct c as [x sd mt slot h tr].
  cbn [mtx ext is_shutdown] in *. subst. unfold write.
  rewrite (len_nonempty b Hb).
  cbv beta iota zeta delta
    [bind ret gets call Lock log with_ext with_mtx
     ext is_shutdown mtx want_read_future futures trace].
  rewrite Hr. cbv beta iota zeta delta [fst snd].
  now destruct (rv >? 0).
Qed.

(** *** The classifier, by the engine's error code *)

Lemma getErrorHandler_want_write rv errno c :
  SSL_get_error E rv (ext c) = SSL_ERROR_WANT_WRITE ->
  getErrorHandler E rv errno c = Ret cb_flush (log EvGetError c).
Proof.
  intros Hcode. destruct c as [x sd mt slot h tr]. cbn [ext] in *.
  unfold getErrorHandler. run_round. now rewrite Hcode.
Qed.

Lemma getErrorHandler_stall rv errno c :
  SSL_get_error E rv (ext c) = SSL_ERROR_WANT_READ ->
  want_read_future c = None ->
  getErrorHandler E rv errno c
  = Ret (cb_fill (length (futures c)))
        (with_want_read_future (Some (length (futures c)))
           (with_futures (futures c ++ [None])
              (log EvGoFlush (log EvGetError c)))).
Proof.
  intros Hcode Hslot. destruct c as [x sd mt slot h tr].
  cbn [ext want_read_future] in *. subst slot.
  unfold getErrorHandler. run_round. now rewrite Hcode.
Qed.

Lemma getErrorHandler_wait rv errno c f :
  SSL_get_error E rv (ext c) = SSL_ERROR_WANT_READ ->
  want_read_future c = Some f ->
  getErrorHandler E rv errno c
  = Ret (cb_wait f) (log EvGoFlush (log EvGetError c)).
Proof.
  intros Hcode Hslot. destruct c as [x sd mt slot h tr].
  cbn [ext want_read_future] in *. subst slot.
  unfold getErrorHandler. run_round. now rewrite Hcode.
Qed.

Lemma getErrorHandler_errno errno c :
  SSL_get_error E (-1) (ext c) = SSL_ERROR_SYSCALL ->
  ERR_peek_error E (ext c) = 0 ->
  getErrorHandler E (-1) errno c
  = Ret (cb_const errno) (log EvPeekError (log EvGetError c)).
Proof.
  intros Hcode Hq. destruct c as [x sd mt slot h tr]. cbn [ext] in *.
  unfold getErrorHandler. run_round.
  rewrite Hcode. simpl. rewrite Hq. reflexivity.
Qed.

Lemma getErrorHandler_fault rv errno c :
  SSL_get_error E rv (ext c) <> SSL_ERROR_ZERO_RETURN ->
  SSL_get_error E rv (ext c) <> SSL_ERROR_WANT_READ ->
  SSL_get_error E rv (ext c) <> SSL_ERROR_WANT_WRITE ->
  SSL_get_error E rv (ext c) <> SSL_ERROR_SYSCALL ->
  getErrorHandler E rv errno c
  = Ret (cb_const (errorFromErrorQueue E (ext c)).1)
        (log EvErrorQueue
           (with_ext (errorFromErrorQueue E (ext c)).2 (log EvGetError c))).
Proof.
  intros H6 H2 H3 H5. destruct c as [x sd mt slot h tr]. cbn [ext] in *.
  unfold getErrorHandler. run_round.
  apply Z.eqb_neq in H6, H2, H3, H5. now rewrite H6, H2, H3, H5.
Qed.

Lemma gtb_pos (z : Z) : z > 0 -> (z >? 0) = true.
Proof. intros H. apply Z.gtb_lt. lia. Qed.

(** A round whose step did not succeed, once the classifier has chosen. *)
Lemma handshake_failed c rv errno x1 cb c2 :
  is_shutdown c = false -> mtx c = false ->
  SSL_do_handshake E (ext c) = ((rv, errno), x1) -> rv <= 0 ->
  getErrorHandler E rv errno (stepped OpHandshake x1 c) = Ret cb c2 ->
  handshake E c = Ret (Some cb) (log EvUnlock (with_mtx false c2)).
Proof.
  intros Hs Hm Hr Hrv Hcb.
  rewrite (handshake_round c rv errno x1 Hs Hm Hr), (gtb_nonpos rv Hrv).
  now rewrite (bind_eq _ _ _ _ _ Hcb).
Qed.

Lemma read_failed b c rv errno x1 cb c2 :
  b <> [] -> is_shutdown c = false -> mtx c = false ->
  SSL_read E (C_int (len b)) (ext c) = ((rv, errno), x1) -> rv <= 0 ->
  getErrorHandler E rv errno (stepped OpRead x1 c) = Ret cb c2 ->
  read E b c = Ret (0, Some cb) (log EvUnlock (with_mtx false c2)).
Proof.
  intros Hb Hs Hm Hr Hrv Hcb.
  rewrite (read_round b c rv errno x1 Hb Hs Hm Hr), (gtb_nonpos rv Hrv).
  now rewrite (bind_eq _ _ _ _ _ Hcb).
Qed.

Lemma write_failed b c rv errno x1 cb c2 :
  b <> [] -> is_shutdown c = false -> mtx c = false ->
  SSL_write E b (C_int (len b)) (ext c) = ((rv, errno), x1) -> rv <= 0 ->
  getErrorHandler E rv errno (stepped OpWrite x1 c) = Ret cb c2 ->
  write E b c = Ret (0, Some cb) (log EvUnlock (with_mtx false c2)).
Proof.
  intros Hb Hs Hm Hr Hrv Hcb.
  rewrite (write_round b c rv errno x1 Hb Hs Hm Hr), (gtb_nonpos rv Hrv).
  now rewrite (bind_eq _ _ _ _ _ Hcb).
Qed.

(** X4: when the engine step succeeds (a positive return value) on a
    connection that is not shut down, [Handshake] returns nil and [Read]
    returns the engine's count with a nil error, each after one engine step
    under the mutex and after only starting the flush of the output buffer
    in the background: neither reads from nor writes to the transport
    before it returns. *)
Theorem success_only_starts_a_flush n b c :
  is_shutdown c = false -> mtx c = false ->
  (forall rv errno x1,
     SSL_do_handshake E (ext c) = ((rv, errno), x1) -> rv > 0 ->
     Handshake E (S (S n)) c
       = Ret None (log EvGoFlush (after_success OpHandshake x1 c))) /\
  (forall rv errno x1,
     b <> [] ->
     SSL_read E (C_int (len b)) (ext c) = ((rv, errno), x1) -> rv > 0 ->
     Read E (S (S n)) b c
       = Ret (rv, None) (log EvGoFlush (after_success OpRead x1 c))) /\
  (forall op x1,
     trace (log EvGoFlush (after_success op x1 c))
       = trace c ++ [EvLock; EvStep op; EvUnlock; EvGoFlush] /\
     ext (log EvGoFlush (after_success op x1 c)) = x1).
Proof.
  intros Hs Hm. split; [|split].
  - intros rv errno x1 Hr Hrv. rewrite Handshake_unfold.
    erewrite bind_eq
      by (rewrite (handshake_round c rv errno x1 Hs Hm Hr), (gtb_pos rv Hrv);
          reflexivity).
    reflexivity.
  - intros rv errno x1 Hb Hr Hrv.
    rewrite (Read_nonempty _ b c Hb), Read_loop_unfold.
    erewrite bind_eq
      by (rewrite (read_round b c rv errno x1 Hb Hs Hm Hr), (gtb_pos rv Hrv);
          reflexivity).
    reflexivity.
  - intros op x1. run_round. split; [|reflexivity].
    now rewrite <- !app_assoc.
Qed.

(** X5: a failed step is reported as success when the engine classifies
    it as SSL_ERROR_SYSCALL, the return value is -1, the error queue is
    empty and cgo captured no errno: the handler's error is then nil, so
    [Handshake] returns nil, [Read] returns (0, nil), and [Write] drains the
    output buffer and returns 0 with the error of the drain. *)
Theorem syscall_without_errno_is_success n b c :
  is_shutdown c = false -> mtx c = false ->
  (forall x1,
     SSL_do_handshake E (ext c) = ((-1, None), x1) ->
     SSL_get_error E (-1) x1 = SSL_ERROR_SYSCALL ->
     ERR_peek_error E x1 = 0 ->
     Handshake E (S (S n)) c
       = Ret None (log EvGoFlush (after_syscall OpHandshake x1 c))) /\
  (forall x1,
     b <> [] ->
     SSL_read E (C_int (len b)) (ext c) = ((-1, None), x1) ->
     SSL_get_error E (-1) x1 = SSL_ERROR_SYSCALL ->
     ERR_peek_error E x1 = 0 ->
     Read E (S (S n)) b c
       = Ret (0, None) (log EvGoFlush (after_syscall OpRead x1 c))) /\
  (forall x1 k e x2,
     b <> [] ->
     SSL_write E b (C_int (len b)) (ext c) = ((-1, None), x1) ->
     SSL_get_error E (-1) x1 = SSL_ERROR_SYSCALL ->
     ERR_peek_error E x1 = 0 ->
     WriteTo E x1 = ((k, e), x2) ->
     Write E (S (S n)) b c
       = Ret (0, e) (drained x2 (after_syscall OpWrite x1 c))).
Proof.
  intros Hs Hm. split; [|split].
  - intros x1 Hr Hcode Hq. rewrite Handshake_unfold.
    erewrite bind_eq
      by (eapply handshake_failed; eauto; [lia|];
          apply getErrorHandler_errno; [exact Hcode|exact Hq]).
    reflexivity.
  - intros x1 Hb Hr Hcode Hq.
    rewrite (Read_nonempty _ b c Hb), Read_loop_unfold.
    erewrite bind_eq
      by (eapply read_failed; eauto; [lia|];
          apply getErrorHandler_errno; [exact Hcode|exact Hq]).
    reflexivity.
  - intros x1 k e x2 Hb Hr Hcode Hq Hw.
    rewrite (Write_nonempty _ b c Hb), Write_loop_unfold.
    erewrite bind_eq
      by (eapply write_failed; eauto; [lia|];
          apply getErrorHandler_errno; [exact Hcode|exact Hq]).
    cbn [snd]. rewrite (bind_eq _ _ _ _ _ (handleError_const n None _)).
    cbn [is_nil]. run_round. rewrite Hw. reflexivity.
Qed.

(** X6: a step the engine classifies as a protocol fault (an error code
    other than ZERO_RETURN, WANT_READ, WANT_WRITE and SYSCALL) ends the
    operation after that one step, with the error drawn from the engine's
    error queue and without any call on the transport: [Handshake] returns
    the error after starting a background flush, [Read] and [Write] return
    count 0 with it ([Read] turning io.ErrUnexpectedEOF into io.EOF) and
    start no flush. *)
Theorem protocol_fault_ends_the_operation n b c :
  is_shutdown c = false -> mtx c = false ->
  forall rv errno x1 e x2,
    rv <= 0 ->
    SSL_get_error E rv x1 <> SSL_ERROR_ZERO_RETURN ->
    SSL_get_error E rv x1 <> SSL_ERROR_WANT_READ ->
    SSL_get_error E rv x1 <> SSL_ERROR_WANT_WRITE ->
    SSL_get_error E rv x1 <> SSL_ERROR_SYSCALL ->
    errorFromErrorQueue E x1 = (e, x2) ->
    is_nil e = false -> is_tryAgain e = false ->
    (SSL_do_handshake E (ext c) = ((rv, errno), x1) ->
     Handshake E (S (S n)) c
       = Ret e (log EvGoFlush (after_fault OpHandshake x1 x2 c))) /\
    (b <> [] ->
     SSL_read E (C_int (len b)) (ext c) = ((rv, errno), x1) ->
     Read E (S (S n)) b c
       = Ret (0, if is_io_ErrUnexpectedEOF e then Some io_EOF else e)
             (after_fault OpRead x1 x2 c)) /\
    (b <> [] ->
     SSL_write E b (C_int (len b)) (ext c) = ((rv, errno), x1) ->
     Write E (S (S n)) b c = Ret (0, e) (after_fault OpWrite x1 x2 c)) /\
    (forall op,
       trace (after_fault op x1 x2 c)
         = trace c ++ [EvLock; EvStep op; EvGetError; EvErrorQueue;
                       EvUnlock] /\
       ext (after_fault op x1 x2 c) = x2).
Proof.
  intros Hs Hm rv errno x1 e x2 Hrv H6 H2 H3 H5 Hq Hn Ht.
  assert (Hcb : forall op,
    getErrorHandler E rv errno (stepped op x1 c)
    = Ret (cb_const e)
          (log EvErrorQueue (with_ext x2 (log EvGetError (stepped op x1 c))))).
  { intros op. rewrite getErrorHandler_fault by assumption.
    cbn [ext stepped log with_ext]. now rewrite Hq. }
  split; [|split; [|split]].
  - intros Hr. rewrite Handshake_unfold.
    erewrite bind_eq by (eapply handshake_failed; eauto).
    rewrite (bind_eq _ _ _ _ _ (handleError_const n e _)).
    rewrite Ht. reflexivity.
  - intros Hb Hr. rewrite (Read_nonempty _ b c Hb), Read_loop_unfold.
    erewrite bind_eq by (eapply read_failed; eauto).
    cbn [snd]. rewrite (bind_eq _ _ _ _ _ (handleError_const n e _)).
    rewrite Hn. cbv zeta.
    destruct (is_io_ErrUnexpectedEOF e); [reflexivity|].
    rewrite Ht. reflexivity.
  - intros Hb Hr. rewrite (Write_nonempty _ b c Hb), Write_loop_unfold.
    erewrite bind_eq by (eapply write_failed; eauto).
    cbn [snd]. rewrite (bind_eq _ _ _ _ _ (handleError_const n e _)).
    rewrite Hn, Ht. reflexivity.
  - intros op. run_round. split; [|reflexivity].
    now rewrite <- !app_assoc.
Qed.

(** X7: when a step needs the output buffer flushed (SSL_ERROR_WANT_WRITE),
    the operation drains the output buffer to the transport, outside the
    mutex, and then either goes round again from the drained state (the
    drain succeeded) or returns the error of the drain without another
    engine step. *)
Theorem want_write_drains_then_retries n b c :
  is_shutdown c = false -> mtx c = false ->
  forall rv errno x1 k e x2,
    rv <= 0 ->
    SSL_get_error E rv x1 = SSL_ERROR_WANT_WRITE ->
    WriteTo E x1 = ((k, e), x2) ->
    (SSL_do_handshake E (ext c) = ((rv, errno), x1) ->
     (e = None ->
      Handshake E (S (S n)) c
        = Handshake E (S n) (drained x2 (after_step OpHandshake x1 c))) /\
     (is_nil e = false -> is_tryAgain e = false ->
      Handshake E (S (S n)) c
        = Ret e (log EvGoFlush
                   (drained x2 (after_step OpHandshake x1 c))))) /\
    (b <> [] ->
     SSL_read E (C_int (len b)) (ext c) = ((rv, errno), x1) ->
     (e = None ->
      Read E (S (S n)) b c
        = Read E (S n) b (drained x2 (after_step OpRead x1 c))) /\
     (is_nil e = false -> is_tryAgain e = false ->
      Read E (S (S n)) b c
        = Ret (0, if is_io_ErrUnexpectedEOF e then Some io_EOF else e)
              (drained x2 (after_step OpRead x1 c)))) /\
    (b <> [] ->
     SSL_write E b (C_int (len b)) (ext c) = ((rv, errno), x1) ->
     (e = None ->
      Write E (S (S n)) b c
        = Write E (S n) b (drained x2 (after_step OpWrite x1 c))) /\
     (is_nil e = false -> is_tryAgain e = false ->
      Write E (S (S n)) b c
        = Ret (0, e) (drained x2 (after_step OpWrite x1 c)))).
Proof.
  intros Hs Hm rv errno x1 k e x2 Hrv Hcode Hw.
  assert (Hcb : forall op,
    getErrorHandler E rv errno (stepped op x1 c)
    = Ret cb_flush (log EvGetError (stepped op x1 c))).
  { intros op. now apply getErrorHandler_want_write. }
  assert (Hh : forall op,
    handleError E (S n) (Some cb_flush) (after_step op x1 c)
    = Ret (if is_nil e then Some tryAgain else e)
          (drained x2 (after_step op x1 c))).
  { intros op. rewrite handleError_flush.
    cbn [ext after_step log with_ext with_mtx]. now rewrite Hw. }
  split; [|split].
  - intros Hr.
    assert (Hsec : handshake E c
                   = Ret (Some cb_flush) (after_step OpHandshake x1 c))
      by (eapply handshake_failed; eauto).
    split.
    + intros ->. rewrite Handshake_unfold.
      rewrite (bind_eq _ _ _ _ _ Hsec), (bind_eq _ _ _ _ _ (Hh _)).
      reflexivity.
    + intros Hn Ht. rewrite Handshake_unfold.
      pose proof (Hh OpHandshake) as Hh1. rewrite Hn in Hh1.
      rewrite (bind_eq _ _ _ _ _ Hsec), (bind_eq _ _ _ _ _ Hh1).
      rewrite Ht. reflexivity.
  - intros Hb Hr.
    assert (Hsec : read E b c
                   = Ret (0, Some cb_flush) (after_step OpRead x1 c))
      by (eapply read_failed; eauto).
    split.
    + intros ->. rewrite !(Read_nonempty _ b _ Hb), Read_loop_unfold.
      rewrite (bind_eq _ _ _ _ _ Hsec). cbn [snd].
      rewrite (bind_eq _ _ _ _ _ (Hh _)). reflexivity.
    + intros Hn Ht. rewrite (Read_nonempty _ b c Hb), Read_loop_unfold.
      pose proof (Hh OpRead) as Hh1. rewrite Hn in Hh1.
      rewrite (bind_eq _ _ _ _ _ Hsec). cbn [snd].
      rewrite (bind_eq _ _ _ _ _ Hh1). rewrite Hn. cbv zeta.
      destruct (is_io_ErrUnexpectedEOF e); [reflexivity|].
      rewrite Ht. reflexivity.
  - intros Hb Hr.
    assert (Hsec : write E b c
                   = Ret (0, Some cb_flush) (after_step OpWrite x1 c))
      by (eapply write_failed; eauto).
    split.
    + intros ->. rewrite !(Write_nonempty _ b _ Hb), Write_loop_unfold.
      rewrite (bind_eq _ _ _ _ _ Hsec). cbn [snd].
      rewrite (bind_eq _ _ _ _ _ (Hh _)). reflexivity.
    + intros Hn Ht. rewrite (Write_nonempty _ b c Hb), Write_loop_unfold.
      pose proof (Hh OpWrite) as Hh1. rewrite Hn in Hh1.
      rewrite (bind_eq _ _ _ _ _ Hsec). cbn [snd].
      rewrite (bind_eq _ _ _ _ _ Hh1). rewrite Hn, Ht. reflexivity.
Qed.

End Rounds.

(** ** Stalls, the end of the stream, and Close *)

Section Stalls.

Context {X : Type} (E : Externals X).

Implicit Types c : Conn X.

Lemma Set_new (h : Future.heap) (e : error) :
  Future.Set_ (h ++ [None]) (length h) e = h ++ [Some e].
Proof.
  unfold Future.Set_. rewrite list_lookup_middle by reflexivity.
  replace (length h) with (length h + 0)%nat at 1 by lia.
  now rewrite insert_app_r.
Qed.

(** X8: [fillInputBuffer] reads from the transport until an answer is not
    empty: after [j] reads that gave no bytes and no error it returns the
    error of the next answer as it is (nil when the read gave bytes),
    provided that error is not io.EOF; it has then made [j + 1] transport
    reads and nothing else: no end-of-stream mark, no Close, the flags, the
    slot and the futures as they were. *)
Theorem fillInputBuffer_skips_empty_reads j n c k e x2 :
  empty_reads E j (ext c) = true ->
  ReadFromOnce E (after_reads E j (ext c)) = ((k, e), x2) ->
  (k =? 0) && is_nil e = false ->
  is_io_EOF e = false ->
  exists c',
    fillInputBuffer E (S (j + n)) c = Ret e c' /\
    trace c' = trace c ++ repeat EvReadFromOnce (S j) /\
    ext c' = x2 /\
    is_shutdown c' = is_shutdown c /\ mtx c' = mtx c /\
    want_read_future c' = want_read_future c /\ futures c' = futures c.
Proof.
  revert c. induction j as [|j IH]; intros c Hj Hr Hne Heof.
  - cbn [after_reads] in Hr. exists (log EvReadFromOnce (with_ext x2 c)).
    split; [|now repeat split].
    rewrite fillInputBuffer_unfold. unfold bind, call. rewrite Hr.
    cbn [fst snd]. rewrite Hne, Heof. reflexivity.
  - cbn [empty_reads after_reads] in Hj, Hr.
    apply andb_true_iff in Hj as [Hj0 Hj].
    destruct (IH (log EvReadFromOnce
                    (with_ext (ReadFromOnce E (ext c)).2 c)) Hj Hr Hne Heof)
      as (c' & Hf & T & Hx & F1 & F2 & F3 & F4).
    exists c'. split; [|split; [|now repeat split]].
    + change (S (S j + n)) with (S (S (j + n))).
      rewrite fillInputBuffer_unfold. unfold bind at 1. unfold call.
      cbv beta iota. rewrite Hj0. exact Hf.
    + rewrite T. cbn [trace log with_ext]. rewrite <- app_assoc.
      reflexivity.
Qed.

(** The critical sections when the step asks for input and no fill is
    pending. *)
Lemma handshake_stalls c rv errno x1 :
  is_shutdown c = false -> mtx c = false -> want_read_future c = None ->
  SSL_do_handshake E (ext c) = ((rv, errno), x1) -> rv <= 0 ->
  SSL_get_error E rv x1 = SSL_ERROR_WANT_READ ->
  handshake E c
  = Ret (Some (cb_fill (length (futures c)))) (stalled OpHandshake x1 c).
Proof.
  intros Hs Hm Hslot Hr Hrv Hcode.
  eapply handshake_failed; eauto.
  now rewrite getErrorHandler_stall.
Qed.

Lemma read_stalls b c rv errno x1 :
  b <> [] ->
  is_shutdown c = false -> mtx c = false -> want_read_future c = None ->
  SSL_read E (C_int (len b)) (ext c) = ((rv, errno), x1) -> rv <= 0 ->
  SSL_get_error E rv x1 = SSL_ERROR_WANT_READ ->
  read E b c
  = Ret (0, Some (cb_fill (length (futures c)))) (stalled OpRead x1 c).
Proof.
  intros Hb Hs Hm Hslot Hr Hrv Hcode.
  eapply read_failed; eauto.
  now rewrite getErrorHandler_stall.
Qed.

Lemma write_stalls b c rv errno x1 :
  b <> [] ->
  is_shutdown c = false -> mtx c = false -> want_read_future c = None ->
  SSL_write E b (C_int (len b)) (ext c) = ((rv, errno), x1) -> rv <= 0 ->
  SSL_get_error E rv x1 = SSL_ERROR_WANT_READ ->
  write E b c
  = Ret (0, Some (cb_fill (length (futures c)))) (stalled OpWrite x1 c).
Proof.
  intros Hb Hs Hm Hslot Hr Hrv Hcode.
  eapply write_failed; eauto.
  now rewrite getErrorHandler_stall.
Qed.

(** The fill handler when the first transport read gives something other
    than nothing and other than io.EOF. *)
Lemma fill_handler_reads_once n op c x1 k e x2 :
  mtx c = false ->
  ReadFromOnce E x1 = ((k, e), x2) ->
  (k =? 0) && is_nil e = false ->
  is_io_EOF e = false ->
  handleError E (S (S n)) (Some (cb_fill (length (futures c))))
              (stalled op x1 c)
  = Ret (if is_nil e then Some tryAgain else e)
        (resolved (length (futures c))
           (if is_nil e then Some tryAgain else e)
           (log EvReadFromOnce (with_ext x2 (stalled op x1 c)))).
Proof.
  intros Hm Hr Hne Heof.
  apply (fill_handler_in_phases E (S n)); [|reflexivity].
  rewrite fillInputBuffer_unfold. unfold bind, call.
  cbn [ext stalled stepped log with_ext with_mtx with_want_read_future
       with_futures].
  rewrite Hr. cbn [fst snd]. rewrite Hne, Heof. reflexivity.
Qed.

(** What the connection looks like after a stall and its fill. *)
Lemma resolved_after_stall op c x1 x2 e :
  let c2 := resolved (length (futures c)) e
              (log EvReadFromOnce (with_ext x2 (stalled op x1 c))) in
  trace c2 = trace c ++ [EvLock; EvStep op; EvGetError; EvGoFlush; EvUnlock;
                         EvReadFromOnce; EvLock; EvUnlock] /\
  ext c2 = x2 /\
  want_read_future c2 = None /\
  futures c2 = futures c ++ [Some e] /\
  mtx c2 = false /\
  is_shutdown c2 = is_shutdown c.
Proof.
  cbv zeta. unfold resolved, cleared, stalled, stepped.
  cbn [trace ext want_read_future futures mtx is_shutdown
       log with_ext with_mtx with_want_read_future with_futures].
  rewrite Set_new, <- !app_assoc. now repeat split.
Qed.

(** X9: when a step asks for input (SSL_ERROR_WANT_READ) and no fill is
    pending, the caller puts a new future in the slot, starts a background
    flush, reads once from the transport outside the mutex, clears the slot
    and sets the future.  If the read gave bytes the future holds tryAgain
    and the operation goes round again from that state; if it failed with an
    error other than io.EOF the future holds that error and the operation
    returns it without another engine step. *)
Theorem stall_fills_once_then_retries n b c :
  is_shutdown c = false -> mtx c = false -> want_read_future c = None ->
  forall rv errno x1 k e x2,
    rv <= 0 ->
    SSL_get_error E rv x1 = SSL_ERROR_WANT_READ ->
    ReadFromOnce E x1 = ((k, e), x2) ->
    (k =? 0) && is_nil e = false ->
    is_io_EOF e = false ->
    let f := length (futures c) in
    let e' := if is_nil e then Some tryAgain else e in
    let after op :=
      resolved f e' (log EvReadFromOnce (with_ext x2 (stalled op x1 c))) in
    (SSL_do_handshake E (ext c) = ((rv, errno), x1) ->
     (e = None ->
      Handshake E (S (S (S n))) c
        = Handshake E (S (S n)) (after OpHandshake)) /\
     (is_nil e = false -> is_tryAgain e = false ->
      Handshake E (S (S (S n))) c
        = Ret e (log EvGoFlush (after OpHandshake)))) /\
    (b <> [] ->
     SSL_read E (C_int (len b)) (ext c) = ((rv, errno), x1) ->
     (e = None ->
      Read E (S (S (S n))) b c = Read E (S (S n)) b (after OpRead)) /\
     (is_nil e = false -> is_tryAgain e = false ->
      Read E (S (S (S n))) b c
        = Ret (0, if is_io_ErrUnexpectedEOF e then Some io_EOF else e)
              (after OpRead))) /\
    (b <> [] ->
     SSL_write E b (C_int (len b)) (ext c) = ((rv, errno), x1) ->
     (e = None ->
      Write E (S (S (S n))) b c = Write E (S (S n)) b (after OpWrite)) /\
     (is_nil e = false -> is_tryAgain e = false ->
      Write E (S (S (S n))) b c = Ret (0, e) (after OpWrite))) /\
    (forall op,
       trace (after op)
         = trace c ++ [EvLock; EvStep op; EvGetError; EvGoFlush; EvUnlock;
                       EvReadFromOnce; EvLock; EvUnlock] /\
       ext (after op) = x2 /\
       want_read_future (after op) = None /\
       futures (after op) = futures c ++ [Some e'] /\
       mtx (after op) = false /\
       is_shutdown (after op) = false).
Proof.
  intros Hs Hm Hslot rv errno x1 k e x2 Hrv Hcode Hr Hne Heof f e' after.
  assert (Hh : forall op,
    handleError E (S (S n)) (Some (cb_fill f)) (stalled op x1 c)
    = Ret e' (after op)).
  { intros op. now apply (fill_handler_reads_once n op c x1 k e x2). }
  split; [|split; [|split]].
  - intros Hstep.
    pose proof (handshake_stalls c rv errno x1 Hs Hm Hslot Hstep Hrv Hcode)
      as Hsec.
    split.
    + intros He. rewrite Handshake_unfold.
      rewrite (bind_eq _ _ _ _ _ Hsec), (bind_eq _ _ _ _ _ (Hh _)).
      subst e' e. reflexivity.
    + intros Hn Ht. rewrite Handshake_unfold.
      rewrite (bind_eq _ _ _ _ _ Hsec), (bind_eq _ _ _ _ _ (Hh _)).
      subst e'. rewrite Hn, Ht. reflexivity.
  - intros Hb Hstep.
    pose proof (read_stalls b c rv errno x1 Hb Hs Hm Hslot Hstep Hrv Hcode)
      as Hsec.
    split.
    + intros He. rewrite !(Read_nonempty _ _ b _ Hb), Read_loop_unfold.
      rewrite (bind_eq _ _ _ _ _ Hsec). cbn [snd].
      rewrite (bind_eq _ _ _ _ _ (Hh _)).
      subst e' e. reflexivity.
    + intros Hn Ht. rewrite (Read_nonempty _ _ b c Hb), Read_loop_unfold.
      rewrite (bind_eq _ _ _ _ _ Hsec). cbn [snd].
      rewrite (bind_eq _ _ _ _ _ (Hh _)).
      subst e'. rewrite Hn. cbv zeta. cbv beta. rewrite Hn.
      destruct (is_io_ErrUnexpectedEOF e); [reflexivity|].
      rewrite Ht. reflexivity.
  - intros Hb Hstep.
    pose proof (write_stalls b c rv errno x1 Hb Hs Hm Hslot Hstep Hrv Hcode)
      as Hsec.
    split.
    + intros He. rewrite !(Write_nonempty _ _ b _ Hb), Write_loop_unfold.
      rewrite (bind_eq _ _ _ _ _ Hsec). cbn [snd].
      rewrite (bind_eq _ _ _ _ _ (Hh _)).
      subst e' e. reflexivity.
    + intros Hn Ht. rewrite (Write_nonempty _ _ b c Hb), Write_loop_unfold.
      rewrite (bind_eq _ _ _ _ _ Hsec). cbn [snd].
      rewrite (bind_eq _ _ _ _ _ (Hh _)).
      subst e'. rewrite Hn. cbv beta. rewrite Hn, Ht. reflexivity.
  - intros op. subst after. cbv beta.
    pose proof (resolved_after_stall op c x1 x2 e') as H.
    cbv zeta in H. rewrite Hs in H. exact H.
Qed.

Lemma bind_blocked {A B} (m : M X A) (k : A -> M X B) c c1 :
  m c = Blocked c1 -> bind m k c = Blocked c1.
Proof. intros H. unfold bind. now rewrite H. Qed.

Lemma shutdown_round c rv errno x1 :
  mtx c = false ->
  SSL_shutdown E (ext c) = ((rv, errno), x1) ->
  shutdown E c =
  if rv >? 0 then Ret None (after_success OpShutdown x1 c)
  else if rv =? 0 then Ret None (after_success OpShutdown x1 c)
  else (cb <- getErrorHandler E rv errno ;; Unlock ;; ret (Some cb))
         (stepped OpShutdown x1 c).
Proof.
  intros Hm Hr. destruct c as [x sd mt slot h tr].
  cbn [mtx ext] in *. subst. unfold shutdown.
  cbv beta iota zeta delta
    [bind ret gets call Lock log with_ext with_mtx
     ext is_shutdown mtx want_read_future futures trace].
  rewrite Hr. cbv beta iota zeta delta [fst snd].
  destruct (rv >? 0); [reflexivity|]. now destruct (rv =? 0).
Qed.

Lemma Close_open n c :
  is_shutdown c = false -> mtx c = false ->
  Close E (S n) c =
  (e1 <- shutdownLoop E n 0 ;;
   e2 <- call EvConnClose (conn_Close E) ;;
   ret (ErrorGroup.Finalize
          (ErrorGroup.Add (ErrorGroup.Add ErrorGroup.empty e1) e2)))
    (marked_shutdown c).
Proof.
  intros Hs Hm. destruct c as [x sd mt slot h tr].
  cbn [mtx is_shutdown] in *. subst. reflexivity.
Qed.

(** X10: on a connection that is not shut down, when the shutdown step
    returns 0 (the engine has sent its close notification and not yet seen
    the peer's) or a positive value, [Close] takes the shutdown as done: it
    makes that one shutdown step, drains the output buffer to the transport,
    closes the transport, and returns the errors of the drain and of the
    transport close put together. *)
Theorem Close_takes_an_unfinished_shutdown_as_done n c rv errno x1 k e1 x2 e2 x3 :
  is_shutdown c = false -> mtx c = false ->
  SSL_shutdown E (ext c) = ((rv, errno), x1) ->
  0 <= rv ->
  WriteTo E x1 = ((k, e1), x2) ->
  conn_Close E x2 = (e2, x3) ->
  exists c',
    Close E (S (S (S n))) c
      = Ret (ErrorGroup.Finalize
               (ErrorGroup.Add (ErrorGroup.Add ErrorGroup.empty e1) e2)) c' /\
    trace c' = trace c ++ [EvLock; EvUnlock; EvLock; EvStep OpShutdown;
                           EvUnlock; EvWriteTo; EvConnClose] /\
    ext c' = x3 /\
    is_shutdown c' = true /\
    mtx c' = false.
Proof.
  intros Hs Hm Hr Hrv Hw Hc.
  assert (Hsec : shutdown E (marked_shutdown c)
                 = Ret None (after_success OpShutdown x1 (marked_shutdown c))).
  { rewrite (shutdown_round (marked_shutdown c) rv errno x1 eq_refl Hr).
    destruct (rv >? 0) eqn:Hp; [reflexivity|].
    destruct (rv =? 0) eqn:H0; [reflexivity|]. exfalso.
    apply Z.eqb_neq in H0. rewrite Z.gtb_ltb in Hp. apply Z.ltb_ge in Hp.
    lia. }
  eexists. split.
  - rewrite (Close_open _ c Hs Hm).
    erewrite bind_eq.
    2:{ rewrite shutdownLoop_unfold.
        rewrite (bind_eq _ _ _ _ _ Hsec).
        rewrite (bind_eq _ _ _ _ _ (handleError_none E n _)).
        cbn [is_nil]. unfold flushOutputBuffer, bind, call, ret.
        cbn [ext after_success marked_shutdown log with_ext with_mtx
             with_is_shutdown].
        rewrite Hw. reflexivity. }
    unfold bind, call, ret. cbn [ext log with_ext fst snd]. rewrite Hc.
    reflexivity.
  - cbn [trace ext is_shutdown mtx log with_ext with_mtx with_is_shutdown
         after_success marked_shutdown fst snd].
    rewrite <- !app_assoc. now repeat split.
Qed.

(** *** The end of the stream during a stall *)

Lemma fillInputBuffer_at_EOF n c k x2 :
  ReadFromOnce E (ext c) = ((k, Some io_EOF), x2) ->
  fillInputBuffer E (S n) c = Close E n (at_EOF E x2 c).
Proof.
  intros Hr. rewrite fillInputBuffer_unfold. unfold bind, call, modify.
  rewrite Hr. cbn [fst snd is_nil is_io_EOF]. rewrite andb_false_r.
  reflexivity.
Qed.

Lemma handshake_shut_down c :
  is_shutdown c = true -> mtx c = false ->
  handshake E c = Ret (Some (cb_const (Some io_ErrUnexpectedEOF))) (peeked c).
Proof.
  intros Hs Hm. destruct c as [x sd mt slot h tr].
  cbn [mtx is_shutdown] in *. subst. reflexivity.
Qed.

Lemma read_shut_down b c :
  b <> [] -> is_shutdown c = true -> mtx c = false ->
  read E b c = Ret (0, Some (cb_const (Some io_EOF))) (peeked c).
Proof.
  intros Hb Hs Hm. destruct c as [x sd mt slot h tr].
  cbn [mtx is_shutdown] in *. subst. unfold read.
  rewrite (len_nonempty b Hb). reflexivity.
Qed.

Lemma write_shut_down b c :
  b <> [] -> is_shutdown c = true -> mtx c = false ->
  write E b c
  = Ret (0, Some (cb_const (Some (errors_New "connection closed"))))
        (peeked c).
Proof.
  intros Hb Hs Hm. destruct c as [x sd mt slot h tr].
  cbn [mtx is_shutdown] in *. subst. unfold write.
  rewrite (len_nonempty b Hb). reflexivity.
Qed.

(** The fill handler when the transport read reports the end of the stream
    and the [Close] it then runs returns. *)
Lemma fill_handler_at_EOF n op c x1 k x2 e c1 :
  ReadFromOnce E x1 = ((k, Some io_EOF), x2) ->
  Close E n (at_EOF E x2 (stalled op x1 c)) = Ret e c1 ->
  handleError E (S (S n)) (Some (cb_fill (length (futures c))))
              (stalled op x1 c)
  = Ret (if is_nil e then Some tryAgain else e)
        (resolved (length (futures c))
           (if is_nil e then Some tryAgain else e) c1) /\
  is_shutdown c1 = true /\ mtx c1 = false.
Proof.
  intros Hr Hc.
  assert (Hm1 : mtx c1 = false).
  { destruct (releases_all E n) as [Hrel _]. eapply Hrel; [|exact Hc].
    reflexivity. }
  split; [|split; [exact (Close_sets_flag E n _ _ _ Hc)|exact Hm1]].
  apply (fill_handler_in_phases E (S n)); [|exact Hm1].
  rewrite (fillInputBuffer_at_EOF n _ k x2); [exact Hc|exact Hr].
Qed.

(** X11: when a step asks for input, no fill is pending, and the transport
    read of the fill reports io.EOF, the caller marks the end of the stream
    and runs [Close].  If that [Close] returns nil the operation goes round
    once more, finds the connection shut down and reports it: [Handshake]
    returns io.ErrUnexpectedEOF, [Read] returns (0, io.EOF), [Write] returns
    (0, "connection closed").  If [Close] returns an error, the operation
    returns that error.  Either way the slot is cleared and the future set
    before the operation returns. *)
Theorem end_of_stream_during_a_stall n b c :
  is_shutdown c = false -> mtx c = false -> want_read_future c = None ->
  forall op rv errno x1 k x2 e c1,
    rv <= 0 ->
    SSL_get_error E rv x1 = SSL_ERROR_WANT_READ ->
    ReadFromOnce E x1 = ((k, Some io_EOF), x2) ->
    Close E n (at_EOF E x2 (stalled op x1 c)) = Ret e c1 ->
    let f := length (futures c) in
    let e' := if is_nil e then Some tryAgain else e in
    (op = OpHandshake ->
     SSL_do_handshake E (ext c) = ((rv, errno), x1) ->
     (e = None ->
      Handshake E (S (S (S n))) c
        = Ret (Some io_ErrUnexpectedEOF)
              (log EvGoFlush (peeked (resolved f e' c1)))) /\
     (is_nil e = false -> is_tryAgain e = false ->
      Handshake E (S (S (S n))) c
        = Ret e (log EvGoFlush (resolved f e' c1)))) /\
    (op = OpRead -> b <> [] ->
     SSL_read E (C_int (len b)) (ext c) = ((rv, errno), x1) ->
     (e = None ->
      Read E (S (S (S n))) b c
        = Ret (0, Some io_EOF) (peeked (resolved f e' c1))) /\
     (is_nil e = false -> is_tryAgain e = false ->
      Read E (S (S (S n))) b c
        = Ret (0, if is_io_ErrUnexpectedEOF e then Some io_EOF else e)
              (resolved f e' c1))) /\
    (op = OpWrite -> b <> [] ->
     SSL_write E b (C_int (len b)) (ext c) = ((rv, errno), x1) ->
     (e = None ->
      Write E (S (S (S n))) b c
        = Ret (0, Some (errors_New "connection closed"))
              (peeked (resolved f e' c1))) /\
     (is_nil e = false -> is_tryAgain e = false ->
      Write E (S (S (S n))) b c = Ret (0, e) (resolved f e' c1))) /\
    is_shutdown (resolved f e' c1) = true /\
    want_read_future (resolved f e' c1) = None /\
    mtx (resolved f e' c1) = false.
Proof.
  intros Hs Hm Hslot op rv errno x1 k x2 e c1 Hrv Hcode Hr Hc. cbv zeta.
  set (e' := if is_nil e then Some tryAgain else e).
  destruct (fill_handler_at_EOF n op c x1 k x2 e c1 Hr Hc)
    as (Hh & Hs1 & Hm1).
  change (handleError E (S (S n)) (Some (cb_fill (length (futures c))))
            (stalled op x1 c)
          = Ret e' (resolved (length (futures c)) e' c1)) in Hh.
  assert (Hfail : is_nil e = false -> e' = e).
  { intros H. subst e'. now rewrite H. }
  assert (Hs2 : is_shutdown (resolved (length (futures c)) e' c1) = true)
    by exact Hs1.
  assert (Hm2 : mtx (resolved (length (futures c)) e' c1) = false)
    by reflexivity.
  assert (Hretry : e = None ->
    is_nil e' = false /\ is_tryAgain e' = true /\
    is_io_ErrUnexpectedEOF e' = false).
  { intros H. subst e' e. now repeat split. }
  assert (Hn : n <> O).
  { intros ->. discriminate. }
  destruct n as [|n]; [congruence|]. clear Hn.
  split; [|split; [|split; [|split; [exact Hs2|split; reflexivity]]]].
  - intros -> Hstep.
    pose proof (handshake_stalls c rv errno x1 Hs Hm Hslot Hstep Hrv Hcode)
      as Hsec.
    split.
    + intros He. destruct (Hretry He) as (_ & Ht & _).
      rewrite Handshake_unfold.
      rewrite (bind_eq _ _ _ _ _ Hsec), (bind_eq _ _ _ _ _ Hh).
      rewrite Ht, Handshake_unfold.
      rewrite (bind_eq _ _ _ _ _ (handshake_shut_down _ Hs2 Hm2)).
      reflexivity.
    + intros Hne Ht. specialize (Hfail Hne). clearbody e'. subst e'.
      rewrite Handshake_unfold.
      rewrite (bind_eq _ _ _ _ _ Hsec), (bind_eq _ _ _ _ _ Hh).
      rewrite Ht. reflexivity.
  - intros -> Hb Hstep.
    pose proof (read_stalls b c rv errno x1 Hb Hs Hm Hslot Hstep Hrv Hcode)
      as Hsec.
    split.
    + intros He. destruct (Hretry He) as (Hnil & Ht & Hu).
      rewrite (Read_nonempty _ _ b c Hb), Read_loop_unfold.
      rewrite (bind_eq _ _ _ _ _ Hsec). cbn [snd].
      rewrite (bind_eq _ _ _ _ _ Hh).
      rewrite Hnil. cbv zeta. rewrite Hu, Ht, Read_loop_unfold.
      rewrite (bind_eq _ _ _ _ _ (read_shut_down b _ Hb Hs2 Hm2)).
      reflexivity.
    + intros Hne Ht. specialize (Hfail Hne). clearbody e'. subst e'.
      rewrite (Read_nonempty _ _ b c Hb), Read_loop_unfold.
      rewrite (bind_eq _ _ _ _ _ Hsec). cbn [snd].
      rewrite (bind_eq _ _ _ _ _ Hh).
      rewrite Hne. cbv zeta.
      destruct (is_io_ErrUnexpectedEOF e); [reflexivity|].
      rewrite Ht. reflexivity.
  - intros -> Hb Hstep.
    pose proof (write_stalls b c rv errno x1 Hb Hs Hm Hslot Hstep Hrv Hcode)
      as Hsec.
    split.
    + intros He. destruct (Hretry He) as (Hnil & Ht & _).
      rewrite (Write_nonempty _ _ b c Hb), Write_loop_unfold.
      rewrite (bind_eq _ _ _ _ _ Hsec). cbn [snd].
      rewrite (bind_eq _ _ _ _ _ Hh).
      rewrite Hnil, Ht, Write_loop_unfold.
      rewrite (bind_eq _ _ _ _ _ (write_shut_down b _ Hb Hs2 Hm2)).
      reflexivity.
    + intros Hne Ht. specialize (Hfail Hne). clearbody e'. subst e'.
      rewrite (Write_nonempty _ _ b c Hb), Write_loop_unfold.
      rewrite (bind_eq _ _ _ _ _ Hsec). cbn [snd].
      rewrite (bind_eq _ _ _ _ _ Hh).
      rewrite Hne, Ht. reflexivity.
Qed.

Lemma wait_handler_blocks n f c :
  Future.Get (futures c) f = None ->
  handleError E (S n) (Some (cb_wait f)) c = Blocked c.
Proof. intros H. cbn [handleError]. now rewrite H. Qed.

(** X12: the filling caller can end up waiting on its own future.  When a
    [Read] stalls with no fill pending, the transport read of its fill
    reports io.EOF, and the shutdown step of the [Close] that follows asks
    for input in its turn (SSL_ERROR_WANT_READ), the classifier finds the
    slot still holding the caller's own future, which is set only after the
    fill has returned, and hands out the handler that waits on it: with any
    amount of fuel the call is waiting, the connection marked shut down, the
    transport not closed, the slot and the unset future left behind. *)
Theorem fill_can_wait_on_its_own_future n b c rv errno x1 k x2 rv' errno' x3 :
  b <> [] ->
  is_shutdown c = false -> mtx c = false -> want_read_future c = None ->
  SSL_read E (C_int (len b)) (ext c) = ((rv, errno), x1) -> rv <= 0 ->
  SSL_get_error E rv x1 = SSL_ERROR_WANT_READ ->
  ReadFromOnce E x1 = ((k, Some io_EOF), x2) ->
  SSL_shutdown E (MarkEOF E x2) = ((rv', errno'), x3) -> rv' < 0 ->
  SSL_get_error E rv' x3 = SSL_ERROR_WANT_READ ->
  exists c',
    Read E (S (S (S (S (S (S n)))))) b c = Blocked c' /\
    want_read_future c' = Some (length (futures c)) /\
    futures c' !! length (futures c) = Some None /\
    is_shutdown c' = true /\
    mtx c' = false /\
    count is_conn_close (trace c') = count is_conn_close (trace c).
Proof.
  intros Hb Hs Hm Hslot Hstep Hrv Hcode Hr Hsd Hrv' Hcode'.
  set (c1 := stalled OpRead x1 c).
  set (c2 := marked_shutdown (at_EOF E x2 c1)).
  set (c3 := log EvUnlock (with_mtx false
               (log EvGoFlush (log EvGetError (stepped OpShutdown x3 c2))))).
  assert (Hsec : shutdown E c2 = Ret (Some (cb_wait (length (futures c)))) c3).
  { rewrite (shutdown_round c2 rv' errno' x3 eq_refl Hsd).
    rewrite (gtb_nonpos rv' ltac:(lia)).
    replace (rv' =? 0) with false by (symmetry; apply Z.eqb_neq; lia).
    erewrite bind_eq
      by (apply (getErrorHandler_wait E rv' errno' _ (length (futures c)));
          [exact Hcode'|reflexivity]).
    reflexivity. }
  assert (Hget : Future.Get (futures c3) (length (futures c)) = None).
  { unfold Future.Get.
    change (futures c3) with (futures c ++ [None]).
    now rewrite list_lookup_middle. }
  assert (Hloop : shutdownLoop E (S (S n)) 0 c2 = Blocked c3).
  { rewrite shutdownLoop_unfold. rewrite (bind_eq _ _ _ _ _ Hsec).
    apply bind_blocked. now apply wait_handler_blocks. }
  assert (Hclose : Close E (S (S (S n))) (at_EOF E x2 c1) = Blocked c3).
  { rewrite (Close_open (S (S n)) (at_EOF E x2 c1) Hs eq_refl).
    now apply bind_blocked. }
  assert (Hfill : fillInputBuffer E (S (S (S (S n)))) c1 = Blocked c3).
  { rewrite (fillInputBuffer_at_EOF _ c1 k x2); [exact Hclose|exact Hr]. }
  exists c3. split; [|split; [|split; [|split]]].
  - rewrite (Read_nonempty _ _ b c Hb), Read_loop_unfold.
    rewrite (bind_eq _ _ _ _ _
               (read_stalls b c rv errno x1 Hb Hs Hm Hslot Hstep Hrv Hcode)).
    cbn [snd]. apply bind_blocked. rewrite handleError_fill.
    now apply bind_blocked.
  - reflexivity.
  - change (futures c3) with (futures c ++ [None]).
    now rewrite list_lookup_middle.
  - reflexivity.
  - split; [reflexivity|].
    subst c3 c2 c1. unfold marked_shutdown, at_EOF, stalled, stepped.
    cbn [trace log with_ext with_mtx with_is_shutdown with_want_read_future
         with_futures].
    rewrite <- !app_assoc, count_app. unfold count at 2. simpl. lia.
Qed.

End Stalls.

(** ** The further properties on scripted connections *)

Section ConcreteRounds.

Import Scripted Scenes.

Local Abbreviation run := Scripted.externals.

Lemma retry_signal_stays_inside_witness :
  is_tryAgain (Some (errors_New "SSL errors")) = false /\
  ((Some io_EOF : error) = None /\ 0 <= 0 \/
   0 = 0 /\ (Some io_EOF : error) <> None /\
   is_tryAgain (Some io_EOF) = false /\
   is_io_ErrUnexpectedEOF (Some io_EOF) = false).
Proof.
  destruct (retry_signal_stays_inside run 4 one_byte (fresh failing_world))
    as (HH & _ & _).
  destruct (retry_signal_stays_inside run 4 one_byte (closed quiet_world))
    as (_ & HR & _).
  split.
  - exact (HH _ _ ltac:(vm_compute; reflexivity)).
  - exact (HR 0 (Some io_EOF) _ ltac:(discriminate)
              ltac:(vm_compute; reflexivity)).
Defined.

Lemma success_only_starts_a_flush_witness :
  Handshake run 2 (fresh quiet_world)
    = Ret None (log EvGoFlush
                  (after_success OpHandshake quiet_world (fresh quiet_world))) /\
  Read run 2 one_byte (fresh quiet_world)
    = Ret (1, None)
          (log EvGoFlush (after_success OpRead quiet_world (fresh quiet_world))).
Proof.
  destruct (success_only_starts_a_flush run 0 one_byte (fresh quiet_world)
              eq_refl eq_refl) as (HH & HR & _).
  split.
  - exact (HH 1 None quiet_world eq_refl ltac:(lia)).
  - exact (HR 1 None quiet_world ltac:(discriminate) eq_refl ltac:(lia)).
Defined.

Lemma syscall_without_errno_is_success_witness :
  Handshake run 2 (fresh silent_world)
    = Ret None
          (log EvGoFlush
             (after_syscall OpHandshake (step silent_world).2
                (fresh silent_world))) /\
  Read run 2 one_byte (fresh silent_world)
    = Ret (0, None)
          (log EvGoFlush
             (after_syscall OpRead (step silent_world).2
                (fresh silent_world))) /\
  Write run 2 one_byte (fresh silent_world)
    = Ret (0, None)
          (drained (step silent_world).2
             (after_syscall OpWrite (step silent_world).2
                (fresh silent_world))).
Proof.
  destruct (syscall_without_errno_is_success run 0 one_byte
              (fresh silent_world) eq_refl eq_refl) as (HH & HR & HW).
  split; [|split].
  - exact (HH _ eq_refl eq_refl eq_refl).
  - exact (HR _ ltac:(discriminate) eq_refl eq_refl eq_refl).
  - exact (HW _ 0 None _ ltac:(discriminate) eq_refl eq_refl eq_refl eq_refl).
Defined.

Lemma protocol_fault_ends_the_operation_witness :
  Handshake run 2 (fresh failing_world)
    = Ret ssl_errors
          (log EvGoFlush
             (after_fault OpHandshake (step failing_world).2
                (step failing_world).2 (fresh failing_world))) /\
  Read run 2 one_byte (fresh failing_world)
    = Ret (0, ssl_errors)
          (after_fault OpRead (step failing_world).2 (step failing_world).2
             (fresh failing_world)) /\
  Write run 2 one_byte (fresh failing_world)
    = Ret (0, ssl_errors)
          (after_fault OpWrite (step failing_world).2 (step failing_world).2
             (fresh failing_world)).
Proof.
  destruct (protocol_fault_ends_the_operation run 0 one_byte
              (fresh failing_world) eq_refl eq_refl
              (-1) None (step failing_world).2 ssl_errors
              (step failing_world).2
              ltac:(lia) ltac:(discriminate) ltac:(discriminate)
              ltac:(discriminate) ltac:(discriminate) eq_refl eq_refl eq_refl)
    as (HH & HR & HW & _).
  split; [|split].
  - exact (HH eq_refl).
  - exact (HR ltac:(discriminate) eq_refl).
  - exact (HW ltac:(discriminate) eq_refl).
Defined.

Lemma want_write_drains_then_retries_witness :
  Write run 2 one_byte (fresh want_write_world)
    = Write run 1 one_byte
        (drained (step want_write_world).2
           (after_step OpWrite (step want_write_world).2
              (fresh want_write_world))) /\
  Handshake run 2 (fresh want_write_failing_world)
    = Ret broken_pipe
          (log EvGoFlush
             (drained (write_to (step want_write_failing_world).2).2
                (after_step OpHandshake (step want_write_failing_world).2
                   (fresh want_write_failing_world)))) /\
  Read run 2 one_byte (fresh want_write_failing_world)
    = Ret (0, broken_pipe)
          (drained (write_to (step want_write_failing_world).2).2
             (after_step OpRead (step want_write_failing_world).2
                (fresh want_write_failing_world))).
Proof.
  destruct (want_write_drains_then_retries run 0 one_byte
              (fresh want_write_world) eq_refl eq_refl
              (-1) None (step want_write_world).2 0 None
              (step want_write_world).2 ltac:(lia) eq_refl eq_refl)
    as (_ & _ & HW).
  destruct (want_write_drains_then_retries run 0 one_byte
              (fresh want_write_failing_world) eq_refl eq_refl
              (-1) None (step want_write_failing_world).2 0 broken_pipe
              (write_to (step want_write_failing_world).2).2
              ltac:(lia) eq_refl eq_refl)
    as (HH & HR & _).
  split; [|split].
  - exact (proj1 (HW ltac:(discriminate) eq_refl) eq_refl).
  - exact (proj2 (HH eq_refl) eq_refl eq_refl).
  - exact (proj2 (HR ltac:(discriminate) eq_refl) eq_refl eq_refl).
Defined.

Lemma fillInputBuffer_skips_empty_reads_witness :
  exists c',
    fillInputBuffer run 3 (fresh sparse_world) = Ret None c' /\
    trace c' = [EvReadFromOnce; EvReadFromOnce; EvReadFromOnce] /\
    reads (ext c') = [].
Proof.
  destruct (fillInputBuffer_skips_empty_reads run 2 0 (fresh sparse_world)
              7 None (after_reads run 3 sparse_world)
              eq_refl eq_refl eq_refl eq_refl)
    as (c' & HF & HT & HX & _).
  exists c'. split; [exact HF|]. split; [exact HT|].
  rewrite HX. reflexivity.
Defined.

Lemma Close_takes_an_unfinished_shutdown_as_done_witness :
  exists c',
    Close run 3 (fresh half_closed_world) = Ret None c' /\
    trace c' = [EvLock; EvUnlock; EvLock; EvStep OpShutdown; EvUnlock;
                EvWriteTo; EvConnClose].
Proof.
  destruct (Close_takes_an_unfinished_shutdown_as_done run 0
              (fresh half_closed_world) 0 None (step half_closed_world).2
              0 None (step half_closed_world).2 None
              (step half_closed_world).2
              eq_refl eq_refl eq_refl ltac:(lia) eq_refl eq_refl)
    as (c' & HC & HT & _).
  exists c'. split; [exact HC|exact HT].
Defined.

Lemma stall_fills_once_then_retries_witness :
  (exists c',
     Read run 3 one_byte (fresh stalling_world) = Read run 2 one_byte c' /\
     futures c' = [Some (Some tryAgain)] /\
     want_read_future c' = None) /\
  (exists c',
     Write run 3 one_byte (fresh stall_failing_world)
       = Ret (0, econnreset) c' /\
     futures c' = [Some econnreset] /\
     want_read_future c' = None).
Proof.
  destruct (stall_fills_once_then_retries run 0 one_byte
              (fresh stalling_world) eq_refl eq_refl eq_refl
              (-1) None (step stalling_world).2 5 None
              (read_once (step stalling_world).2).2
              ltac:(lia) eq_refl eq_refl eq_refl eq_refl)
    as (_ & HR & _ & HS).
  destruct (stall_fills_once_then_retries run 0 one_byte
              (fresh stall_failing_world) eq_refl eq_refl eq_refl
              (-1) None (step stall_failing_world).2 0 econnreset
              (read_once (step stall_failing_world).2).2
              ltac:(lia) eq_refl eq_refl eq_refl eq_refl)
    as (_ & _ & HW & HS').
  split.
  - eexists. split; [exact (proj1 (HR ltac:(discriminate) eq_refl) eq_refl)|].
    destruct (HS OpRead) as (_ & _ & Hslot & Hfut & _).
    split; [exact Hfut|exact Hslot].
  - eexists.
    split; [exact (proj2 (HW ltac:(discriminate) eq_refl) eq_refl eq_refl)|].
    destruct (HS' OpWrite) as (_ & _ & Hslot & Hfut & _).
    split; [exact Hfut|exact Hslot].
Defined.

Lemma end_of_stream_during_a_stall_witness :
  (exists c', Read run 7 one_byte (fresh ended_world)
              = Ret (0, Some io_EOF) c') /\
  (exists c', Handshake run 7 (fresh ended_world)
              = Ret (Some io_ErrUnexpectedEOF) c') /\
  (exists c', Write run 7 one_byte (fresh ended_failing_world)
              = Ret (0, Some close_failed) c').
Proof.
  split; [|split].
  - destruct (end_of_stream_during_a_stall run 4 one_byte (fresh ended_world)
                eq_refl eq_refl eq_refl
                OpRead (-1) None (step ended_world).2 0
                (step ended_world).2 None
                (state_of (Close run 4
                   (at_EOF run (step ended_world).2
                      (stalled OpRead (step ended_world).2
                         (fresh ended_world)))))
                ltac:(lia) eq_refl eq_refl ltac:(vm_compute; reflexivity))
      as (_ & HR & _).
    eexists.
    exact (proj1 (HR eq_refl ltac:(discriminate) eq_refl) eq_refl).
  - destruct (end_of_stream_during_a_stall run 4 one_byte (fresh ended_world)
                eq_refl eq_refl eq_refl
                OpHandshake (-1) None (step ended_world).2 0
                (step ended_world).2 None
                (state_of (Close run 4
                   (at_EOF run (step ended_world).2
                      (stalled OpHandshake (step ended_world).2
                         (fresh ended_world)))))
                ltac:(lia) eq_refl eq_refl ltac:(vm_compute; reflexivity))
      as (HH & _).
    eexists. exact (proj1 (HH eq_refl eq_refl) eq_refl).
  - destruct (end_of_stream_during_a_stall run 4 one_byte
                (fresh ended_failing_world) eq_refl eq_refl eq_refl
                OpWrite (-1) None (step ended_failing_world).2 0
                (step ended_failing_world).2 (Some close_failed)
                (state_of (Close run 4
                   (at_EOF run (step ended_failing_world).2
                      (stalled OpWrite (step ended_failing_world).2
                         (fresh ended_failing_world)))))
                ltac:(lia) eq_refl eq_refl ltac:(vm_compute; reflexivity))
      as (_ & _ & HW & _).
    eexists.
    exact (proj2 (HW eq_refl ltac:(discriminate) eq_refl) eq_refl eq_refl).
Defined.

Lemma fill_can_wait_on_its_own_future_witness :
  exists c',
    Read run 6 one_byte (fresh self_wait_world) = Blocked c' /\
    want_read_future c' = Some 0%nat /\
    futures c' = [None] /\
    is_shutdown c' = true /\
    closes (ext c') = [] /\
    count is_conn_close (trace c') = 0%nat.
Proof.
  destruct (fill_can_wait_on_its_own_future run 0 one_byte
              (fresh self_wait_world) (-1) None (step self_wait_world).2 0
              (step self_wait_world).2 (-1) None
              (step (mark_eof (step self_wait_world).2)).2
              ltac:(discriminate) eq_refl eq_refl eq_refl eq_refl ltac:(lia)
              eq_refl eq_refl eq_refl ltac:(lia) eq_refl)
    as (c' & HR & HS & _ & HF & _ & HC).
  exists c'. split; [exact HR|]. split; [exact HS|].
  assert (Hc' : c' = state_of (Read run 6 one_byte (fresh self_wait_world)))
    by (rewrite HR; reflexivity).
  split; [rewrite Hc'; vm_compute; reflexivity|].
  split; [exact HF|].
  split; [rewrite Hc'; vm_compute; reflexivity|exact HC].
Defined.

End ConcreteRounds.

(** ** The peer's certificates *)

Section PeerFacts.

Context {X X509 STACK : Type} (L : Peer.Lookups X X509 STACK).

Implicit Types c : Conn X.

(** X13: on a connection that is shut down, each accessor of the peer's
    certificates takes the mutex, sees the flag and gives up with the error
    "connection closed", whatever the engine holds: [PeerCertificate] and
    [PeerCertificateChain] return nil with that error, [ConnectionState]
    carries it in both error fields, [VerifyHostname] returns it for every
    host.  The connection is left as it was but for the mutex events. *)
Theorem accessors_on_a_closed_connection host c :
  is_shutdown c = true -> mtx c = false ->
  Peer.PeerCertificate L c = Ret (None, Peer.connection_closed) (peeked c) /\
  Peer.PeerCertificateChain L c
    = Ret (Returns (None, Peer.connection_closed)) (peeked c) /\
  Peer.Conn_ConnectionState L c
    = Ret (Returns (Peer.mkConnectionState None Peer.connection_closed
                      None Peer.connection_closed))
          (peeked (peeked c)) /\
  Peer.VerifyHostname L host c
    = Ret (Returns Peer.connection_closed) (peeked c).
Proof.
  intros Hs Hm. destruct c as [x sd mt slot h tr].
  cbn [is_shutdown mtx] in *. subst. repeat split.
Qed.

Lemma PeerCertificate_result c r c' :
  Peer.PeerCertificate L c = Ret r c' ->
  c' = peeked c /\
  (r.2 = None ->
   is_shutdown c = false /\
   exists p, Peer.SSL_get_peer_certificate L (ext c) = Some p /\
             r.1 = Some (Peer.mkCertificate (Some p) false true)).
Proof.
  destruct c as [x sd mt slot h tr]. unfold Peer.PeerCertificate.
  unfold bind, Lock, gets, Unlock, ret. simpl.
  destruct mt; [discriminate|]. destruct sd; simpl.
  - intros H. inversion H; subst. split; [reflexivity|]. discriminate.
  - destruct (Peer.SSL_get_peer_certificate L x) as [p|] eqn:Hp;
      intros H; inversion H; subst; (split; [reflexivity|]).
    + intros _. split; [reflexivity|]. now exists p.
    + discriminate.
Qed.

(** X14: [VerifyHostname] approves a host (returns nil) only on a
    connection that is not shut down, whose engine holds a peer
    certificate, and when the check of that certificate against the host
    passes; in every other case it returns an error.  It never calls the
    check on a nil certificate, and leaves the connection as it was but for
    the mutex events. *)
Theorem VerifyHostname_needs_a_certificate host c r c' :
  Peer.VerifyHostname L host c = Ret r c' ->
  c' = peeked c /\
  r <> Panics /\
  (r = Returns None ->
   is_shutdown c = false /\
   exists p,
     Peer.SSL_get_peer_certificate L (ext c) = Some p /\
     Peer.Certificate_VerifyHostname L
       (Peer.mkCertificate (Some p) false true) host = None).
Proof.
  unfold Peer.VerifyHostname. intros H.
  apply bind_Ret in H as (r1 & c1 & H1 & H).
  destruct (PeerCertificate_result _ _ _ H1) as [Hc1 Hok].
  destruct r1 as [cert e]. cbn [fst snd] in *.
  destruct e as [e|]; cbn [is_nil] in H.
  - inversion H; subst. split; [reflexivity|]. split; [discriminate|].
    discriminate.
  - destruct (Hok eq_refl) as (Hs & p & Hp & Hcert). subst cert.
    inversion H; subst. split; [reflexivity|]. split; [discriminate|].
    intros Hr. inversion Hr as [Hv]. split; [exact Hs|].
    exists p. now split.
Qed.

Lemma C_int_small (z : Z) : 0 <= z < 2 ^ 31 -> C_int z = z.
Proof. intros H. unfold C_int. rewrite Z.mod_small; lia. Qed.

Lemma chain_loop_lists sk sk_num :
  sk_num < 2 ^ 31 ->
  forall fuel i rv,
    0 <= i -> i + Z.of_nat fuel = sk_num ->
    Peer.chain_loop L fuel sk sk_num i rv
    = rv ++ ((fun j => Peer.mkCertificate
                         (Peer.sk_X509_value L sk (Z.of_nat j)) true false)
             <$> seq (Z.to_nat i) fuel).
Proof.
  intros Hnum. induction fuel as [|fuel IH]; intros i rv Hi Hsum.
  - cbn. now rewrite app_nil_r.
  - cbn [Peer.chain_loop].
    replace (i <? sk_num) with true by (symmetry; apply Z.ltb_lt; lia).
    rewrite IH by lia. rewrite <- app_assoc. f_equal.
    rewrite (C_int_small i) by lia. cbn [seq fmap list_fmap app].
    rewrite Z2Nat.id by lia.
    replace (Z.to_nat (i + 1)) with (S (Z.to_nat i)) by lia.
    reflexivity.
Qed.

(** X15: on a connection that is not shut down and whose engine holds a
    chain of [sk_num] certificates, [PeerCertificateChain] returns exactly
    [sk_num] certificates, the i-th being the i-th entry of the engine's
    stack; each holds on to the connection and has no finalizer, so the
    engine's X509 objects are borrowed, not freed.  A negative count makes
    the call panic, with the mutex given back. *)
Theorem PeerCertificateChain_lists_the_stack c sk :
  is_shutdown c = false -> mtx c = false ->
  Peer.SSL_get_peer_cert_chain L (ext c) = Some sk ->
  (0 <= Peer.sk_X509_num L sk < 2 ^ 31 ->
   exists rv,
     Peer.PeerCertificateChain L c = Ret (Returns (Some rv, None)) (peeked c) /\
     length rv = Z.to_nat (Peer.sk_X509_num L sk) /\
     forall i, (i < length rv)%nat ->
       rv !! i = Some (Peer.mkCertificate
                         (Peer.sk_X509_value L sk (Z.of_nat i)) true false)) /\
  (Peer.sk_X509_num L sk < 0 ->
   Peer.PeerCertificateChain L c = Ret Panics (peeked c)).
Proof.
  intros Hs Hm Hsk. destruct c as [x sd mt slot h tr].
  cbn [is_shutdown mtx ext] in *. subst. split.
  - intros Hnum.
    eexists. split; [|split].
    + unfold Peer.PeerCertificateChain, bind, Lock, gets, Unlock, ret.
      simpl. rewrite Hsk. cbv zeta.
      replace (Peer.sk_X509_num L sk <? 0) with false
        by (symmetry; apply Z.ltb_ge; lia).
      reflexivity.
    + rewrite (chain_loop_lists sk _ (proj2 Hnum)) by lia.
      cbn [app]. now rewrite length_fmap, length_seq.
    + intros i Hi.
      rewrite (chain_loop_lists sk _ (proj2 Hnum)) in Hi |- * by lia.
      cbn [app] in Hi |- *. rewrite length_fmap, length_seq in Hi.
      rewrite list_lookup_fmap, lookup_seq_lt by exact Hi.
      reflexivity.
  - intros Hneg.
    unfold Peer.PeerCertificateChain, bind, Lock, gets, Unlock, ret.
    simpl. rewrite Hsk. cbv zeta.
    replace (Peer.sk_X509_num L sk <? 0) with true
      by (symmetry; apply Z.ltb_lt; lia).
    reflexivity.
Qed.

End PeerFacts.

(** ** The SSL handle, its verify settings and the thunks *)

Section HandleFacts.

Context {X Store : Type} (V : Handle.VerifyCalls X).

Implicit Types s : Handle.SSL X Store.

(** X16: with a verify callback installed, what [verify_ssl_cb_thunk] hands
    back to the engine is 1 when the callback accepted and 0 when it
    refused, whatever verdict [ok] the engine came with; the callback is
    told that the engine's own check passed exactly when [ok] is 1, so any
    two values of [ok] other than 1 are treated alike; a callback that
    panics ends the process with exit code 1.  Without a callback the
    engine's verdict is returned as it came; with a nil pointer the process
    exits. *)
Theorem verify_thunk_answers_for_the_callback s ok ctx :
  (forall cb, Handle.verify_cb s = Some cb ->
     (Handle.verify_ssl_cb_thunk (Some s) ok ctx = Handle.ThunkReturns 1 <->
      cb (ok =? 1) ctx = Returns true) /\
     (Handle.verify_ssl_cb_thunk (Some s) ok ctx = Handle.ThunkReturns 0 <->
      cb (ok =? 1) ctx = Returns false) /\
     (Handle.verify_ssl_cb_thunk (Some s) ok ctx = Handle.ThunkExits 1 <->
      cb (ok =? 1) ctx = Panics) /\
     (forall ok', ok <> 1 -> ok' <> 1 ->
        Handle.verify_ssl_cb_thunk (Some s) ok' ctx
        = Handle.verify_ssl_cb_thunk (Some s) ok ctx)) /\
  (Handle.verify_cb s = None ->
   Handle.verify_ssl_cb_thunk (Some s) ok ctx = Handle.ThunkReturns ok) /\
  Handle.verify_ssl_cb_thunk (@None (Handle.SSL X Store)) ok ctx
    = Handle.ThunkExits 1.
Proof.
  split; [|split].
  - intros cb Hcb. unfold Handle.verify_ssl_cb_thunk. rewrite Hcb.
    split; [|split; [|split]].
    + destruct (cb (ok =? 1) ctx) as [[|]|]; simpl; split;
        intros H; try reflexivity; discriminate.
    + destruct (cb (ok =? 1) ctx) as [[|]|]; simpl; split;
        intros H; try reflexivity; discriminate.
    + destruct (cb (ok =? 1) ctx) as [[|]|]; simpl; split;
        intros H; try reflexivity; discriminate.
    + intros ok' H1 H2. apply Z.eqb_neq in H1, H2. now rewrite H1, H2.
  - intros Hcb. unfold Handle.verify_ssl_cb_thunk. now rewrite Hcb.
  - reflexivity.
Qed.

(** X17: [SetVerifyCallback] does not install the callback it is given: it
    passes the callback already stored in the handle on to [SetVerify],
    with the current verify mode.  So [GetVerifyCallback] afterwards
    returns the old callback, the call is the same as [SetVerifyMode] with
    the current mode, and on a handle that had no callback the thunk goes
    on returning the engine's verdict without calling anything.
    [SetVerify] is what stores a callback, and [SetVerifyMode] keeps the
    one stored; the engine is handed the C callback exactly when the stored
    callback is not nil. *)
Theorem SetVerifyCallback_keeps_the_old_callback cb s :
  Handle.GetVerifyCallback (Handle.SetVerifyCallback V cb s)
    = Handle.GetVerifyCallback s /\
  Handle.SetVerifyCallback V cb s
    = Handle.SetVerifyMode V (Handle.VerifyMode V s) s /\
  (Handle.verify_cb s = None ->
   forall ok ctx,
     Handle.verify_ssl_cb_thunk (Some (Handle.SetVerifyCallback V cb s)) ok ctx
     = Handle.ThunkReturns ok) /\
  (forall options cb',
     Handle.GetVerifyCallback (Handle.SetVerify V options cb' s) = cb' /\
     Handle.ssl (Handle.SetVerify V options cb' s)
     = Handle.SSL_set_verify V (C_int options)
         (match cb' with Some _ => true | None => false end) (Handle.ssl s)) /\
  (forall options,
     Handle.GetVerifyCallback (Handle.SetVerifyMode V options s)
     = Handle.GetVerifyCallback s).
Proof.
  assert (Hset : forall options cb',
    Handle.verify_cb (Handle.SetVerify V options cb' s) = cb').
  { intros options [cb'|]; reflexivity. }
  split; [apply Hset|]. split; [reflexivity|].
  split; [|split].
  - intros Hcb ok ctx. unfold Handle.verify_ssl_cb_thunk.
    unfold Handle.SetVerifyCallback. rewrite Hset, Hcb. reflexivity.
  - intros options cb'. split; [apply Hset|]. now destruct cb'.
  - intros options. apply Hset.
Qed.

(** X18: [sni_cb_thunk] returns to the engine only when the context
    pointer is not nil, the context has an SNI callback, and the callback
    returns; it then hands back the callback's answer as a C int, and the
    callback was given a fresh handle on the connection with no verify
    callback, which by then is stored in the connection's ex data.  In
    every other case the process exits with code 1: a nil context pointer
    before anything is stored, a missing or panicking callback after. *)
Theorem sni_thunk_returns_the_callback_answer
    (set_ex_data : Handle.SSL X Store -> X -> X) p con :
  (forall v,
     (Handle.sni_cb_thunk set_ex_data p con).1 = Handle.ThunkReturns v <->
     exists ctx cb v0,
       p = Some ctx /\ Handle.sni_cb ctx = Some cb /\
       cb (Handle.mkSSL con None) = Returns v0 /\ v = C_int v0) /\
  (forall v,
     (Handle.sni_cb_thunk set_ex_data p con).1 = Handle.ThunkReturns v ->
     - 2 ^ 31 <= v < 2 ^ 31) /\
  (forall code,
     (Handle.sni_cb_thunk set_ex_data p con).1 = Handle.ThunkExits code ->
     code = 1) /\
  (Handle.sni_cb_thunk set_ex_data p con).2
    = match p with
      | Some _ => set_ex_data (Handle.mkSSL con None) con
      | None => con
      end.
Proof.
  assert (Hiff : forall v,
    (Handle.sni_cb_thunk set_ex_data p con).1 = Handle.ThunkReturns v <->
    exists ctx cb v0,
      p = Some ctx /\ Handle.sni_cb ctx = Some cb /\
      cb (Handle.mkSSL con None) = Returns v0 /\ v = C_int v0).
  { intros v. unfold Handle.sni_cb_thunk. destruct p as [[cb]|]; simpl.
    - destruct cb as [cb|]; simpl.
      + destruct (cb (Handle.mkSSL con None)) as [v0|] eqn:Hcb; simpl.
        * split.
          -- intros H. inversion H; subst. now exists (Handle.mkCtx (Some cb)), cb, v0.
          -- intros (ctx & cb' & v1 & Hp & Hc & Hr & Hv).
             inversion Hp; subst. simpl in Hc. inversion Hc; subst.
             rewrite Hcb in Hr. now inversion Hr.
        * split; [discriminate|].
          intros (ctx & cb' & v1 & Hp & Hc & Hr & Hv).
          inversion Hp; subst. simpl in Hc. inversion Hc; subst.
          rewrite Hcb in Hr. discriminate.
      + split; [discriminate|].
        intros (ctx & cb' & v1 & Hp & Hc & _).
        inversion Hp; subst. discriminate.
    - split; [discriminate|]. intros (ctx & cb' & v1 & Hp & _).
      discriminate. }
  split; [exact Hiff|]. split; [|split].
  - intros v H. apply Hiff in H as (_ & _ & v0 & _ & _ & _ & ->).
    unfold C_int.
    pose proof (Z.mod_pos_bound (v0 + 2 ^ 31) (2 ^ 32) ltac:(lia)). lia.
  - intros code. unfold Handle.sni_cb_thunk. destruct p as [[cb]|]; simpl.
    + destruct cb as [cb|]; simpl.
      * destruct (cb (Handle.mkSSL con None)); simpl;
          intros H; inversion H; reflexivity.
      * intros H. now inversion H.
    + intros H. now inversion H.
  - unfold Handle.sni_cb_thunk. now destruct p.
Qed.

End HandleFacts.

(** ** Making a connection *)

Section MakeFacts.

Context {S B : Type} (ReleaseBuffers : Z).

Implicit Types a : Make.answers S B.

Lemma land_pow2_testbit (m k : Z) :
  0 <= k -> (Z.land m (2 ^ k) >? 0) = Z.testbit m k.
Proof.
  intros Hk.
  assert (H : Z.land m (2 ^ k) = if Z.testbit m k then 2 ^ k else 0).
  { apply Z.bits_inj'. intros i Hi. rewrite Z.land_spec.
    destruct (Z.eq_dec i k) as [->|Hne].
    - rewrite Z.pow2_bits_true by lia. rewrite andb_true_r.
      destruct (Z.testbit m k) eqn:Hb;
        [now rewrite Z.pow2_bits_true by lia|now rewrite Z.bits_0].
    - rewrite Z.pow2_bits_false by lia. rewrite andb_false_r.
      destruct (Z.testbit m k);
        [now rewrite Z.pow2_bits_false by lia|now rewrite Z.bits_0]. }
  rewrite H. destruct (Z.testbit m k); [|reflexivity].
  apply Z.gtb_lt. apply Z.pow_pos_nonneg; lia.
Qed.

(** X19: [newConn] gives a connection exactly when the engine made an SSL
    object and both memory BIOs could be made (given that a failed
    [SSL_new] leaves an error in the queue).  When a BIO is missing it frees
    both BIO pointers and the SSL object, in that order, registers no
    finalizer, attaches nothing, and returns "failed to allocate memory
    BIO"; when [SSL_new] fails it returns the error of the queue having made
    nothing.  On success the BIOs are attached to the SSL object and a
    finalizer is registered.  [Client] and [Server] add one call, and only
    on success: the first puts the SSL object in the connect state, the
    second in the accept state. *)
Theorem newConn_all_or_nothing a :
  Make.errorFromErrorQueue a <> None ->
  let r := Make.newConn ReleaseBuffers a in
  let release := Z.land (Make.GetMode a) ReleaseBuffers >? 0 in
  let made_calls :=
    [Make.CallSSL_new; Make.CallGetMode; Make.CallMakeCBIO_into release;
     Make.CallMakeCBIO_from release] in
  match Make.SSL_new a, Make.into_ssl_MakeCBIO a, Make.from_ssl_MakeCBIO a with
  | None, _, _ =>
      r = ((None, Make.errorFromErrorQueue a),
           [Make.CallSSL_new; Make.CallErrorFromErrorQueue]) /\
      Make.Client ReleaseBuffers a = r /\ Make.Server ReleaseBuffers a = r
  | Some s, Some i, Some f =>
      r = ((Some (Make.mkMade (Some s) release release false None), None),
           made_calls ++ [Make.CallSSL_set_bio (Some s) (Some i) (Some f);
                          Make.CallSetFinalizer]) /\
      Make.Client ReleaseBuffers a
        = (r.1, r.2 ++ [Make.CallSSL_set_connect_state (Some s)]) /\
      Make.Server ReleaseBuffers a
        = (r.1, r.2 ++ [Make.CallSSL_set_accept_state (Some s)])
  | Some s, i, f =>
      r = ((None, Some (errors_New "failed to allocate memory BIO")),
           made_calls ++ [Make.CallBIO_free i; Make.CallBIO_free f;
                          Make.CallSSL_free (Some s)]) /\
      Make.Client ReleaseBuffers a = r /\ Make.Server ReleaseBuffers a = r
  end.
Proof.
  intros Hq. cbv zeta.
  unfold Make.Client, Make.Server, Make.newConn, Make.newSSL.
  destruct a as [new q mode into from]. cbn [Make.SSL_new Make.errorFromErrorQueue
    Make.GetMode Make.into_ssl_MakeCBIO Make.from_ssl_MakeCBIO] in *.
  destruct new as [s|].
  - destruct into as [i|], from as [f|]; repeat split.
  - destruct q as [e|]; [|congruence]. repeat split.
Qed.

(** X20: the two memory BIOs of a new connection release their buffers
    exactly when the context's mode has the SSL_MODE_RELEASE_BUFFERS bit,
    whatever the other bits (a negative mode included); both BIOs always
    get the same setting. *)
Theorem release_buffers_follows_the_mode_bit a k m :
  0 <= k -> ReleaseBuffers = 2 ^ k ->
  (Make.newConn ReleaseBuffers a).1 = (Some m, None) ->
  Make.into_ssl_release_buffers m = Z.testbit (Make.GetMode a) k /\
  Make.from_ssl_release_buffers m = Z.testbit (Make.GetMode a) k.
Proof.
  intros Hk HRB. unfold Make.newConn, Make.newSSL.
  destruct a as [new q mode into from]. cbn [Make.SSL_new Make.errorFromErrorQueue
    Make.GetMode Make.into_ssl_MakeCBIO Make.from_ssl_MakeCBIO] in *.
  subst ReleaseBuffers.
  destruct new as [s|].
  - cbn [is_nil negb]. destruct into as [i|], from as [f|];
      cbn [fst snd]; intros H; inversion H; subst.
    cbn [Make.into_ssl_release_buffers Make.from_ssl_release_buffers].
    now rewrite land_pow2_testbit.
  - destruct q as [e|]; cbn [is_nil negb fst snd]; intros H; inversion H.
    destruct into as [i|], from as [f|]; inversion H; subst.
    cbn [Make.into_ssl_release_buffers Make.from_ssl_release_buffers].
    now rewrite land_pow2_testbit.
Qed.

End MakeFacts.

(** ** The accessors, the handle and the constructors on examples *)

Section ConcreteHandles.

Import Scripted Scenes.

Lemma accessors_on_a_closed_connection_witness :
  Peer.PeerCertificate lookups (closed quiet_world)
    = Ret (None, Peer.connection_closed) (peeked (closed quiet_world)) /\
  Peer.VerifyHostname lookups "example.org" (closed quiet_world)
    = Ret (Returns Peer.connection_closed) (peeked (closed quiet_world)).
Proof.
  destruct (accessors_on_a_closed_connection lookups "example.org"
              (closed quiet_world) eq_refl eq_refl) as (H1 & _ & _ & H4).
  split; [exact H1|exact H4].
Defined.

Lemma VerifyHostname_needs_a_certificate_witness :
  is_shutdown (fresh quiet_world) = false /\
  exists p,
    Peer.SSL_get_peer_certificate lookups (ext (fresh quiet_world)) = Some p /\
    Peer.Certificate_VerifyHostname lookups
      (Peer.mkCertificate (Some p) false true) "example.org" = None.
Proof.
  exact (proj2 (proj2 (VerifyHostname_needs_a_certificate lookups
                         "example.org" (fresh quiet_world) (Returns None)
                         (peeked (fresh quiet_world)) eq_refl)) eq_refl).
Defined.

Lemma PeerCertificateChain_lists_the_stack_witness :
  exists rv,
    Peer.PeerCertificateChain lookups (fresh quiet_world)
      = Ret (Returns (Some rv, None)) (peeked (fresh quiet_world)) /\
    length rv = 3%nat /\
    rv !! 2%nat = Some (Peer.mkCertificate (Some 9%nat) true false).
Proof.
  destruct (PeerCertificateChain_lists_the_stack lookups (fresh quiet_world)
              [7; 8; 9]%nat eq_refl eq_refl eq_refl) as [Hok _].
  destruct (Hok ltac:(split; [discriminate|reflexivity]))
    as (rv & Hrv & Hlen & Hnth).
  exists rv. split; [exact Hrv|]. split; [exact Hlen|].
  apply (Hnth 2%nat). rewrite Hlen. simpl. lia.
Defined.

Lemma verify_thunk_answers_for_the_callback_witness :
  Handle.verify_ssl_cb_thunk (Some contrary) 0 tt = Handle.ThunkReturns 1 /\
  Handle.verify_ssl_cb_thunk (Some contrary) 2 tt
    = Handle.verify_ssl_cb_thunk (Some contrary) 0 tt.
Proof.
  destruct (verify_thunk_answers_for_the_callback contrary 0 tt)
    as (Hcb & _).
  destruct (Hcb _ eq_refl) as (H1 & _ & _ & Hok).
  split.
  - apply H1. reflexivity.
  - apply Hok; discriminate.
Defined.

Lemma newConn_all_or_nothing_witness :
  Make.Client 16 no_write_bio
    = ((None, Some (errors_New "failed to allocate memory BIO")),
       [Make.CallSSL_new; Make.CallGetMode; Make.CallMakeCBIO_into false;
        Make.CallMakeCBIO_from false; Make.CallBIO_free (Some 2%nat);
        Make.CallBIO_free None; Make.CallSSL_free (Some 1%nat)]) /\
  Make.Server 16 all_made
    = ((Some (Make.mkMade (Some 1%nat) true true false None), None),
       [Make.CallSSL_new; Make.CallGetMode; Make.CallMakeCBIO_into true;
        Make.CallMakeCBIO_from true;
        Make.CallSSL_set_bio (Some 1%nat) (Some 2%nat) (Some 3%nat);
        Make.CallSetFinalizer; Make.CallSSL_set_accept_state (Some 1%nat)]).
Proof.
  split.
  - destruct (newConn_all_or_nothing 16 no_write_bio ltac:(discriminate))
      as (Hr & Hc & _).
    rewrite Hc. exact Hr.
  - destruct (newConn_all_or_nothing 16 all_made ltac:(discriminate))
      as (Hr & _ & Hs).
    rewrite Hs, Hr. reflexivity.
Defined.

Lemma release_buffers_follows_the_mode_bit_witness :
  Make.into_ssl_release_buffers
    (Make.mkMade (Some 1%nat) true true false None) = Z.testbit 20 4 /\
  Make.from_ssl_release_buffers
    (Make.mkMade (Some 1%nat) true true false None) = Z.testbit 20 4.
Proof.
  exact (release_buffers_follows_the_mode_bit 16 all_made 4 _
           ltac:(lia) eq_refl eq_refl).
Defined.

End ConcreteHandles.

(** ** The slot and the futures across an operation *)

Section Frames.

Context {X : Type} (E : Externals X).

Implicit Types c : Conn X.

(** A critical section that also gives a count, followed by the run of its
    handler, is a frame. *)
Lemma frames_counted {A} n (sec : M X (Z * option errcb))
      (rest : Z * option errcb -> error -> M X A) :
  (forall c k cb c', sec c = Ret (k, cb) c' -> attaches c cb c') ->
  (forall r e, frames (rest r e)) ->
  frames (r <- sec ;; e <- handleError E n r.2 ;; rest r e).
Proof.
  intros Hsec Hrest c a c' H.
  apply bind_Ret in H as ([k cb] & c1 & H1 & H).
  specialize (Hsec _ _ _ _ H1).
  destruct (frames_all E n) as (_ & _ & Hh & _).
  apply bind_Ret in H as (e & c2 & H2 & H3).
  destruct (Hrest _ _ _ _ _ H3) as [S3 K3].
  specialize (Hh cb c1 e c2 H2).
  destruct Hsec as [(S1 & F1 & Hnf & _)|(S0 & Hcb & S1 & F1)].
  - assert (want_read_future c2 = want_read_future c1 /\
            heap_kept None (futures c1) (futures c2)) as [S2 K2].
    { destruct cb as [[ |f|f| |e0]|]; try exact Hh. now destruct (Hnf f). }
    split; [congruence|]. rewrite <- F1.
    eapply heap_kept_trans; eauto.
  - subst cb. destruct Hh as [S2 K2]. split; [congruence|].
    eapply heap_kept_trans; [|exact K3].
    destruct K2 as [L2 K2]. rewrite F1 in *. rewrite length_app in L2.
    simpl in L2. split; [lia|]. intros i Hi _.
    rewrite K2; [now apply lookup_app_l| rewrite length_app; simpl; lia|].
    intros Heq. inversion Heq. lia.
Qed.

Lemma read_needs_the_mutex b c r c' :
  (len b =? 0) = false -> read E b c = Ret r c' -> mtx c = false.
Proof.
  intros Hb H. unfold read in H. rewrite Hb in H. unfold bind, Lock in H.
  now destruct (mtx c).
Qed.

Lemma write_needs_the_mutex b c r c' :
  (len b =? 0) = false -> write E b c = Ret r c' -> mtx c = false.
Proof.
  intros Hb H. unfold write in H. rewrite Hb in H. unfold bind, Lock in H.
  now destruct (mtx c).
Qed.

Lemma frames_go : frames (X:=X) go_flushOutputBuffer.
Proof. now apply frames_modify. Qed.

Lemma frames_Handshake n : frames (Handshake E n).
Proof.
  induction n as [|n IH]; [apply frames_out_of_fuel|].
  intros c a c' H. rewrite Handshake_unfold in H. revert c a c' H.
  apply (frames_section E n (handshake E)).
  - intros c cb c' H. now apply handshake_attaches in H.
  - apply frames_all.
  - intros e. destruct (is_tryAgain e); [exact IH|].
    apply frames_bind; [apply frames_go|]. intros; apply frames_ret.
Qed.

Lemma frames_Read n b : frames (Read E n b).
Proof.
  unfold Read. destruct (len b =? 0) eqn:Hb; [apply frames_ret|].
  induction n as [|n IH]; [apply frames_out_of_fuel|].
  intros c a c' H. rewrite Read_loop_unfold in H. revert c a c' H.
  apply (frames_counted n (read E b)
           (fun r e =>
              if is_nil e then go_flushOutputBuffer ;; ret (r.1, None)
              else
                let e := if is_io_ErrUnexpectedEOF e then Some io_EOF else e in
                if is_tryAgain e then Read_loop E n b else ret (0, e))).
  - intros c k cb c' H.
    now apply read_attaches in H; [|exact (read_needs_the_mutex b c _ _ Hb H)].
  - intros r e. destruct (is_nil e).
    + apply frames_bind; [apply frames_go|]. intros; apply frames_ret.
    + cbv zeta. destruct (is_tryAgain _); [exact IH|apply frames_ret].
Qed.

Lemma frames_Write n b : frames (Write E n b).
Proof.
  unfold Write. destruct (len b =? 0) eqn:Hb; [apply frames_ret|].
  induction n as [|n IH]; [apply frames_out_of_fuel|].
  intros c a c' H. rewrite Write_loop_unfold in H. revert c a c' H.
  apply (frames_counted n (write E b)
           (fun r e =>
              if is_nil e then e' <- flushOutputBuffer E ;; ret (r.1, e')
              else if is_tryAgain e then Write_loop E n b
              else ret (0, e))).
  - intros c k cb c' H.
    now apply write_attaches in H;
      [|exact (write_needs_the_mutex b c _ _ Hb H)].
  - intros r e. destruct (is_nil e).
    + apply frames_bind; [apply frames_flushOutputBuffer|].
      intros; apply frames_ret.
    + destruct (is_tryAgain e); [exact IH|apply frames_ret].
Qed.

(** X21: an operation that returns leaves the pending-fill slot as it found
    it, whatever stalls and fills happened inside it (a fill the operation
    started is cleared before it returns, a fill of another caller is left
    alone); and it keeps the futures there were: none is removed and none
    of them is changed, new ones are only added behind them. *)
Theorem operations_restore_the_slot n b :
  frames (Handshake E n) /\ frames (Read E n b) /\ frames (Write E n b) /\
  frames (Close E n).
Proof.
  split; [apply frames_Handshake|]. split; [apply frames_Read|].
  split; [apply frames_Write|apply frames_all].
Qed.

End Frames.

(** ** Where the shutdown loop does not return *)

Section StuckFacts.

Context {X : Type} (E : Externals X).

Implicit Types c : Conn X.

Lemma bind_out_of_fuel {A B} (m : M X A) (k : A -> M X B) c c1 :
  m c = OutOfFuel c1 -> bind m k c = OutOfFuel c1.
Proof. intros H. unfold bind. now rewrite H. Qed.

(** With a transport that only ever answers empty reads, a fill is still
    reading whatever the fuel. *)
Lemma fillInputBuffer_spins :
  (forall x, (ReadFromOnce E x).1 = (0, None)) ->
  forall n c, exists c', fillInputBuffer E n c = OutOfFuel c'.
Proof.
  intros Hidle. induction n as [|n IH]; intros c.
  - now exists c.
  - rewrite fillInputBuffer_unfold. unfold bind at 1. unfold call.
    cbv beta iota. rewrite Hidle. cbn [fst snd is_nil]. apply IH.
Qed.

(** The shutdown step that asks for input. *)
Lemma shutdown_asks_for_input c rv errno x1 :
  mtx c = false ->
  SSL_shutdown E (ext c) = ((rv, errno), x1) -> rv < 0 ->
  shutdown E c
  = (cb <- getErrorHandler E rv errno ;; Unlock ;; ret (Some cb))
      (stepped OpShutdown x1 c).
Proof.
  intros Hm Hr Hrv. rewrite (shutdown_round E c rv errno x1 Hm Hr).
  rewrite (gtb_nonpos rv ltac:(lia)).
  now replace (rv =? 0) with false by (symmetry; apply Z.eqb_neq; lia).
Qed.

(** The loop on such a transport, when its first step asks for input and
    no fill is pending: it starts a fill and is still in it whatever the
    fuel. *)
Lemma shutdownLoop_spins c rv errno x1 :
  (forall x, (ReadFromOnce E x).1 = (0, None)) ->
  mtx c = false -> want_read_future c = None ->
  SSL_shutdown E (ext c) = ((rv, errno), x1) -> rv < 0 ->
  SSL_get_error E rv x1 = SSL_ERROR_WANT_READ ->
  forall n, exists c', shutdownLoop E n 0 c = OutOfFuel c'.
Proof.
  intros Hidle Hm Hslot Hr Hrv Hcode [|n]; [now exists c|].
  rewrite shutdownLoop_unfold.
  erewrite bind_eq.
  2:{ rewrite (shutdown_asks_for_input c rv errno x1 Hm Hr Hrv).
      erewrite bind_eq
        by (apply getErrorHandler_stall; [exact Hcode|exact Hslot]).
      reflexivity. }
  destruct n as [|n]; [eexists; reflexivity|].
  destruct (fillInputBuffer_spins Hidle n
              (log EvUnlock (with_mtx false
                 (with_want_read_future (Some (length (futures (stepped OpShutdown x1 c))))
                    (with_futures (futures (stepped OpShutdown x1 c) ++ [None])
                       (log EvGoFlush (log EvGetError (stepped OpShutdown x1 c))))))))
    as [c' Hfill].
  exists c'. apply bind_out_of_fuel. rewrite handleError_fill.
  now apply bind_out_of_fuel.
Qed.

(** The loop when its first step asks for input and the slot holds a future
    that is not set: it waits on that future. *)
Lemma shutdownLoop_waits n c f rv errno x1 :
  mtx c = false ->
  want_read_future c = Some f ->
  Future.Get (futures c) f = None ->
  SSL_shutdown E (ext c) = ((rv, errno), x1) -> rv < 0 ->
  SSL_get_error E rv x1 = SSL_ERROR_WANT_READ ->
  shutdownLoop E (S (S n)) 0 c
  = Blocked (log EvUnlock (with_mtx false
               (log EvGoFlush (log EvGetError (stepped OpShutdown x1 c))))).
Proof.
  intros Hm Hslot Hget Hr Hrv Hcode.
  rewrite shutdownLoop_unfold.
  erewrite bind_eq.
  2:{ rewrite (shutdown_asks_for_input c rv errno x1 Hm Hr Hrv).
      erewrite bind_eq
        by (apply (getErrorHandler_wait E rv errno _ f);
            [exact Hcode|exact Hslot]).
      reflexivity. }
  apply bind_blocked. apply wait_handler_blocks. exact Hget.
Qed.

(** While the loop of a [Close] has not returned, neither has the [Close],
    and the transport has not been closed. *)
Lemma Close_inside_the_loop n c :
  is_shutdown c = false -> mtx c = false ->
  (forall c', shutdownLoop E n 0 (marked_shutdown c) = OutOfFuel c' ->
     Close E (S n) c = OutOfFuel c' /\
     count is_conn_close (trace c') = count is_conn_close (trace c)) /\
  (forall c', shutdownLoop E n 0 (marked_shutdown c) = Blocked c' ->
     Close E (S n) c = Blocked c' /\
     count is_conn_close (trace c') = count is_conn_close (trace c)).
Proof.
  intros Hs Hm.
  pose proof (keeps_shutdownLoop E n 0 ltac:(lia) (marked_shutdown c)
                eq_refl) as Hk.
  assert (Hcount : forall c',
    state_of (shutdownLoop E n 0 (marked_shutdown c)) = c' ->
    count is_conn_close (trace c') = count is_conn_close (trace c)).
  { intros c' <-. destruct Hk as [_ (evs & T & C & _)].
    rewrite T, marked_shutdown_trace, !count_app, C.
    change (count is_conn_close [EvLock; EvUnlock]) with 0%nat. lia. }
  split; intros c' Hl.
  - split; [|apply Hcount; now rewrite Hl].
    rewrite (Close_open E n c Hs Hm). now apply bind_out_of_fuel.
  - split; [|apply Hcount; now rewrite Hl].
    rewrite (Close_open E n c Hs Hm). now apply bind_blocked.
Qed.

End StuckFacts.

Section StuckConcrete.

Import Scripted Scenes Stuck.

Local Abbreviation run := Scripted.externals.

(** C1 as worded does not hold.  [Close] on a connection that is not shut
    down does not reach the transport's [Close] while its shutdown loop has
    not returned, and the loop need not return: with a transport that only
    ever answers empty reads the fill the loop starts is still reading
    whatever the fuel, and on the connection a fill hands to [Close] at the
    end of the stream, whose slot holds the caller's own unset future, a
    shutdown step that asks for input makes [Close] wait on that future.  In
    both the transport is not closed. *)
Lemma Close_can_leave_the_transport_open :
  is_shutdown (fresh ended_world) = false /\
  is_shutdown own_fill_pending = false /\
  (forall n, exists c',
     Close idle n (fresh ended_world) = OutOfFuel c' /\
     count is_conn_close (trace c') = 0%nat) /\
  (forall n, exists c',
     Close run (S (S (S n))) own_fill_pending = Blocked c' /\
     count is_conn_close (trace c') = 0%nat).
Proof.
  split; [reflexivity|]. split; [reflexivity|]. split.
  - intros [|n]; [exists (fresh ended_world); now split|].
    destruct (shutdownLoop_spins idle (marked_shutdown (fresh ended_world))
                (-1) None (step ended_world).2
                ltac:(reflexivity) eq_refl eq_refl eq_refl ltac:(lia) eq_refl n)
      as [c' Hl].
    exists c'.
    exact (proj1 (Close_inside_the_loop idle n (fresh ended_world)
                    eq_refl eq_refl) c' Hl).
  - intros n. eexists.
    apply (proj2 (Close_inside_the_loop run (S (S n)) own_fill_pending
                    eq_refl eq_refl)).
    apply (shutdownLoop_waits run n (marked_shutdown own_fill_pending)
             0%nat (-1) None (step (ext own_fill_pending)).2);
      first [reflexivity | lia].
Qed.

(** C2 as worded does not hold: the shutdown loop does not always
    terminate.  Entered from [Close] (the flag set, the mutex free) with a
    first step that asks for input, it is still in its fill whatever the
    fuel when the transport only ever answers empty reads, and it waits for
    ever when the slot holds the unset future of the caller that is running
    it.  The bound of two shutdown steps holds in both. *)
Lemma shutdownLoop_need_not_return :
  (forall n, exists c',
     shutdownLoop idle n 0 (marked_shutdown (fresh ended_world))
       = OutOfFuel c' /\
     (count is_shutdown_step (trace c') <= 2)%nat) /\
  (forall n, exists c',
     shutdownLoop run (S (S n)) 0 (marked_shutdown own_fill_pending)
       = Blocked c' /\
     (count is_shutdown_step (trace c') <= 2)%nat).
Proof.
  split.
  - intros n.
    destruct (shutdownLoop_spins idle (marked_shutdown (fresh ended_world))
                (-1) None (step ended_world).2
                ltac:(reflexivity) eq_refl eq_refl eq_refl ltac:(lia) eq_refl n)
      as [c' Hl].
    exists c'. split; [exact Hl|].
    destruct (keeps_shutdownLoop idle n 0 ltac:(lia)
                (marked_shutdown (fresh ended_world)) eq_refl)
      as [_ (evs & T & _ & S)].
    rewrite Hl in T. cbn [state_of] in T. rewrite T, count_app.
    simpl in S.
    change (count is_shutdown_step
              (trace (marked_shutdown (fresh ended_world)))) with 0%nat.
    lia.
  - intros n. eexists. split.
    + apply (shutdownLoop_waits run n (marked_shutdown own_fill_pending)
               0%nat (-1) None (step (ext own_fill_pending)).2);
        first [reflexivity | lia].
    + vm_compute. lia.
Qed.

End StuckConcrete.
